(** * Life Map timeline: age normalisation, display range, stacking and
    category ordering.

    A shallow embedding of the layout helpers of [Timeline.tsx], of
    [utils/ageCalculator.ts] and of the save and delete handlers of
    [CategoryManager.tsx], followed by the properties the specification
    states about them.

    Conventions of the embedding.
    - A TypeScript [number] that comes from stored data (ages, the age
      range, the zoom factor, the pixel width) is a rational [Q]: stored
      JSON holds no [Infinity] and no [NaN], and rounding of doubles is not
      modelled.  Where the code can produce [Infinity] or [NaN] (a division
      by the displayed span) the value is a [number], which adds them.
    - An optional field is an [option]; [None] stands for [undefined] and
      for [null].
    - [Map<number, V>] is a [gmap Z V]; item and category identifiers are
      integers.
    - A string is a [string] of bytes and [text.length] is its length,
      as for titles of ASCII characters.
    - [new Date(s)] followed by [getFullYear], [getMonth], [getDate] is the
      parameter [newDate]: its result depends on the host's parser and time
      zone. *)

From Stdlib Require Import ZArith QArith Qround Qminmax Lqa Lia.
From Stdlib Require Import List Bool String Ascii.
From stdpp Require Import gmap list sorting.

Local Open Scope Z_scope.

(* ================================================================== *)
(** * Numbers *)
(* ================================================================== *)

(** [x < y] and [x > y] on finite numbers. *)
Definition Qltb (x y : Q) : bool :=
  match (x ?= y)%Q with Lt => true | _ => false end.

Definition Qgtb (x y : Q) : bool := Qltb y x.

(** [x === y] and [x !== y] on finite numbers. *)
Definition Qeqb (x y : Q) : bool :=
  match (x ?= y)%Q with Eq => true | _ => false end.

(** A JavaScript number that may be infinite or [NaN]. *)
Inductive number : Type :=
| Fin (q : Q)
| PosInf
| NegInf
| NaN.

(** [a / b] for finite [a] and [b]; a zero divisor gives an infinity of
    the sign of [a], or [NaN] for [0 / 0]. *)
Definition num_div (a b : Q) : number :=
  if Qeqb b 0 then
    (if Qltb 0 a then PosInf else if Qltb a 0 then NegInf else NaN)
  else Fin (a / b).

(** [Math.max(a, b)]. *)
Definition num_max (a b : number) : number :=
  match a, b with
  | NaN, _ | _, NaN => NaN
  | PosInf, _ | _, PosInf => PosInf
  | NegInf, y => y
  | x, NegInf => x
  | Fin x, Fin y => Fin (Qmax x y)
  end.

(** [a / 2]. *)
Definition num_half (a : number) : number :=
  match a with
  | Fin x => Fin (x / 2)
  | other => other
  end.

(** [a + b]. *)
Definition num_add (a b : number) : number :=
  match a, b with
  | NaN, _ | _, NaN => NaN
  | PosInf, NegInf | NegInf, PosInf => NaN
  | PosInf, _ | _, PosInf => PosInf
  | NegInf, _ | _, NegInf => NegInf
  | Fin x, Fin y => Fin (x + y)
  end.

(** [- a]. *)
Definition num_neg (a : number) : number :=
  match a with
  | Fin x => Fin (- x)
  | PosInf => NegInf
  | NegInf => PosInf
  | NaN => NaN
  end.

(** [a - b]. *)
Definition num_sub (a b : number) : number := num_add a (num_neg b).

(** [a > b]; every comparison with [NaN] is false. *)
Definition num_gtb (a b : number) : bool :=
  match a, b with
  | NaN, _ | _, NaN => false
  | Fin x, Fin y => Qgtb x y
  | PosInf, PosInf => false
  | PosInf, _ => true
  | _, PosInf => false
  | NegInf, _ => false
  | Fin _, NegInf => true
  end.

(** [a < b]. *)
Definition num_ltb (a b : number) : bool := num_gtb b a.

(** [a || d] on numbers: [0] and [NaN] are falsy. *)
Definition num_or (a : number) (d : number) : number :=
  match a with
  | NaN => d
  | Fin x => if Qeqb x 0 then d else a
  | _ => a
  end.

(** [o ?? d]. *)
Definition nullish {A : Type} (o : option A) (d : A) : A :=
  match o with
  | Some v => v
  | None => d
  end.

(** The number of a lane index or of a string length. *)
Definition Qnat (n : nat) : Q := inject_Z (Z.of_nat n).

(** The double nearest to the integer [z], ties going to the even
    significand.  An integer of size up to 2^53 is a double; beyond, the
    doubles are the multiples of the power of two that leaves 53
    significant bits.  Overflow to an infinity, from 2^1024 on, is left
    out. *)
Definition nearestDouble (z : Z) : Z :=
  let a := Z.abs z in
  if a <=? 2 ^ 53 then z
  else
    let ulp := 2 ^ (Z.log2 a - 52) in
    let q := a / ulp in
    let r := a mod ulp in
    let roundUp :=
      if 2 * r <? ulp then false
      else if ulp <? 2 * r then true
      else Z.odd q in
    Z.sgn z * ((if roundUp then q + 1 else q) * ulp).

(** [a + 1] on a double that holds the integer [a]. *)
Definition succDouble (a : Z) : Z := nearestDouble (a + 1).

(** [Number.isSafeInteger(z)]. *)
Definition isSafeInteger (z : Z) : bool := Z.abs z <? 2 ^ 53.

(* ================================================================== *)
(** * Data model ([types.ts]) *)
(* ================================================================== *)

Inductive TimelineItemColor : Type := blue | red.

Inductive SectionName : Type := top | bottom.

Record Category : Type := {
  cat_id : Z;
  cat_name : string;
  cat_label : string;
  cat_section : SectionName;
  cat_display_order : Z;
  cat_color : TimelineItemColor
}.

Inductive InputMode : Type := age_mode | date_mode.

Record TimelineItem : Type := {
  item_id : Z;
  item_category_id : Z;
  item_category : option Category;
  item_title : string;
  item_description : option string;
  item_start_age : option Q;
  item_end_age : option Q;
  item_use_max_age : option bool;
  item_input_mode : option InputMode;
  item_start_date : option string;
  item_end_date : option string;
  item_color : TimelineItemColor
}.

(** Truthiness of an optional string: absent and empty are falsy. *)
Definition truthy_string (s : option string) : bool :=
  match s with
  | Some v => negb (String.eqb v EmptyString)
  | None => false
  end.

(** Truthiness of an optional boolean. *)
Definition truthy_bool (b : option bool) : bool :=
  match b with
  | Some true => true
  | _ => false
  end.

(** [item.input_mode === 'date']. *)
Definition is_date_mode (m : option InputMode) : bool :=
  match m with
  | Some date_mode => true
  | _ => false
  end.

(* ================================================================== *)
(** * Dates ([utils/ageCalculator.ts]) *)
(* ================================================================== *)

(** A [Date] object as the helpers read it: invalid, or the local
    calendar fields [getFullYear()], [getMonth()], [getDate()]. *)
Inductive Date : Type :=
| InvalidDate
| YMD (fullYear month date : Z).

Section AgeCalculator.

Variable newDate : string -> Date.

(** [calculateAgeAtDate(eventDate, dateOfBirth)]. *)
Definition calculateAgeAtDate (eventDate dateOfBirth : option string)
  : option Z :=
  if negb (truthy_string eventDate) || negb (truthy_string dateOfBirth)
  then None
  else
    match newDate (nullish eventDate EmptyString),
          newDate (nullish dateOfBirth EmptyString) with
    | YMD ey em ed, YMD byr bm bd =>
        let age := ey - byr in
        let monthDiff := em - bm in
        if (monthDiff <? 0) || ((monthDiff =? 0) && (ed <? bd))
        then Some (age - 1)
        else Some age
    | _, _ => None
    end.

(** [calculateMonthsDiff(startDate, endDate)]. *)
Definition calculateMonthsDiff (startDate endDate : option string)
  : option Z :=
  if negb (truthy_string startDate) || negb (truthy_string endDate)
  then None
  else
    match newDate (nullish startDate EmptyString),
          newDate (nullish endDate EmptyString) with
    | YMD sy sm sd, YMD ey em ed =>
        let yearDiff := ey - sy in
        let monthDiff := em - sm in
        let dayDiff := ed - sd in
        let totalMonths := yearDiff * 12 + monthDiff in
        if dayDiff <? 0 then Some (totalMonths - 1) else Some totalMonths
    | _, _ => None
    end.

(* ================================================================== *)
(** * Age/Date Normalizer ([deriveItemAges]) *)
(* ================================================================== *)

Record DerivedAges : Type := {
  start_age : Q;
  end_age : option Q
}.

Definition deriveItemAges (item : TimelineItem) (dateOfBirth : string)
  (ageRange : Q) : DerivedAges :=
  if is_date_mode (item_input_mode item)
     && truthy_string (item_start_date item)
  then
    let startAge :=
      nullish (inject_Z <$>
                 calculateAgeAtDate (item_start_date item) (Some dateOfBirth))
              0%Q in
    if truthy_bool (item_use_max_age item) then
      {| start_age := startAge; end_age := Some ageRange |}
    else if negb (truthy_string (item_end_date item)) then
      {| start_age := startAge; end_age := None |}
    else
      match calculateMonthsDiff (item_start_date item) (item_end_date item) with
      | None => {| start_age := startAge; end_age := None |}
      | Some months =>
          if months <? 3 then
            {| start_age := startAge; end_age := None |}
          else if months <=? 12 then
            {| start_age := startAge; end_age := Some (startAge + 1)%Q |}
          else
            let endAge :=
              nullish (inject_Z <$>
                         calculateAgeAtDate (item_end_date item)
                           (Some dateOfBirth))
                      (startAge + 1)%Q in
            {| start_age := startAge; end_age := Some endAge |}
      end
  else
    {| start_age := nullish (item_start_age item) 0%Q;
       end_age := if truthy_bool (item_use_max_age item)
                  then Some ageRange
                  else item_end_age item |}.

End AgeCalculator.

(* ================================================================== *)
(** * The timeline component ([Timeline.tsx]) *)
(* ================================================================== *)

Inductive ViewMode : Type := view_all | view_past | view_future.

(** The properties of the component, after their defaults are applied. *)
Record TimelineProps : Type := {
  items : list TimelineItem;
  categories : list Category;
  currentAge : Q;
  ageRange : Q;
  dateOfBirth : string;
  autoScale : bool;
  viewMode : ViewMode;
  width : Q;
  zoom : Q
}.

Record DisplayRange : Type := {
  startAge : Q;
  displayRange : Q
}.

(** What an item contributes to the drawing, horizontally: nothing
    visible, the box of a milestone, or the bar of a span, each with its
    left edge and its width. *)
Inductive ItemShape : Type :=
| NoShape
| Box (x w : number)
| Bar (x w : number).

Definition is_future (v : ViewMode) : bool :=
  match v with view_future => true | _ => false end.

Definition is_past (v : ViewMode) : bool :=
  match v with view_past => true | _ => false end.

(** [Array.prototype.sort] with a consistent comparator: a stable sort.
    The comparator's sign is a [comparison]; [Eq] also stands for a [NaN]
    result, which the sort reads as zero. *)
Fixpoint sort_insert {A : Type} (cmp : A -> A -> comparison) (x : A)
  (l : list A) : list A :=
  match l with
  | [] => [x]
  | y :: l' =>
      match cmp x y with
      | Lt => x :: y :: l'
      | _ => y :: sort_insert cmp x l'
      end
  end.

Definition sort {A : Type} (cmp : A -> A -> comparison) (l : list A)
  : list A :=
  fold_left (fun acc x => sort_insert cmp x acc) l [].

(** [Math.max(...values, 0) + 1] over the lanes of a stack map. *)
Definition maxStackOf (positions : gmap Z nat) : nat :=
  (max_list ((map_to_list positions).*2) + 1)%nat.

Section Timeline.

Variable newDate : string -> Date.
Variable p : TimelineProps.

Definition TIMELINE_WIDTH : Q := width p.

(** The derived ages of all items, by item id. *)
Definition itemAges : gmap Z DerivedAges :=
  fold_left
    (fun m item =>
       <[item_id item :=
           deriveItemAges newDate item (dateOfBirth p) (ageRange p)]> m)
    (items p) ∅.

Definition getItemAges (item : TimelineItem) : DerivedAges :=
  match itemAges !! item_id item with
  | Some ages => ages
  | None => {| start_age := nullish (item_start_age item) 0%Q;
               end_age := item_end_age item |}
  end.

Definition categoryMap : gmap Z Category :=
  fold_left (fun m cat => <[cat_id cat := cat]> m) (categories p) ∅.

Definition getCategory (item : TimelineItem) : option Category :=
  match item_category item with
  | Some c => Some c
  | None => categoryMap !! item_category_id item
  end.

(** [Math.min(minAge, a)] from the initial [Infinity], which is [None]. *)
Definition scan_min (acc : option Q) (a : Q) : option Q :=
  Some (match acc with
        | None => a
        | Some m => Qmin m a
        end).

(** [Math.max(maxAge, a)] from the initial [-Infinity], which is [None]. *)
Definition scan_max (acc : option Q) (a : Q) : option Q :=
  Some (match acc with
        | None => a
        | Some m => Qmax m a
        end).

(** The minimum start and the maximum end (or start) of the items. *)
Definition scanAges : option Q * option Q :=
  fold_left
    (fun acc item =>
       let ages := deriveItemAges newDate item (dateOfBirth p) (ageRange p) in
       let itemEndAge := nullish (end_age ages) (start_age ages) in
       (scan_min (fst acc) (start_age ages), scan_max (snd acc) itemEndAge))
    (items p) (None, None).

(** The window of [calculateDisplayRange] without items to fit. *)
Definition emptyDisplayRange : DisplayRange :=
  match viewMode p with
  | view_future =>
      let futureRange := Qmin (ageRange p - currentAge p) 40 in
      {| startAge := currentAge p; displayRange := Qmax futureRange 20 |}
  | view_past =>
      {| startAge := 0; displayRange := Qmax (currentAge p) 20 |}
  | view_all =>
      {| startAge := 0; displayRange := Qmin (ageRange p) 40 |}
  end.

(** The last block of [calculateDisplayRange]: the window must not
    exceed the configured age range. *)
Definition capDisplayRange (finalStart finalRange : Q) : DisplayRange :=
  let maxEndAge := (finalStart + finalRange)%Q in
  if Qgtb maxEndAge (ageRange p) then
    let maxAllowedRange := (ageRange p - finalStart)%Q in
    let cappedRange := Qmin finalRange maxAllowedRange in
    match viewMode p with
    | view_future =>
        {| startAge := Qmax (currentAge p) (ageRange p - cappedRange);
           displayRange := cappedRange |}
    | view_past =>
        {| startAge := Qmax 0 (currentAge p - cappedRange);
           displayRange := cappedRange |}
    | view_all =>
        {| startAge := Qmax 0 (ageRange p - cappedRange);
           displayRange := cappedRange |}
    end
  else {| startAge := finalStart; displayRange := finalRange |}.

(** The part of [calculateDisplayRange] after the scan of the items:
    padding, the floor of 20 years and the clamps of the view mode,
    followed by the cap at the age range. *)
Definition fitDisplayRange (minAge maxAge : Q) : DisplayRange :=
  let itemSpan := (maxAge - minAge)%Q in
  let padding :=
    if Qgtb itemSpan 0 then Qmax (itemSpan * (1 # 10)) 5 else 5%Q in
  let calculatedStart0 := Qmax 0 (inject_Z (Qfloor (minAge - padding))) in
  let calculatedEnd := inject_Z (Qceiling (maxAge + padding)) in
  let calculatedStart1 :=
    if is_future (viewMode p) && Qltb calculatedStart0 (currentAge p)
    then currentAge p else calculatedStart0 in
  let calculatedStart :=
    if is_past (viewMode p) && Qgtb calculatedEnd (currentAge p) then
      let pastRange := (currentAge p - calculatedStart1)%Q in
      if Qltb pastRange 20 then Qmax 0 (currentAge p - 20)
      else calculatedStart1
    else calculatedStart1 in
  let calculatedRange := (calculatedEnd - calculatedStart)%Q in
  let finalRange0 := Qmax calculatedRange 20 in
  let finalStart0 := Qmax 0 calculatedStart in
  let finalStart :=
    if is_future (viewMode p) then Qmax finalStart0 (currentAge p)
    else finalStart0 in
  let finalEnd := (finalStart + finalRange0)%Q in
  let finalRange :=
    if is_past (viewMode p) && Qgtb finalEnd (currentAge p)
    then (currentAge p - finalStart)%Q else finalRange0 in
  capDisplayRange finalStart finalRange.

Definition calculateDisplayRange : DisplayRange :=
  if negb (autoScale p) then
    {| startAge := 0; displayRange := ageRange p |}
  else
    match items p with
    | [] => emptyDisplayRange
    | _ :: _ =>
        match scanAges with
        | (Some minAge, Some maxAge) => fitDisplayRange minAge maxAge
        | _ =>
            match viewMode p with
            | view_future =>
                let futureRange := Qmin (ageRange p - currentAge p) 40 in
                {| startAge := currentAge p;
                   displayRange := Qmax futureRange 20 |}
            | _ => {| startAge := 0; displayRange := Qmin (ageRange p) 40 |}
            end
        end
    end.

Definition AGE_RANGE : Q := displayRange calculateDisplayRange.
Definition START_AGE : Q := startAge calculateDisplayRange.

Definition ageToX (age : Q) : Q :=
  if Qeqb AGE_RANGE 0 then 0%Q
  else
    let normalizedAge := (age - START_AGE)%Q in
    ((normalizedAge / AGE_RANGE) * TIMELINE_WIDTH)%Q.

(** [text.length] as a number. *)
Definition text_length (text : string) : Q := Qnat (String.length text).

Definition calculatePointItemWidth (text : string) : Q :=
  let zoomLevel := zoom p in
  let baseSize := (11 * zoomLevel)%Q in
  let padding := (4 * zoomLevel)%Q in
  let charWidth := (baseSize * (6 # 10))%Q in
  let widthAtBase := (text_length text * charWidth + padding)%Q in
  Qmax (50 * zoomLevel) widthAtBase.

(** The width the pre-calculation loop stores for one item. *)
Definition itemWidth (item : TimelineItem) : number :=
  let ages := getItemAges item in
  let startX := ageToX (start_age ages) in
  match end_age ages with
  | Some effectiveEndAge =>
      let oneYearWidth := num_div TIMELINE_WIDTH AGE_RANGE in
      let endX := ageToX effectiveEndAge in
      num_max (Fin (endX - startX)) oneYearWidth
  | None => Fin (calculatePointItemWidth (item_title item))
  end.

Definition itemWidths : gmap Z number :=
  fold_left (fun m item => <[item_id item := itemWidth item]> m) (items p) ∅.

(** [itemWidths.get(id) || 60]. *)
Definition widthOr60 (id : Z) : number :=
  match itemWidths !! id with
  | Some w => num_or w (Fin 60)
  | None => Fin 60
  end.

Definition itemsOverlap (item1 item2 : TimelineItem) : bool :=
  let ages1 := getItemAges item1 in
  let ages2 := getItemAges item2 in
  let item1EndAge := end_age ages1 in
  let item2EndAge := end_age ages2 in
  match item1EndAge, item2EndAge with
  | None, None =>
      let item1X := Fin (ageToX (start_age ages1)) in
      let item2X := Fin (ageToX (start_age ages2)) in
      let item1Width := widthOr60 (item_id item1) in
      let item2Width := widthOr60 (item_id item2) in
      let item1Left := num_sub item1X (num_half item1Width) in
      let item1Right := num_add item1X (num_half item1Width) in
      let item2Left := num_sub item2X (num_half item2Width) in
      let item2Right := num_add item2X (num_half item2Width) in
      num_gtb item1Right item2Left && num_gtb item2Right item1Left
  | _, _ =>
      let item1End := nullish item1EndAge (start_age ages1) in
      let item2End := nullish item2EndAge (start_age ages2) in
      Qgtb item1End (start_age ages2) && Qgtb item2End (start_age ages1)
  end.

(** The comparator of the sort in [assignStackPositions]: by start age,
    then by end age with milestones ([Infinity]) last. *)
Definition compareItems (a b : TimelineItem) : comparison :=
  let agesA := getItemAges a in
  let agesB := getItemAges b in
  if negb (Qeqb (start_age agesA) (start_age agesB)) then
    (start_age agesA ?= start_age agesB)%Q
  else
    match end_age agesA, end_age agesB with
    | Some aEnd, Some bEnd => (aEnd ?= bEnd)%Q
    | Some _, None => Lt
    | None, Some _ => Gt
    | None, None => Eq
    end.

(** The scan of the lanes for one item: the index of the first lane
    none of whose members overlaps it. *)
Fixpoint findStack (item : TimelineItem) (stacks : list (list TimelineItem))
  (i : nat) : option nat :=
  match stacks with
  | [] => None
  | stack :: rest =>
      if forallb (fun stackItem => negb (itemsOverlap item stackItem)) stack
      then Some i
      else findStack item rest (S i)
  end.

(** One turn of the loop over the sorted items. *)
Definition placeItem (st : gmap Z nat * list (list TimelineItem))
  (item : TimelineItem) : gmap Z nat * list (list TimelineItem) :=
  let (stackMap, stacks) := st in
  match findStack item stacks 0 with
  | Some i =>
      (<[item_id item := i]> stackMap,
       alter (fun stack => stack ++ [item]) i stacks)
  | None =>
      (<[item_id item := length stacks]> stackMap, stacks ++ [[item]])
  end.

(** The loop of [assignStackPositions]: the stack map and the lanes. *)
Definition assignStacks (categoryItems : list TimelineItem)
  : gmap Z nat * list (list TimelineItem) :=
  let sortedItems := sort compareItems categoryItems in
  fold_left placeItem sortedItems (∅, []).

Definition assignStackPositions (categoryItems : list TimelineItem)
  : gmap Z nat :=
  fst (assignStacks categoryItems).

(** The items of one category, as the loop over the categories selects
    them. *)
Definition categoryItemsOf (category : Category) : list TimelineItem :=
  List.filter
    (fun item =>
       match getCategory item with
       | Some itemCategory => Z.eqb (cat_id itemCategory) (cat_id category)
       | None => false
       end)
    (items p).

Definition categoryMaxStacks : gmap Z nat :=
  fold_left
    (fun m category =>
       let positions := assignStackPositions (categoryItemsOf category) in
       <[cat_id category := maxStackOf positions]> m)
    (categories p) ∅.

(** The horizontal part of [renderItem]: [None] when the item has no
    category, else the shape drawn for it. *)
Definition renderItem (item : TimelineItem) : option ItemShape :=
  match getCategory item with
  | None => None
  | Some _ =>
      let ages := getItemAges item in
      let startX := ageToX (start_age ages) in
      let width := widthOr60 (item_id item) in
      match end_age ages with
      | None => Some (Box (num_sub (Fin startX) (num_half width)) width)
      | Some effectiveEndAge =>
          let currentAgeX := ageToX (currentAge p) in
          let endX := ageToX effectiveEndAge in
          let clipped :=
            if is_past (viewMode p) && Qgtb effectiveEndAge (currentAge p)
            then (startX, num_max (Fin 0) (Fin (currentAgeX - startX)))
            else if is_future (viewMode p)
                    && Qltb (start_age ages) (currentAge p)
            then (currentAgeX, num_max (Fin 0) (Fin (endX - currentAgeX)))
            else (startX, width) in
          if num_gtb (snd clipped) (Fin 0)
          then Some (Bar (Fin (fst clipped)) (snd clipped))
          else Some NoShape
      end
  end.

(** The item layer of the drawing. *)
Definition renderedItems : list ItemShape :=
  omap renderItem (items p).

End Timeline.

(* ================================================================== *)
(** * The category manager ([CategoryManager.tsx]) *)
(* ================================================================== *)

Module CategoryManager.

Record FormData : Type := {
  form_name : string;
  form_label : string;
  form_section : SectionName;
  form_display_order : Z;
  form_color : TimelineItemColor
}.

(** The state of the component that the handlers read and write; the
    error messages, which are only displayed, are left out. *)
Record State : Type := {
  categories : list Category;
  nextCategoryId : Z;
  editingCategory : option Category;
  showForm : bool;
  formData : FormData
}.

Definition section_eqb (a b : SectionName) : bool :=
  match a, b with
  | top, top | bottom, bottom => true
  | _, _ => false
  end.

(** [categories.filter(c => c.section === s)]. *)
Definition inSection (s : SectionName) (cats : list Category)
  : list Category :=
  List.filter (fun c => section_eqb (cat_section c) s) cats.

(** [{ ...cat, ...formData }]. *)
Definition applyForm (cat : Category) (f : FormData) : Category :=
  {| cat_id := cat_id cat;
     cat_name := form_name f;
     cat_label := form_label f;
     cat_section := form_section f;
     cat_display_order := form_display_order f;
     cat_color := form_color f |}.

(** [{ ...cat, display_order: index }]. *)
Definition withDisplayOrder (cat : Category) (index : Z) : Category :=
  {| cat_id := cat_id cat;
     cat_name := cat_name cat;
     cat_label := cat_label cat;
     cat_section := cat_section cat;
     cat_display_order := index;
     cat_color := cat_color cat |}.

(** White space that [trim] removes, among the characters of a byte
    string. *)
Definition is_space (c : ascii) : bool :=
  let n := nat_of_ascii c in
  (Nat.eqb n 32 || (Nat.leb 9 n && Nat.leb n 13))%bool.

(** [!s.trim()]. *)
Definition blank (s : string) : bool :=
  forallb is_space (list_ascii_of_string s).

(** One character of the class [[a-z0-9_]]. *)
Definition is_name_char (c : ascii) : bool :=
  let n := nat_of_ascii c in
  ((Nat.leb 97 n && Nat.leb n 122) || (Nat.leb 48 n && Nat.leb n 57)
   || Nat.eqb n 95)%bool.

(** [/^[a-z0-9_]+$/.test(s)]. *)
Definition valid_name (s : string) : bool :=
  (negb (String.eqb s EmptyString)
   && forallb is_name_char (list_ascii_of_string s))%bool.

Definition handleCreate (st : State) : State :=
  {| categories := categories st;
     nextCategoryId := nextCategoryId st;
     editingCategory := None;
     showForm := true;
     formData :=
       {| form_name := EmptyString;
          form_label := EmptyString;
          form_section := top;
          form_display_order :=
            Z.of_nat (length (inSection top (categories st)));
          form_color := blue |} |}.

Definition handleEdit (category : Category) (st : State) : State :=
  {| categories := categories st;
     nextCategoryId := nextCategoryId st;
     editingCategory := Some category;
     showForm := true;
     formData :=
       {| form_name := cat_name category;
          form_label := cat_label category;
          form_section := cat_section category;
          form_display_order := cat_display_order category;
          form_color := cat_color category |} |}.

Definition setFormData (f : FormData) (st : State) : State :=
  {| categories := categories st;
     nextCategoryId := nextCategoryId st;
     editingCategory := editingCategory st;
     showForm := showForm st;
     formData := f |}.

(** The change handler of the section selector. *)
Definition changeSection (newSection : SectionName) (st : State) : State :=
  let newDisplayOrder :=
    Z.of_nat (length (inSection newSection (categories st))) in
  setFormData
    {| form_name := form_name (formData st);
       form_label := form_label (formData st);
       form_section := newSection;
       form_display_order := newDisplayOrder;
       form_color := form_color (formData st) |} st.

(** The change handler of the display-order input, on the integer
    [parseInt(e.target.value) || 0]. *)
Definition changeDisplayOrder (value : Z) (st : State) : State :=
  let maxDisplayOrder :=
    Z.of_nat
      (length (inSection (form_section (formData st)) (categories st))) in
  let clampedValue := Z.max 0 (Z.min maxDisplayOrder value) in
  setFormData
    {| form_name := form_name (formData st);
       form_label := form_label (formData st);
       form_section := form_section (formData st);
       form_display_order := clampedValue;
       form_color := form_color (formData st) |} st.

Definition validateForm (st : State) : bool :=
  let f := formData st in
  let labelError := blank (form_label f) in
  let nameError :=
    if blank (form_name f) then true
    else if negb (valid_name (form_name f)) then true
    else
      existsb
        (fun cat =>
           String.eqb (cat_name cat) (form_name f)
           && match editingCategory st with
              | None => true
              | Some e => negb (Z.eqb (cat_id cat) (cat_id e))
              end)%bool
        (categories st) in
  let maxDisplayOrder :=
    Z.of_nat (length (inSection (form_section f) (categories st))) in
  let orderError :=
    ((form_display_order f <? 0)
     || (form_display_order f >? maxDisplayOrder))%bool in
  negb (labelError || nameError || orderError).

(** The comparator of both handlers: by display order, then by id. *)
Definition compareOrderThenId (a b : Category) : comparison :=
  if negb (Z.eqb (cat_display_order a) (cat_display_order b))
  then Z.compare (cat_display_order a) (cat_display_order b)
  else Z.compare (cat_id a) (cat_id b).

(** [l.findIndex(f)], [None] for [-1]. *)
Fixpoint findIndex {A : Type} (f : A -> bool) (l : list A) : option nat :=
  match l with
  | [] => None
  | x :: l' => if f x then Some O else S <$> findIndex f l'
  end.

(** [l.splice(pos, 0, x)] for a position that is not negative. *)
Definition splice_in {A : Type} (pos : Z) (x : A) (l : list A) : list A :=
  take (Z.to_nat pos) l ++ x :: drop (Z.to_nat pos) l.

(** The loop that writes into [updatedCategories] the index each
    category has in [ordered]. *)
Definition reassignOrders (ordered updatedCategories : list Category)
  : list Category :=
  fst
    (fold_left
       (fun acc cat =>
          let (updated, index) := acc : list Category * Z in
          (match findIndex (fun c => Z.eqb (cat_id c) (cat_id cat)) updated
           with
           | Some categoryIndex =>
               alter (fun c => withDisplayOrder c index) categoryIndex updated
           | None => updated
           end, index + 1))
       ordered (updatedCategories, 0)).

(** [new Set(l).size]. *)
Definition distinct_count (l : list Z) : nat := length (remove_dups l).

Definition handleSave (st : State) : State :=
  if negb (validateForm st) then st
  else
    let f := formData st in
    let updated_new_next :=
      match editingCategory st with
      | Some e =>
          (map (fun cat =>
                  if Z.eqb (cat_id cat) (cat_id e) then applyForm cat f
                  else cat)
               (categories st),
           None, nextCategoryId st)
      | None =>
          let newCategory :=
            {| cat_id := nextCategoryId st;
               cat_name := form_name f;
               cat_label := form_label f;
               cat_section := form_section f;
               cat_display_order := form_display_order f;
               cat_color := form_color f |} in
          (categories st ++ [newCategory], Some newCategory,
           succDouble (nextCategoryId st))
      end in
    let updatedCategories := fst (fst updated_new_next) in
    let newCategory := snd (fst updated_new_next) in
    let sectionCategories := inSection (form_section f) updatedCategories in
    let maxDisplayOrder :=
      Z.of_nat (length (inSection (form_section f) (categories st))) in
    let hasDuplicates :=
      negb (Nat.eqb (length sectionCategories)
              (distinct_count (map cat_display_order sectionCategories))) in
    let isInsertingInMiddle := form_display_order f <? maxDisplayOrder in
    let reordered :=
      if (isInsertingInMiddle || hasDuplicates)%bool then
        let targetCategory :=
          match editingCategory st with
          | Some e =>
              List.find (fun c => Z.eqb (cat_id c) (cat_id e))
                updatedCategories
          | None => newCategory
          end in
        match targetCategory with
        | Some target =>
            let otherCategories :=
              sort compareOrderThenId
                (List.filter
                   (fun c => negb (Z.eqb (cat_id c) (cat_id target)))
                   sectionCategories) in
            let insertPosition := form_display_order f in
            reassignOrders (splice_in insertPosition target otherCategories)
              updatedCategories
        | None => updatedCategories
        end
      else updatedCategories in
    {| categories := reordered;
       nextCategoryId := snd updated_new_next;
       editingCategory := None;
       showForm := false;
       formData := f |}.

(** [handleDelete(id)]; [confirmed] is the answer to the confirmation
    dialog. *)
Definition handleDelete (id : Z) (confirmed : bool) (st : State) : State :=
  if negb confirmed then st
  else
    match List.find (fun cat => Z.eqb (cat_id cat) id) (categories st) with
    | None => st
    | Some categoryToDelete =>
        let updatedCategories :=
          List.filter (fun cat => negb (Z.eqb (cat_id cat) id))
            (categories st) in
        let sectionCategories :=
          sort compareOrderThenId
            (inSection (cat_section categoryToDelete) updatedCategories) in
        {| categories := reassignOrders sectionCategories updatedCategories;
           nextCategoryId := nextCategoryId st;
           editingCategory := editingCategory st;
           showForm := showForm st;
           formData := formData st |}
    end.

(** The display orders of the categories of one section. *)
Definition sectionOrders (s : SectionName) (cats : list Category) : list Z :=
  map cat_display_order (inSection s cats).

(** Density: the display orders of a section are [0 .. count-1], each
    once. *)
Definition dense (s : SectionName) (cats : list Category) : Prop :=
  sectionOrders s cats
  ≡ₚ map Z.of_nat (seq 0 (length (inSection s cats))).

End CategoryManager.

(* ================================================================== *)
(** * Vertical layout of the timeline ([Timeline.tsx]) *)
(* ================================================================== *)

Definition ROW_HEIGHT : Q := 35.
Definition AGE_MARKER_HEIGHT : Q := 30.
Definition SECTION_SPACING : Q := 10.
Definition ITEM_HEIGHT : Q := 24.
Definition ITEM_SPACING : Q := 3.

(** The categories of one section, in the order of [display_order]. *)
Definition sortedSection (s : SectionName) (cats : list Category)
  : list Category :=
  sort (fun a b => Z.compare (cat_display_order a) (cat_display_order b))
    (List.filter
       (fun c => match cat_section c, s with
                 | top, top | bottom, bottom => true
                 | _, _ => false
                 end)
       cats).

(** The record that gives each category of a sorted section its row. *)
Definition rowsOf (cats : list Category) : gmap Z nat :=
  fst (fold_left
         (fun acc cat =>
            (<[cat_id cat := snd acc]> (fst acc), S (snd acc)))
         cats (∅, 0%nat)).

Record CategoryRows : Type := {
  topCategories : list Category;
  bottomCategories : list Category;
  topRows : gmap Z nat;
  bottomRows : gmap Z nat
}.

Definition getCategoryRows (cats : list Category) : CategoryRows :=
  let topCategories := sortedSection top cats in
  let bottomCategories := sortedSection bottom cats in
  {| topCategories := topCategories;
     bottomCategories := bottomCategories;
     topRows := rowsOf topCategories;
     bottomRows := rowsOf bottomCategories |}.

(** [getCategoryRowHeight]; the optional map of heights is an [option]. *)
Definition getCategoryRowHeight (categoryId : Z)
  (categoryMaxStacks : gmap Z nat) (categoryMaxHeights : option (gmap Z Q))
  : Q :=
  match categoryMaxHeights ≫= (fun heights => heights !! categoryId) with
  | Some height => height
  | None =>
      let maxStack :=
        match categoryMaxStacks !! categoryId with
        | Some n => if Nat.eqb n 0 then 1%nat else n
        | None => 1%nat
        end in
      Qmax ROW_HEIGHT
        (Qnat maxStack * (ITEM_HEIGHT + ITEM_SPACING) + ITEM_SPACING * 2)
  end.

(** The heights of the first rows of a section, added up by the loops of
    [getTopSectionY], [getAgeBarY] and [getBottomSectionY]. *)
Definition addRowHeights (categoryMaxStacks : gmap Z nat)
  (categoryMaxHeights : option (gmap Z Q)) (cats : list Category)
  (row : nat) (yOffset : Q) : Q :=
  fold_left
    (fun y i =>
       match cats !! i with
       | Some cat =>
           (y + getCategoryRowHeight (cat_id cat) categoryMaxStacks
                  categoryMaxHeights)%Q
       | None => y
       end)
    (seq 0 row) yOffset.

Definition getTopSectionY (row : nat) (categoryId : Z)
  (categoryMaxStacks : gmap Z nat) (categoryMaxHeights : option (gmap Z Q))
  (topCategories : option (list Category)) : Q :=
  match topCategories with
  | None => 0%Q
  | Some cats =>
      let yOffset :=
        addRowHeights categoryMaxStacks categoryMaxHeights cats row 0 in
      let currentRowHeight :=
        getCategoryRowHeight categoryId categoryMaxStacks
          categoryMaxHeights in
      (yOffset + currentRowHeight / 2)%Q
  end.

Definition getAgeBarY (categoryMaxStacks : gmap Z nat)
  (categoryMaxHeights : option (gmap Z Q))
  (topCategories : option (list Category)) : Q :=
  match topCategories with
  | None => SECTION_SPACING
  | Some cats =>
      let totalHeight :=
        fold_left
          (fun y cat =>
             (y + getCategoryRowHeight (cat_id cat) categoryMaxStacks
                    categoryMaxHeights)%Q)
          cats 0%Q in
      (totalHeight + SECTION_SPACING)%Q
  end.

Definition getBottomSectionY (row : nat) (categoryId : Z)
  (categoryMaxStacks : gmap Z nat) (ageBarY : Q)
  (categoryMaxHeights : option (gmap Z Q))
  (bottomCategories : option (list Category)) : Q :=
  match bottomCategories with
  | None => (ageBarY + AGE_MARKER_HEIGHT + SECTION_SPACING)%Q
  | Some cats =>
      let yOffset :=
        addRowHeights categoryMaxStacks categoryMaxHeights cats row
          (ageBarY + AGE_MARKER_HEIGHT + SECTION_SPACING)%Q in
      let currentRowHeight :=
        getCategoryRowHeight categoryId categoryMaxStacks
          categoryMaxHeights in
      (yOffset + currentRowHeight / 2)%Q
  end.

(* ================================================================== *)
(** * The item form ([components/ItemForm.tsx]) *)
(* ================================================================== *)

Module ItemForm.

(** The state of the form that [handleSubmit] reads. *)
Record Fields : Type := {
  title : string;
  description : string;
  inputMode : InputMode;
  startAge : string;
  endAge : string;
  startDate : string;
  endDate : string;
  color : TimelineItemColor;
  isMaxChecked : bool
}.

(** The object [handleSubmit] hands to [onSave]: it sets every one of
    these keys, some of them to [undefined]. *)
Record ItemData : Type := {
  data_category_id : Z;
  data_title : string;
  data_description : option string;
  data_color : TimelineItemColor;
  data_input_mode : InputMode;
  data_start_date : option string;
  data_end_date : option string;
  data_start_age : option Q;
  data_end_age : option Q;
  data_use_max_age : bool
}.

(** Which keys of [validationErrors] are set. *)
Record Errors : Type := {
  err_title : bool;
  err_startAge : bool;
  err_endAge : bool;
  err_startDate : bool;
  err_endDate : bool
}.

Fixpoint trimStart (l : list ascii) : list ascii :=
  match l with
  | [] => []
  | c :: l' => if CategoryManager.is_space c then trimStart l' else l
  end.

(** [s.trim()]. *)
Definition trim (s : string) : string :=
  string_of_list_ascii
    (rev (trimStart (rev (trimStart (list_ascii_of_string s))))).

(** [isNaN(d.getTime())]. *)
Definition isInvalid (d : Date) : bool :=
  match d with
  | InvalidDate => true
  | YMD _ _ _ => false
  end.

(** [s || undefined]. *)
Definition nonEmpty (s : string) : option string :=
  if String.eqb s EmptyString then None else Some s.

Section Form.

(** [Number(value)]. *)
Variable Number : string -> number.
Variable newDate : string -> Date.
(** [new Date(a) < new Date(b)]. *)
Variable dateBefore : string -> string -> bool.
Variable maxAge : Q.

Definition validateAge (value : string) : option Q :=
  if CategoryManager.blank value then None
  else
    match Number value with
    | Fin num =>
        if (Qltb num 0 || Qgtb num maxAge)%bool then None else Some num
    | _ => None
    end.

Definition validationErrors (f : Fields) : Errors :=
  let titleError := CategoryManager.blank (title f) in
  match inputMode f with
  | date_mode =>
      {| err_title := titleError;
         err_startAge := false;
         err_endAge := false;
         err_startDate :=
           if CategoryManager.blank (startDate f) then true
           else isInvalid (newDate (startDate f));
         err_endDate :=
           if negb (CategoryManager.blank (endDate f)) then
             if isInvalid (newDate (endDate f)) then true
             else if negb (CategoryManager.blank (startDate f)) then
               negb (isInvalid (newDate (startDate f)))
               && dateBefore (endDate f) (startDate f)
             else false
           else false |}
  | age_mode =>
      {| err_title := titleError;
         err_startAge :=
           if CategoryManager.blank (startAge f) then true
           else
             match validateAge (startAge f) with
             | None => true
             | Some _ => false
             end;
         err_endAge :=
           if negb (CategoryManager.blank (endAge f)) then
             match validateAge (endAge f) with
             | None => true
             | Some endAgeNum =>
                 match validateAge (startAge f) with
                 | Some startAgeNum => Qltb endAgeNum startAgeNum
                 | None => false
                 end
             end
           else false;
         err_startDate := false;
         err_endDate := false |}
  end.

(** [Object.keys(validationErrors).length > 0]. *)
Definition hasErrors (e : Errors) : bool :=
  err_title e || err_startAge e || err_endAge e || err_startDate e
  || err_endDate e.

(** A number as it is stored in an item; [Number(startAge)] is finite
    where [handleSubmit] stores it, as the validation has passed. *)
Definition stored (n : number) : option Q :=
  match n with
  | Fin q => Some q
  | _ => None
  end.

(** [handleSubmit]: [None] when the errors are shown and nothing is
    saved, else the argument of [onSave]. *)
Definition handleSubmit (category : Category) (f : Fields)
  : option ItemData :=
  if hasErrors (validationErrors f) then None
  else
    Some
      match inputMode f with
      | date_mode =>
          {| data_category_id := cat_id category;
             data_title := title f;
             data_description := nonEmpty (description f);
             data_color := color f;
             data_input_mode := inputMode f;
             data_start_date := Some (startDate f);
             data_end_date :=
               if isMaxChecked f then None else nonEmpty (trim (endDate f));
             data_start_age := None;
             data_end_age := None;
             data_use_max_age := isMaxChecked f |}
      | age_mode =>
          {| data_category_id := cat_id category;
             data_title := title f;
             data_description := nonEmpty (description f);
             data_color := color f;
             data_input_mode := inputMode f;
             data_start_date := None;
             data_end_date := None;
             data_start_age := stored (Number (startAge f));
             data_end_age :=
               if isMaxChecked f then None
               else if negb (CategoryManager.blank (endAge f))
                    then stored (Number (endAge f))
                    else None;
             data_use_max_age := isMaxChecked f |}
      end.

End Form.

End ItemForm.

(* ================================================================== *)
(** * The life map view ([LifeMapView.tsx]) *)
(* ================================================================== *)

(** [x <= y] on finite numbers. *)
Definition Qleb (x y : Q) : bool := negb (Qltb y x).

Module LifeMapView.

Section View.

Variable newDate : string -> Date.

(** The filter applied to the items before they reach the timeline; the
    view has its own copy of [deriveItemAges], the same as the
    timeline's. *)
Definition visibleInView (viewMode : ViewMode) (currentAge ageRange : Q)
  (dateOfBirth : string) (item : TimelineItem) : bool :=
  match viewMode with
  | view_all => true
  | view_past =>
      let ages := deriveItemAges newDate item dateOfBirth ageRange in
      if Qltb (start_age ages) currentAge then
        match end_age ages with
        | Some effectiveEndAge => Qleb effectiveEndAge ageRange
        | None => Qleb (start_age ages) ageRange
        end
      else false
  | view_future =>
      let ages := deriveItemAges newDate item dateOfBirth ageRange in
      let maxAge := ageRange in
      match end_age ages with
      | Some effectiveEndAge =>
          Qgtb effectiveEndAge currentAge && Qleb effectiveEndAge maxAge
      | None =>
          Qgtb (start_age ages) currentAge && Qleb (start_age ages) maxAge
      end
  end.

(** The properties the view hands to the timeline. *)
Definition timelineProps (items : list TimelineItem)
  (categories : list Category) (currentAge ageRange : Q)
  (dateOfBirth : string) (viewMode : ViewMode) (timelineWidth zoom : Q)
  : TimelineProps :=
  {| items :=
       List.filter
         (visibleInView viewMode currentAge ageRange dateOfBirth) items;
     categories := categories;
     currentAge := currentAge;
     ageRange := ageRange;
     dateOfBirth := dateOfBirth;
     autoScale := match viewMode with view_all => false | _ => true end;
     viewMode := viewMode;
     width := timelineWidth;
     zoom := zoom |}.

End View.

(** [{ ...item, category }]. *)
Definition withCategory (item : TimelineItem) (category : option Category)
  : TimelineItem :=
  {| item_id := item_id item;
     item_category_id := item_category_id item;
     item_category := category;
     item_title := item_title item;
     item_description := item_description item;
     item_start_age := item_start_age item;
     item_end_age := item_end_age item;
     item_use_max_age := item_use_max_age item;
     item_input_mode := item_input_mode item;
     item_start_date := item_start_date item;
     item_end_date := item_end_date item;
     item_color := item_color item |}.

(** What [handleCategoriesChange] does to the items. *)
Definition handleCategoriesChange (updatedCategories : list Category)
  (items : list TimelineItem) : list TimelineItem :=
  map (fun item =>
         withCategory item
           (List.find
              (fun c => Z.eqb (cat_id c) (item_category_id item))
              updatedCategories))
    items.

(** [handleDeleteItem]; [confirmed] is the answer to the dialog. *)
Definition handleDeleteItem (itemId : Z) (confirmed : bool)
  (items : list TimelineItem) : list TimelineItem :=
  if negb confirmed then items
  else List.filter (fun item => negb (Z.eqb (item_id item) itemId)) items.

(** [Math.max(0, ...ids) + 1], the next identifier after a load. *)
Definition nextIdAfter (ids : list Z) : Z :=
  succDouble (fold_right Z.max 0 ids).

(** The state [handleSaveItem] reads and writes. *)
Record ItemsState : Type := {
  lifeMapLoaded : bool;
  stateItems : list TimelineItem;
  nextItemId : Z;
  editingItem : option TimelineItem;
  selectedCategory : option Category;
  showItemForm : bool
}.

(** [a || b] on optional categories. *)
Definition orCategory (a b : option Category) : option Category :=
  match a with
  | Some c => Some c
  | None => b
  end.

(** The item that carries the keys of [itemData], with the given
    identifier, category identifier and category. *)
Definition itemOfData (d : ItemForm.ItemData) (id categoryId : Z)
  (category : option Category) : TimelineItem :=
  {| item_id := id;
     item_category_id := categoryId;
     item_category := category;
     item_title := ItemForm.data_title d;
     item_description := ItemForm.data_description d;
     item_start_age := ItemForm.data_start_age d;
     item_end_age := ItemForm.data_end_age d;
     item_use_max_age := Some (ItemForm.data_use_max_age d);
     item_input_mode := Some (ItemForm.data_input_mode d);
     item_start_date := ItemForm.data_start_date d;
     item_end_date := ItemForm.data_end_date d;
     item_color := ItemForm.data_color d |}.

(** [handleSaveItem], for the objects the item form passes to it. *)
Definition handleSaveItem (categories : list Category)
  (itemData : ItemForm.ItemData) (st : ItemsState) : ItemsState :=
  if negb (lifeMapLoaded st) then st
  else if CategoryManager.blank (ItemForm.data_title itemData) then st
  else if match ItemForm.data_input_mode itemData with
          | date_mode => negb (truthy_string (ItemForm.data_start_date itemData))
          | age_mode =>
              match ItemForm.data_start_age itemData with
              | None => true
              | Some _ => false
              end
          end
  then st
  else
    match editingItem st with
    | Some editing =>
        let wanted :=
          if Z.eqb (ItemForm.data_category_id itemData) 0
          then item_category_id editing
          else ItemForm.data_category_id itemData in
        let category :=
          orCategory
            (List.find (fun c => Z.eqb (cat_id c) wanted) categories)
            (item_category editing) in
        let updatedItems :=
          map (fun item =>
                 if Z.eqb (item_id item) (item_id editing)
                 then itemOfData itemData (item_id editing)
                        (ItemForm.data_category_id itemData)
                        (orCategory category (item_category item))
                 else item)
            (stateItems st) in
        {| lifeMapLoaded := lifeMapLoaded st;
           stateItems := updatedItems;
           nextItemId := nextItemId st;
           editingItem := None;
           selectedCategory := None;
           showItemForm := false |}
    | None =>
        match selectedCategory st with
        | None => st
        | Some selected =>
            let category :=
              nullish
                (List.find (fun c => Z.eqb (cat_id c) (cat_id selected))
                   categories)
                selected in
            let newItem :=
              itemOfData itemData (nextItemId st) (cat_id category)
                (Some category) in
            {| lifeMapLoaded := lifeMapLoaded st;
               stateItems := stateItems st ++ [newItem];
               nextItemId := succDouble (nextItemId st);
               editingItem := None;
               selectedCategory := None;
               showItemForm := false |}
        end
    end.

End LifeMapView.

(* ================================================================== *)
(** * The age bar of the timeline ([Timeline.tsx]) *)
(* ================================================================== *)

Section AgeBar.

Variable newDate : string -> Date.
Variable p : TimelineProps.

(** The loop of [renderAgeMarkers] from [age] on: the ages for which a
    box is pushed.  [fuel] bounds the number of tests of the loop
    condition. *)
Fixpoint markerLoop (fuel : nat) (age : Q) : list Q :=
  match fuel with
  | O => []
  | S fuel' =>
      if Qleb age (START_AGE newDate p + AGE_RANGE newDate p)
      then age :: markerLoop fuel' (age + 1)
      else []
  end.

(** The ages of the markers, from [START_AGE] on. *)
Definition markerAges : list Q :=
  markerLoop (S (S (Z.to_nat (Qfloor (AGE_RANGE newDate p)))))
    (START_AGE newDate p).

(** The rectangle of the year [age]: its left edge and its width. *)
Definition markerBox (age : Q) : number * number :=
  let yearWidth := num_div (TIMELINE_WIDTH p) (AGE_RANGE newDate p) in
  let x := ageToX newDate p age in
  let boxWidth := yearWidth in
  (num_sub (Fin x) (num_half boxWidth), boxWidth).

Definition renderAgeMarkers : list (number * number) :=
  map markerBox markerAges.

End AgeBar.

(* ================================================================== *)
(** * Recent files ([utils/recentFiles.ts]) *)
(* ================================================================== *)

Module RecentFiles.

(** A value that [JSON.parse] returns. *)
#[warnings="-register-all"] Inductive json : Type :=
| JNull
| JBool (b : bool)
| JNumber (n : Q)
| JString (s : string)
| JArray (elements : list json)
| JObject (properties : list (string * json)).

Record RecentFile : Type := {
  path : string;
  title : string;
  lastAccessed : Z
}.

Definition MAX_RECENT_FILES : nat := 10.

(** The item of local storage under the storage key, by the value its
    text encodes: [None] when there is no item, when its text is empty
    and when [JSON.parse] rejects its text, which are the cases in which
    [get] returns the empty array. *)
Definition Storage : Type := option json.

(** The property [key] of a parsed object; of a key that the text
    repeats the last value counts. *)
Fixpoint property (key : string) (properties : list (string * json))
  : option json :=
  match properties with
  | [] => None
  | (k, v) :: rest =>
      match property key rest with
      | Some later => Some later
      | None => if String.eqb k key then Some v else None
      end
  end.

Definition isNull (f : json) : bool :=
  match f with
  | JNull => true
  | _ => false
  end.

(** [f.path !== path0] for an element [f] other than [null]: only an
    object has a property [path], and only a string can equal
    [path0]. *)
Definition pathDiffers (path0 : string) (f : json) : bool :=
  match f with
  | JObject properties =>
      match property "path" properties with
      | Some (JString s) => negb (String.eqb s path0)
      | _ => true
      end
  | _ => true
  end.

(** [files.filter(f => f.path !== path0)]: [None] when it throws, which
    it does when [files] is no array and when an element is [null]. *)
Definition withoutPath (path0 : string) (files : json)
  : option (list json) :=
  match files with
  | JArray elements =>
      if existsb isNull elements then None
      else Some (List.filter (pathDiffers path0) elements)
  | _ => None
  end.

Definition get (stored : Storage) : json :=
  match stored with
  | None => JArray []
  | Some files => files
  end.

(** The object [{ path, title, lastAccessed }]. *)
Definition entry (f : RecentFile) : json :=
  JObject
    [("path"%string, JString (path f));
     ("title"%string, JString (title f));
     ("lastAccessed"%string, JNumber (inject_Z (lastAccessed f)))].

(** [add(path, title)] at the time [now].  [writable] says that
    [setItem] stores the text rather than throws; whatever is thrown is
    caught and leaves the storage as it was. *)
Definition add (path0 title0 : string) (now : Z) (writable : bool)
  (stored : Storage) : Storage :=
  let files := get stored in
  match withoutPath path0 files with
  | None => stored
  | Some filtered =>
      let updated :=
        take MAX_RECENT_FILES
          (entry {| path := path0; title := title0; lastAccessed := now |}
           :: filtered) in
      if writable then Some (JArray updated) else stored
  end.

Definition remove (path0 : string) (writable : bool) (stored : Storage)
  : Storage :=
  let files := get stored in
  match withoutPath path0 files with
  | None => stored
  | Some filtered => if writable then Some (JArray filtered) else stored
  end.

End RecentFiles.

(* ================================================================== *)
(** * Predicates of the statements *)
(* ================================================================== *)

(** The category [c] with the display order of its place in [ordered],
    counted from [k], when a category of its identifier is there: what the
    renumbering loop of the category manager makes of [c]. *)
Definition renumbered (ordered : list Category) (k : Z) (c : Category)
  : Category :=
  match CategoryManager.findIndex
          (fun o => Z.eqb (cat_id o) (cat_id c)) ordered with
  | Some i => CategoryManager.withDisplayOrder c (k + Z.of_nat i)
  | None => c
  end.

(** A category without its display order. *)
Definition unordered (c : Category) : Category :=
  CategoryManager.withDisplayOrder c 0.

(** The list [updatedCategories] of [handleSave], as it is before the
    display orders are renumbered. *)
Definition updatedCategories (st : CategoryManager.State) : list Category :=
  let f := CategoryManager.formData st in
  match CategoryManager.editingCategory st with
  | Some e =>
      map (fun cat =>
             if Z.eqb (cat_id cat) (cat_id e)
             then CategoryManager.applyForm cat f
             else cat)
        (CategoryManager.categories st)
  | None =>
      CategoryManager.categories st
      ++ [ {| cat_id := CategoryManager.nextCategoryId st;
              cat_name := CategoryManager.form_name f;
              cat_label := CategoryManager.form_label f;
              cat_section := CategoryManager.form_section f;
              cat_display_order := CategoryManager.form_display_order f;
              cat_color := CategoryManager.form_color f |} ]
  end.

(** The invariant of the identifiers of the category manager: they are
    distinct and below the next identifier. *)
Definition ids_fresh (st : CategoryManager.State) : Prop :=
  NoDup (cat_id <$> CategoryManager.categories st)
  /\ forall c, c ∈ CategoryManager.categories st ->
       cat_id c < CategoryManager.nextCategoryId st.

(** The display order of the form is one that [validateForm] accepts:
    between 0 and the number of categories of the section of the
    form. *)
Definition order_in_range (st : CategoryManager.State) : Prop :=
  0 <= CategoryManager.form_display_order (CategoryManager.formData st)
    <= Z.of_nat
         (length
            (CategoryManager.inSection
               (CategoryManager.form_section (CategoryManager.formData st))
               (CategoryManager.categories st))).

(** The path of a stored element: the string under its property
    [path], when it has one. *)
Definition pathOf (f : RecentFiles.json) : option string :=
  match f with
  | RecentFiles.JObject properties =>
      match RecentFiles.property "path" properties with
      | Some (RecentFiles.JString s) => Some s
      | _ => None
      end
  | _ => None
  end.

(** The paths of the recent files, in their order. *)
Definition paths (files : RecentFiles.json) : list string :=
  match files with
  | RecentFiles.JArray elements => omap pathOf elements
  | _ => []
  end.

(** The item identifiers are distinct and below the next identifier. *)
Definition itemIds_fresh (st : LifeMapView.ItemsState) : Prop :=
  NoDup (item_id <$> LifeMapView.stateItems st)
  /\ forall item, item ∈ LifeMapView.stateItems st ->
       item_id item < LifeMapView.nextItemId st.

Section LaneInvariant.

Variable newDate : string -> Date.
Variable p : TimelineProps.

(** The invariant of the loop of [assignStackPositions] once the items
    [placed] have been processed: members of one lane do not overlap,
    every placed item sits in the lane the stack map records for it, and
    no lane is empty. *)
Record lanes_inv (placed : list TimelineItem) (stackMap : gmap Z nat)
  (stacks : list (list TimelineItem)) : Prop := {
  inv_apart :
    forall stack x y, stack ∈ stacks -> x ∈ stack -> y ∈ stack -> x ≠ y ->
      itemsOverlap newDate p x y = false;
  inv_placed :
    forall x, x ∈ placed ->
      exists l stack,
        stackMap !! item_id x = Some l /\ stacks !! l = Some stack
        /\ x ∈ stack;
  inv_lane :
    forall l stack x, stacks !! l = Some stack -> x ∈ stack ->
      x ∈ placed /\ stackMap !! item_id x = Some l;
  inv_nonempty : forall stack, stack ∈ stacks -> stack ≠ [];
  inv_dom :
    forall k, is_Some (stackMap !! k) ->
      exists x, x ∈ placed /\ item_id x = k
}.

End LaneInvariant.

Section OverlapStatement.

Variable newDate : string -> Date.
Variable p : TimelineProps.

(** The rendered width of a milestone: the width its title needs, or 60
    when that is 0. *)
Definition pointWidth (title : string) : Q :=
  let w := calculatePointItemWidth p title in
  if Qeqb w 0 then 60%Q else w.

(** The width of a milestone in the words of the specification: a
    function of the length of the title and of the zoom, by a fixed width
    for each character, with a minimum floor.  Written out with the
    numbers of the Geometry Builder: 6.6 for a character and 4 of padding,
    not below 50, each times the zoom. *)
Definition spec_pointWidth (title : string) : Q :=
  Qmax (50 * zoom p)
    (inject_Z (Z.of_nat (String.length title)) * (66 # 10) * zoom p
     + 4 * zoom p).

(** The rendered width of a milestone: the width above, or 60 when that
    is 0. *)
Definition spec_renderedWidth (title : string) : Q :=
  if Qeqb (spec_pointWidth title) 0 then 60%Q else spec_pointWidth title.

(** The overlap test in the words of the specification.  Two milestones
    overlap when their rendered extents, position minus and plus half
    the rendered width, intersect; otherwise the items overlap when
    [end1 > start2] and [end2 > start1] on the extents
    [start, end-or-start]. *)
Definition spec_overlap (item1 item2 : TimelineItem) : Prop :=
  let ages1 := deriveItemAges newDate item1 (dateOfBirth p) (ageRange p) in
  let ages2 := deriveItemAges newDate item2 (dateOfBirth p) (ageRange p) in
  match end_age ages1, end_age ages2 with
  | None, None =>
      let x1 := ageToX newDate p (start_age ages1) in
      let x2 := ageToX newDate p (start_age ages2) in
      let w1 := spec_renderedWidth (item_title item1) in
      let w2 := spec_renderedWidth (item_title item2) in
      (x2 - w2 / 2 < x1 + w1 / 2 /\ x1 - w1 / 2 < x2 + w2 / 2)%Q
  | _, _ =>
      let end1 := nullish (end_age ages1) (start_age ages1) in
      let end2 := nullish (end_age ages2) (start_age ages2) in
      (start_age ages2 < end1 /\ start_age ages1 < end2)%Q
  end.

(** Nothing of the item layer is visible. *)
Definition renders_nothing : Prop :=
  forall shape, shape ∈ renderedItems newDate p -> shape = NoShape.

End OverlapStatement.

(* ================================================================== *)
(** * Sample data *)
(* ================================================================== *)

(** The value of a decimal digit. *)
Definition digitOf (c : ascii) : option Z :=
  let n := Z.of_nat (nat_of_ascii c) in
  if (48 <=? n) && (n <=? 57) then Some (n - 48) else None.

Definition is_dash (c : ascii) : bool := Nat.eqb (nat_of_ascii c) 45.

(** A reading of [newDate] for the examples: [YYYY-MM-DD] strings in a
    host whose local time is UTC; [getMonth()] counts from 0. *)
Definition isoDate (s : string) : Date :=
  match list_ascii_of_string s with
  | [y1; y2; y3; y4; s1; m1; m2; s2; d1; d2] =>
      if is_dash s1 && is_dash s2 then
        match digitOf y1, digitOf y2, digitOf y3, digitOf y4,
              digitOf m1, digitOf m2, digitOf d1, digitOf d2 with
        | Some a, Some b, Some c, Some d, Some e, Some f, Some g, Some h =>
            let year := 1000 * a + 100 * b + 10 * c + d in
            let month := 10 * e + f in
            let day := 10 * g + h in
            if (1 <=? month) && (month <=? 12) && (1 <=? day) && (day <=? 31)
            then YMD year (month - 1) day
            else InvalidDate
        | _, _, _, _, _, _, _, _ => InvalidDate
        end
      else InvalidDate
  | _ => InvalidDate
  end.

Definition isLeapYear (y : Z) : bool :=
  (y mod 4 =? 0) && (negb (y mod 100 =? 0) || (y mod 400 =? 0)).

(** The days of the month [m] of the year [y], months counted from 0. *)
Definition daysInMonth (y m : Z) : Z :=
  if m =? 1 then (if isLeapYear y then 29 else 28)
  else if (m =? 3) || (m =? 5) || (m =? 8) || (m =? 10) then 30
  else 31.

Definition dayBefore (d : Date) : Date :=
  match d with
  | InvalidDate => InvalidDate
  | YMD y m day =>
      if 1 <? day then YMD y m (day - 1)
      else if 0 <? m then YMD y (m - 1) (daysInMonth y (m - 1))
      else YMD (y - 1) 11 31
  end.

(** A reading of [newDate] in a host west of UTC: a [YYYY-MM-DD] string
    is midnight UTC, which is the evening before in local time, and the
    getters return the local day. *)
Definition westDate (s : string) : Date := dayBefore (isoDate s).

Definition projects : Category :=
  {| cat_id := 1; cat_name := "projects"; cat_label := "Projects";
     cat_section := top; cat_display_order := 0; cat_color := blue |}.

Definition hobbies : Category :=
  {| cat_id := 2; cat_name := "hobbies"; cat_label := "Hobbies";
     cat_section := top; cat_display_order := 1; cat_color := red |}.

(** An age-mode item of the category [projects]. *)
Definition ageItem (id : Z) (title : string) (startAge : Q)
  (endAge : option Q) (useMaxAge : option bool) : TimelineItem :=
  {| item_id := id; item_category_id := 1; item_category := None;
     item_title := title; item_description := None;
     item_start_age := Some startAge; item_end_age := endAge;
     item_use_max_age := useMaxAge; item_input_mode := Some age_mode;
     item_start_date := None; item_end_date := None; item_color := blue |}.

(** A date-mode item of the category [projects]. *)
Definition dateItem (id : Z) (title : string) (startDate : option string)
  (endDate : option string) : TimelineItem :=
  {| item_id := id; item_category_id := 1; item_category := None;
     item_title := title; item_description := None;
     item_start_age := None; item_end_age := None;
     item_use_max_age := None; item_input_mode := Some date_mode;
     item_start_date := startDate; item_end_date := endDate;
     item_color := blue |}.

(** Props with the defaults of the component: width 1200, zoom 1. *)
Definition propsOf (its : list TimelineItem) (cats : list Category)
  (current range : Q) (auto : bool) (mode : ViewMode) : TimelineProps :=
  {| items := its; categories := cats; currentAge := current;
     ageRange := range; dateOfBirth := "2000-01-01"; autoScale := auto;
     viewMode := mode; width := 1200; zoom := 1 |}.

(** The items of the end-to-end example of the specification, and a
    third that starts where the first ends. *)
Definition itemA : TimelineItem := ageItem 1 "Project A" 20 (Some 25%Q) None.
Definition itemB : TimelineItem := ageItem 2 "Milestone B" 22 None None.
Definition itemC : TimelineItem := ageItem 3 "Project C" 25 (Some 30%Q) None.

Definition exampleItems : list TimelineItem := [itemA; itemB; itemC].

(** A milestone one year after B, whose box meets the box of B, and the
    props of three milestones: B, D and one at 75. *)
Definition itemD : TimelineItem := ageItem 4 "Milestone D" 23 None None.

Definition exampleProps : TimelineProps :=
  propsOf exampleItems [projects] 26 80 false view_all.

(** Date-mode items that start on 2010-06-15 and end 2, 3, 12 and 13
    months later, and the item of example 8 of the specification. *)
Definition span2 : TimelineItem :=
  dateItem 11 "Two" (Some "2010-06-15"%string) (Some "2010-08-15"%string).
Definition span3 : TimelineItem :=
  dateItem 12 "Three" (Some "2010-06-15"%string) (Some "2010-09-15"%string).
Definition span12 : TimelineItem :=
  dateItem 13 "Twelve" (Some "2010-06-15"%string) (Some "2011-06-15"%string).
Definition span13 : TimelineItem :=
  dateItem 14 "Thirteen" (Some "2010-06-15"%string) (Some "2011-07-15"%string).
Definition shortStay : TimelineItem :=
  dateItem 15 "Stay" (Some "2010-06-15"%string) (Some "2010-08-01"%string).

(** A date-mode item whose dates are three months apart, on the first
    days of December and March. *)
Definition winterStay : TimelineItem :=
  dateItem 16 "Winter" (Some "2010-12-01"%string) (Some "2011-03-01"%string).

(** An item that extends to the maximum age, with a stale stored end. *)
Definition untilMax : TimelineItem :=
  ageItem 21 "Career" 30 (Some 80%Q) (Some true).

(** A date-mode item that lost its start date and kept age fields. *)
Definition dateless : TimelineItem :=
  {| item_id := 22; item_category_id := 1; item_category := None;
     item_title := "Move"; item_description := None;
     item_start_age := Some 12%Q; item_end_age := Some 14%Q;
     item_use_max_age := None; item_input_mode := Some date_mode;
     item_start_date := Some EmptyString; item_end_date := None;
     item_color := red |}.

(** Future view at age 70 of an age range of 80, with one milestone at
    75, and the same view without items. *)
Definition lateMilestone : TimelineItem := ageItem 31 "Retire" 75 None None.

Definition futureProps : TimelineProps :=
  propsOf [lateMilestone] [projects] 70 80 true view_future.

Definition milestoneProps : TimelineProps :=
  propsOf [itemB; itemD; lateMilestone] [projects] 26 80 false view_all.

Definition futureEmptyProps : TimelineProps :=
  propsOf [] [projects] 70 80 true view_future.

(** The whole life with auto-scaling and an age range of 10. *)
Definition shortLifeProps : TimelineProps :=
  propsOf [] [projects] 5 10 true view_all.

(** Past view at age 100 of an age range of 80. *)
Definition pastProps : TimelineProps :=
  propsOf [lateMilestone] [projects] 100 80 true view_past.

(** An age range of 0 without auto-scaling: one milestone, and one span. *)
Definition born : TimelineItem := ageItem 41 "Born" 0 None None.
Definition school : TimelineItem := ageItem 42 "School" 5 (Some 10%Q) None.

Definition zeroSpanProps : TimelineProps :=
  propsOf [born] [projects] 0 0 false view_all.

Definition zeroSpanBarProps : TimelineProps :=
  propsOf [school] [projects] 0 0 false view_all.

(** A category manager with two categories in the top section. *)
Definition managerStart : CategoryManager.State :=
  {| CategoryManager.categories := [projects; hobbies];
     CategoryManager.nextCategoryId := 3;
     CategoryManager.editingCategory := None;
     CategoryManager.showForm := false;
     CategoryManager.formData :=
       {| CategoryManager.form_name := EmptyString;
          CategoryManager.form_label := EmptyString;
          CategoryManager.form_section := top;
          CategoryManager.form_display_order := 0;
          CategoryManager.form_color := blue |} |}.

(** Edit the first category and move it to the last position. *)
Definition managerMovedLast : CategoryManager.State :=
  CategoryManager.handleSave
    (CategoryManager.changeDisplayOrder 2
       (CategoryManager.handleEdit projects managerStart)).

(** Edit the first category and move it to the other section. *)
Definition managerMovedSection : CategoryManager.State :=
  CategoryManager.handleSave
    (CategoryManager.changeSection bottom
       (CategoryManager.handleEdit projects managerStart)).

(** Add a category at the head of the top section. *)
Definition managerAddedFirst : CategoryManager.State :=
  CategoryManager.handleSave
    (CategoryManager.setFormData
       {| CategoryManager.form_name := "travel";
          CategoryManager.form_label := "Travel";
          CategoryManager.form_section := top;
          CategoryManager.form_display_order := 0;
          CategoryManager.form_color := blue |}
       (CategoryManager.handleCreate managerStart)).

(** Delete the first category. *)
Definition managerDeletedFirst : CategoryManager.State :=
  CategoryManager.handleDelete 1 true managerStart.

(** The example at age 26 in the past and in the future view, as the
    life map view hands it to the timeline. *)
Definition pastViewProps : TimelineProps :=
  LifeMapView.timelineProps isoDate exampleItems [projects] 26 80
    "2000-01-01" view_past 1200 1.

Definition futureViewProps : TimelineProps :=
  LifeMapView.timelineProps isoDate exampleItems [projects] 26 80
    "2000-01-01" view_future 1200 1.

(** The past view at age 26 of the span C, which runs from 25 to 30. *)
Definition clippedProps : TimelineProps :=
  propsOf [itemC] [projects] 26 80 true view_past.

(** The form of a new category at the head of the top section, and the
    form that moves the second category to the head. *)
Definition managerCreating : CategoryManager.State :=
  CategoryManager.setFormData
    {| CategoryManager.form_name := "travel";
       CategoryManager.form_label := "Travel";
       CategoryManager.form_section := top;
       CategoryManager.form_display_order := 0;
       CategoryManager.form_color := blue |}
    (CategoryManager.handleCreate managerStart).

Definition managerEditingFirst : CategoryManager.State :=
  CategoryManager.changeDisplayOrder 0
    (CategoryManager.handleEdit hobbies managerStart).

(** The example after the category of its items has been deleted. *)
Definition orphanProps : TimelineProps :=
  propsOf
    (LifeMapView.handleCategoriesChange
       (CategoryManager.categories managerDeletedFirst) exampleItems)
    (CategoryManager.categories managerDeletedFirst) 26 80 false view_all.

(** A reading of [Number] for the examples: the empty string is 0, a
    string of decimal digits is its value, and nothing else is a
    number. *)
Definition decimalNumber (s : string) : number :=
  match
    fold_left
      (fun acc c =>
         match acc, digitOf c with
         | Some n, Some d => Some (10 * n + d)
         | _, _ => None
         end)
      (list_ascii_of_string s) (Some 0)
  with
  | Some n => Fin (inject_Z n)
  | None => NaN
  end.

(** A comparison of dates for the examples, which compare none. *)
Definition neverBefore (a b : string) : bool := false.

(** Two recent files as [add] stores them. *)
Definition storedFiles : RecentFiles.Storage :=
  Some
    (RecentFiles.JArray
       [RecentFiles.entry
          {| RecentFiles.path := "/maps/a.lifemap";
             RecentFiles.title := "A"; RecentFiles.lastAccessed := 10 |};
        RecentFiles.entry
          {| RecentFiles.path := "/maps/b.lifemap";
             RecentFiles.title := "B"; RecentFiles.lastAccessed := 5 |}]).

(** The item form filled in for the span A, what it submits, the view
    that receives it, and the item the view stores. *)
Definition formA : ItemForm.Fields :=
  {| ItemForm.title := "Project A";
     ItemForm.description := EmptyString;
     ItemForm.inputMode := age_mode;
     ItemForm.startAge := "20";
     ItemForm.endAge := "25";
     ItemForm.startDate := EmptyString;
     ItemForm.endDate := EmptyString;
     ItemForm.color := blue;
     ItemForm.isMaxChecked := false |}.

Definition submittedA : ItemForm.ItemData :=
  {| ItemForm.data_category_id := 1;
     ItemForm.data_title := "Project A";
     ItemForm.data_description := None;
     ItemForm.data_color := blue;
     ItemForm.data_input_mode := age_mode;
     ItemForm.data_start_date := None;
     ItemForm.data_end_date := None;
     ItemForm.data_start_age := Some 20%Q;
     ItemForm.data_end_age := Some 25%Q;
     ItemForm.data_use_max_age := false |}.

Definition viewState : LifeMapView.ItemsState :=
  {| LifeMapView.lifeMapLoaded := true;
     LifeMapView.stateItems := exampleItems;
     LifeMapView.nextItemId := 4;
     LifeMapView.editingItem := None;
     LifeMapView.selectedCategory := Some projects;
     LifeMapView.showItemForm := true |}.

Definition savedA : TimelineItem :=
  LifeMapView.itemOfData submittedA 4 1 (Some projects).

(* ================================================================== *)
(** * Properties of the Age/Date Normalizer *)
(* ================================================================== *)

Section NormalizerFacts.

Variable newDate : string -> Date.

Lemma truthy_string_Some (s : string) :
  s ≠ EmptyString -> truthy_string (Some s) = true.
Proof.
  intros Hs. simpl. destruct (String.eqb_spec s EmptyString); [contradiction|].
  reflexivity.
Qed.

Lemma calculateAgeAtDate_valid (ev dob : string) ey em ed byr bm bd :
  ev ≠ EmptyString -> dob ≠ EmptyString ->
  newDate ev = YMD ey em ed -> newDate dob = YMD byr bm bd ->
  calculateAgeAtDate newDate (Some ev) (Some dob)
  = Some (if (em - bm <? 0) || ((em - bm =? 0) && (ed <? bd))
          then ey - byr - 1 else ey - byr).
Proof.
  intros Hev Hdob Hn1 Hn2. unfold calculateAgeAtDate.
  rewrite !truthy_string_Some by assumption. simpl.
  rewrite Hn1, Hn2.
  destruct ((em - bm <? 0) || ((em - bm =? 0) && (ed <? bd))); reflexivity.
Qed.

Lemma calculateMonthsDiff_valid (sd ed : string) sy sm sday ey em eday :
  sd ≠ EmptyString -> ed ≠ EmptyString ->
  newDate sd = YMD sy sm sday -> newDate ed = YMD ey em eday ->
  calculateMonthsDiff newDate (Some sd) (Some ed)
  = Some (if eday - sday <? 0 then (ey - sy) * 12 + (em - sm) - 1
          else (ey - sy) * 12 + (em - sm)).
Proof.
  intros Hsd Hed Hn1 Hn2. unfold calculateMonthsDiff.
  rewrite !truthy_string_Some by assumption. simpl.
  rewrite Hn1, Hn2. destruct (eday - sday <? 0); reflexivity.
Qed.

(** The thresholds of the normalizer on the months that
    [calculateMonthsDiff] counts, for a date-mode item with valid start
    and end dates and [use_max_age] unset: a count under 3 gives a
    milestone, a count of 3 to 12 gives [end_age = start_age + 1], and a
    count over 12 gives the age at the end date computed from the date
    of birth. *)
Theorem deriveItemAges_month_thresholds
  (item : TimelineItem) (dob : string) (ageRange : Q)
  (sd ed : string) (months : Z) :
  item_input_mode item = Some date_mode ->
  item_start_date item = Some sd -> sd ≠ EmptyString ->
  item_end_date item = Some ed -> ed ≠ EmptyString ->
  truthy_bool (item_use_max_age item) = false ->
  calculateMonthsDiff newDate (Some sd) (Some ed) = Some months ->
  let r := deriveItemAges newDate item dob ageRange in
  start_age r
  = nullish (inject_Z <$> calculateAgeAtDate newDate (Some sd) (Some dob))
      0%Q
  /\ (months < 3 -> end_age r = None)
  /\ (3 <= months <= 12 -> end_age r = Some (start_age r + 1)%Q)
  /\ (12 < months ->
      forall endAge : Z,
        calculateAgeAtDate newDate (Some ed) (Some dob) = Some endAge ->
        end_age r = Some (inject_Z endAge)).
Proof.
  intros Hmode Hsd Hsd0 Hed Hed0 Hmax Hmonths r.
  subst r. unfold deriveItemAges.
  rewrite Hmode, Hsd, Hed, Hmax, Hmonths.
  rewrite !truthy_string_Some by assumption. cbn [is_date_mode andb negb].
  destruct (Z.ltb_spec months 3) as [Hlt|Hge].
  - repeat split; intros; try reflexivity; lia.
  - destruct (Z.leb_spec months 12) as [Hle|Hgt].
    + repeat split; intros; try reflexivity; lia.
    + split; [reflexivity|]. split; [intros; lia|]. split; [intros; lia|].
      intros _ endAge Hend. cbn [end_age]. by rewrite Hend.
Qed.

(** C3. With [use_max_age] set, the normalised [end_age] is the age
    range passed in, whatever the input mode and the stored end. *)
Theorem deriveItemAges_use_max_age
  (item : TimelineItem) (dob : string) (ageRange : Q) :
  item_use_max_age item = Some true ->
  end_age (deriveItemAges newDate item dob ageRange) = Some ageRange.
Proof.
  intros Hmax. unfold deriveItemAges. rewrite Hmax. simpl.
  destruct (is_date_mode (item_input_mode item)
            && truthy_string (item_start_date item)); reflexivity.
Qed.

(** C9. A date-mode item without a start date (absent or empty) is
    normalised from its age fields. *)
Theorem deriveItemAges_date_without_start
  (item : TimelineItem) (dob : string) (ageRange : Q) :
  item_input_mode item = Some date_mode ->
  item_start_date item = None \/ item_start_date item = Some EmptyString ->
  deriveItemAges newDate item dob ageRange
  = {| start_age := nullish (item_start_age item) 0%Q;
       end_age := if truthy_bool (item_use_max_age item)
                  then Some ageRange
                  else item_end_age item |}.
Proof.
  intros Hmode Hsd. unfold deriveItemAges.
  destruct Hsd as [Hsd|Hsd]; rewrite Hmode, Hsd; reflexivity.
Qed.

End NormalizerFacts.

(* ================================================================== *)
(** * Lists, sorting and maps built in a loop *)
(* ================================================================== *)

Section LoopFacts.

Context {A : Type}.

Lemma sort_insert_perm (cmp : A -> A -> comparison) (x : A) (l : list A) :
  sort_insert cmp x l ≡ₚ x :: l.
Proof.
  induction l as [|y l IH]; simpl; [reflexivity|].
  destruct (cmp x y); try reflexivity.
  - rewrite IH. apply Permutation_swap.
  - rewrite IH. apply Permutation_swap.
Qed.

Lemma sort_fold_perm (cmp : A -> A -> comparison) (l acc : list A) :
  fold_left (fun acc x => sort_insert cmp x acc) l acc ≡ₚ acc ++ l.
Proof.
  revert acc. induction l as [|x l IH]; intros acc; simpl.
  - by rewrite app_nil_r.
  - rewrite IH, sort_insert_perm. simpl. apply Permutation_middle.
Qed.

Lemma sort_perm (cmp : A -> A -> comparison) (l : list A) :
  sort cmp l ≡ₚ l.
Proof. unfold sort. by rewrite sort_fold_perm. Qed.

Lemma elem_of_sort (cmp : A -> A -> comparison) (l : list A) (x : A) :
  x ∈ sort cmp l <-> x ∈ l.
Proof. by rewrite sort_perm. Qed.

(** A map filled by a loop over [l] keeps, under each key of [l], the
    value of the element that carries it when keys do not repeat. *)
Lemma fold_insert_other {V : Type} (key : A -> Z) (f : A -> V)
  (l : list A) (m0 : gmap Z V) (k : Z) :
  k ∉ key <$> l ->
  fold_left (fun m a => <[key a := f a]> m) l m0 !! k = m0 !! k.
Proof.
  revert m0. induction l as [|a l IH]; intros m0 Hk; simpl; [done|].
  rewrite fmap_cons in Hk. apply not_elem_of_cons in Hk as [Hne Hk].
  rewrite IH by done. by rewrite lookup_insert_ne.
Qed.

Lemma fold_insert_lookup {V : Type} (key : A -> Z) (f : A -> V)
  (l : list A) (m0 : gmap Z V) (x : A) :
  NoDup (key <$> l) -> x ∈ l ->
  fold_left (fun m a => <[key a := f a]> m) l m0 !! key x = Some (f x).
Proof.
  revert m0. induction l as [|a l IH]; intros m0 Hnd Hx; simpl.
  - by apply elem_of_nil in Hx.
  - rewrite fmap_cons in Hnd. apply NoDup_cons in Hnd as [Ha Hnd].
    apply elem_of_cons in Hx as [->|Hx].
    + rewrite fold_insert_other by done. apply lookup_insert_eq.
    + by apply IH.
Qed.

End LoopFacts.

(* ================================================================== *)
(** * Properties of the Stacking Allocator *)
(* ================================================================== *)

Section StackingFacts.

Variable newDate : string -> Date.
Variable p : TimelineProps.

Local Abbreviation overlap := (itemsOverlap newDate p).
Local Abbreviation ids l := (item_id <$> l).

Lemma itemsOverlap_sym (a b : TimelineItem) : overlap a b = overlap b a.
Proof.
  unfold itemsOverlap.
  destruct (end_age (getItemAges newDate p a)),
           (end_age (getItemAges newDate p b)); apply andb_comm.
Qed.

Lemma findStack_Some (item : TimelineItem) (stacks : list (list TimelineItem))
  (i0 i : nat) :
  findStack newDate p item stacks i0 = Some i ->
  exists stack,
    (i0 <= i)%nat /\ stacks !! (i - i0)%nat = Some stack
    /\ forall y, y ∈ stack -> overlap item y = false.
Proof.
  revert i0. induction stacks as [|stack rest IH]; intros i0 Hfind; simpl in *.
  - discriminate.
  - destruct (forallb _ stack) eqn:Hall.
    + injection Hfind as <-. exists stack. split; [lia|].
      replace (i0 - i0)%nat with 0%nat by lia. split; [done|].
      intros y Hy. rewrite forallb_forall in Hall.
      apply list_elem_of_In in Hy. specialize (Hall y Hy).
      by apply negb_true_iff in Hall.
    + destruct (IH _ Hfind) as (st & Hle & Hlook & Hno).
      exists st. split; [lia|]. split; [|done].
      replace (i - i0)%nat with (S (i - S i0)) by lia. done.
Qed.

Lemma lanes_inv_empty : lanes_inv newDate p [] ∅ [].
Proof.
  split.
  - intros stack x y Hs. by apply elem_of_nil in Hs.
  - intros x Hx. by apply elem_of_nil in Hx.
  - intros l stack x Hl. by rewrite lookup_nil in Hl.
  - intros stack Hs. by apply elem_of_nil in Hs.
  - intros k [v Hk]. by rewrite lookup_empty in Hk.
Qed.

(** One turn of the loop keeps the invariant when the identifier of the
    new item is fresh. *)
Lemma placeItem_inv (placed : list TimelineItem) (stackMap : gmap Z nat)
  (stacks : list (list TimelineItem)) (item : TimelineItem) :
  lanes_inv newDate p placed stackMap stacks ->
  item_id item ∉ ids placed ->
  lanes_inv newDate p (placed ++ [item])
    (fst (placeItem newDate p (stackMap, stacks) item))
    (snd (placeItem newDate p (stackMap, stacks) item)).
Proof.
  intros [Hapart Hplaced Hlane Hne Hdom] Hfresh.
  assert (Hold : forall x, x ∈ placed -> item_id item ≠ item_id x).
  { intros x Hx Heq. apply Hfresh. rewrite Heq.
    by apply list_elem_of_fmap_2. }
  unfold placeItem.
  destruct (findStack newDate p item stacks 0) as [i|] eqn:Hfind; simpl.
  - apply findStack_Some in Hfind as (stack & _ & Hi & Hno).
    replace (i - 0)%nat with i in Hi by lia.
    split.
    + intros stack' x y Hs Hx Hy Hxy.
      apply list_elem_of_lookup in Hs as [j Hj].
      rewrite list_lookup_alter in Hj. case_decide as Hij.
      * subst j. rewrite Hi in Hj. simpl in Hj. injection Hj as <-.
        apply elem_of_app in Hx as [Hx|Hx];
          apply elem_of_app in Hy as [Hy|Hy].
        -- eapply Hapart; eauto. eapply list_elem_of_lookup_2; eauto.
        -- apply list_elem_of_singleton in Hy as ->.
           rewrite itemsOverlap_sym. by apply Hno.
        -- apply list_elem_of_singleton in Hx as ->. by apply Hno.
        -- apply list_elem_of_singleton in Hx as ->.
           apply list_elem_of_singleton in Hy as ->. done.
      * eapply Hapart; eauto. eapply list_elem_of_lookup_2; eauto.
    + intros x Hx. apply elem_of_app in Hx as [Hx|Hx].
      * destruct (Hplaced x Hx) as (l & st & Hm & Hl & Hin).
        rewrite lookup_insert_ne by auto.
        destruct (decide (i = l)) as [->|Hil].
        -- exists l, (st ++ [item]). split; [done|].
           rewrite list_lookup_alter_eq, Hl. split; [done|].
           apply elem_of_app. by left.
        -- exists l, st. split; [done|].
           by rewrite list_lookup_alter_ne.
      * apply list_elem_of_singleton in Hx as ->.
        exists i, (stack ++ [item]). rewrite lookup_insert_eq.
        split; [done|]. rewrite list_lookup_alter_eq, Hi. split; [done|].
        apply elem_of_app. right. by apply list_elem_of_singleton.
    + intros l st x Hl Hx.
      rewrite list_lookup_alter in Hl. case_decide as Hil.
      * subst l. rewrite Hi in Hl. simpl in Hl. injection Hl as <-.
        apply elem_of_app in Hx as [Hx|Hx].
        -- destruct (Hlane i stack x Hi Hx) as [Hin Hm].
           split; [apply elem_of_app; by left|].
           rewrite lookup_insert_ne by auto. done.
        -- apply list_elem_of_singleton in Hx as ->.
           split; [apply elem_of_app; right; by apply list_elem_of_singleton|].
           apply lookup_insert_eq.
      * destruct (Hlane l st x Hl Hx) as [Hin Hm].
        split; [apply elem_of_app; by left|].
        rewrite lookup_insert_ne by auto. done.
    + intros st Hs. apply list_elem_of_lookup in Hs as [j Hj].
      rewrite list_lookup_alter in Hj. case_decide.
      * subst j. rewrite Hi in Hj. simpl in Hj. injection Hj as <-.
        by destruct stack.
      * apply Hne. eapply list_elem_of_lookup_2; eauto.
    + intros k Hk. destruct (decide (item_id item = k)) as [<-|Hk'].
      * exists item. split; [|done].
        apply elem_of_app. right. by apply list_elem_of_singleton.
      * rewrite lookup_insert_ne in Hk by done.
        destruct (Hdom k Hk) as (x & Hx & Hid).
        exists x. split; [apply elem_of_app; by left|done].
  - split.
    + intros stack' x y Hs Hx Hy Hxy.
      apply elem_of_app in Hs as [Hs|Hs].
      * eapply Hapart; eauto.
      * apply list_elem_of_singleton in Hs as ->.
        apply list_elem_of_singleton in Hx as ->.
        apply list_elem_of_singleton in Hy as ->. done.
    + intros x Hx. apply elem_of_app in Hx as [Hx|Hx].
      * destruct (Hplaced x Hx) as (l & st & Hm & Hl & Hin).
        exists l, st. rewrite lookup_insert_ne by auto.
        split; [done|]. split; [|done].
        rewrite lookup_app_l; [done|]. by eapply lookup_lt_Some.
      * apply list_elem_of_singleton in Hx as ->.
        exists (length stacks), [item]. rewrite lookup_insert_eq.
        split; [done|]. split; [|by apply list_elem_of_singleton].
        rewrite lookup_app_r by lia.
        by replace (length stacks - length stacks)%nat with 0%nat by lia.
    + intros l st x Hl Hx. apply lookup_app_Some in Hl as [Hl|[Hlen Hl]].
      * destruct (Hlane l st x Hl Hx) as [Hin Hm].
        split; [apply elem_of_app; by left|].
        rewrite lookup_insert_ne by auto. done.
      * apply list_lookup_singleton_Some in Hl as [Hl <-].
        apply list_elem_of_singleton in Hx as ->.
        split; [apply elem_of_app; right; by apply list_elem_of_singleton|].
        replace l with (length stacks) by lia. apply lookup_insert_eq.
    + intros st Hs. apply elem_of_app in Hs as [Hs|Hs]; [by apply Hne|].
      by apply list_elem_of_singleton in Hs as ->.
    + intros k Hk. destruct (decide (item_id item = k)) as [<-|Hk'].
      * exists item. split; [|done].
        apply elem_of_app. right. by apply list_elem_of_singleton.
      * rewrite lookup_insert_ne in Hk by done.
        destruct (Hdom k Hk) as (x & Hx & Hid).
        exists x. split; [apply elem_of_app; by left|done].
Qed.

Lemma placeItems_inv (rest placed : list TimelineItem)
  (st : gmap Z nat * list (list TimelineItem)) :
  lanes_inv newDate p placed (fst st) (snd st) ->
  NoDup (ids (placed ++ rest)) ->
  lanes_inv newDate p (placed ++ rest)
    (fst (fold_left (placeItem newDate p) rest st))
    (snd (fold_left (placeItem newDate p) rest st)).
Proof.
  revert placed st. induction rest as [|item rest IH]; intros placed st Hinv Hnd.
  - simpl. by rewrite app_nil_r.
  - simpl. replace (placed ++ item :: rest) with ((placed ++ [item]) ++ rest)
      by (by rewrite <- app_assoc).
    apply IH.
    + destruct st as [stackMap stacks]. apply placeItem_inv; [done|].
      rewrite fmap_app in Hnd. apply NoDup_app in Hnd as (_ & Hdisj & _).
      intros Hin. apply (Hdisj _ Hin). simpl. apply elem_of_cons. by left.
    + by rewrite <- app_assoc.
Qed.

(** The invariant holds of the result of the whole loop. *)
Lemma assignStacks_inv (categoryItems : list TimelineItem) :
  NoDup (ids categoryItems) ->
  lanes_inv newDate p (sort (compareItems newDate p) categoryItems)
    (assignStackPositions newDate p categoryItems)
    (snd (assignStacks newDate p categoryItems)).
Proof.
  intros Hnd. unfold assignStackPositions, assignStacks.
  pose proof (placeItems_inv (sort (compareItems newDate p) categoryItems)
                [] (∅, []) lanes_inv_empty) as Hloop.
  apply Hloop. rewrite app_nil_l. by rewrite sort_perm.
Qed.

(** C1. Two distinct items of one category that the allocator puts in
    the same lane do not overlap. *)
Theorem assignStackPositions_no_overlap
  (categoryItems : list TimelineItem) (a b : TimelineItem) (lane : nat) :
  NoDup (ids categoryItems) ->
  a ∈ categoryItems -> b ∈ categoryItems -> a ≠ b ->
  assignStackPositions newDate p categoryItems !! item_id a = Some lane ->
  assignStackPositions newDate p categoryItems !! item_id b = Some lane ->
  itemsOverlap newDate p a b = false.
Proof.
  intros Hnd Ha Hb Hab Hla Hlb.
  destruct (assignStacks_inv categoryItems Hnd)
    as [Hapart Hplaced _ _ _].
  destruct (Hplaced a) as (la & sa & Hma & Hsa & Hina);
    [by apply elem_of_sort|].
  destruct (Hplaced b) as (lb & sb & Hmb & Hsb & Hinb);
    [by apply elem_of_sort|].
  rewrite Hla in Hma. rewrite Hlb in Hmb.
  injection Hma as <-. injection Hmb as <-.
  rewrite Hsa in Hsb. injection Hsb as <-.
  apply (Hapart sa); try done.
  eapply list_elem_of_lookup_2; eauto.
Qed.



(** The items of one category inherit the distinct identifiers of the
    item list. *)
Lemma categoryItemsOf_NoDup (category : Category) :
  NoDup (ids (items p)) -> NoDup (ids (categoryItemsOf p category)).
Proof.
  unfold categoryItemsOf. generalize (items p) as l.
  induction l as [|x l IH]; intros Hnd; simpl; [constructor|].
  rewrite fmap_cons in Hnd. apply NoDup_cons in Hnd as [Hx Hnd].
  destruct (match getCategory p x with
            | Some c => Z.eqb (cat_id c) (cat_id category)
            | None => false
            end); [|by apply IH].
  rewrite fmap_cons. apply NoDup_cons. split; [|by apply IH].
  intros Hin. apply Hx.
  apply list_elem_of_fmap in Hin as (y & Hy & Hin).
  apply list_elem_of_fmap. exists y. split; [done|].
  apply list_elem_of_In in Hin. apply filter_In in Hin as [Hin _].
  by apply list_elem_of_In.
Qed.

(** The lane count recorded for a category is the one computed from its
    own items, when category identifiers are distinct. *)
Lemma categoryMaxStacks_lookup (category : Category) :
  NoDup (cat_id <$> categories p) -> category ∈ categories p ->
  categoryMaxStacks newDate p !! cat_id category
  = Some (maxStackOf
            (assignStackPositions newDate p
               (categoryItemsOf p category))).
Proof.
  intros Hnd Hin. unfold categoryMaxStacks.
  apply (fold_insert_lookup cat_id
           (fun c => maxStackOf
                       (assignStackPositions newDate p
                          (categoryItemsOf p c)))); done.
Qed.

End StackingFacts.

(* ================================================================== *)
(** * Comparisons on numbers *)
(* ================================================================== *)

Lemma Qltb_lt (x y : Q) : Qltb x y = true <-> (x < y)%Q.
Proof.
  unfold Qltb. rewrite Qlt_alt. destruct (x ?= y)%Q; split; congruence.
Qed.

Lemma Qltb_ge (x y : Q) : Qltb x y = false <-> (y <= x)%Q.
Proof.
  rewrite <- not_true_iff_false, Qltb_lt. split.
  - apply Qnot_lt_le.
  - apply Qle_not_lt.
Qed.

Lemma Qgtb_gt (x y : Q) : Qgtb x y = true <-> (y < x)%Q.
Proof. apply Qltb_lt. Qed.

Lemma Qgtb_le (x y : Q) : Qgtb x y = false <-> (x <= y)%Q.
Proof. apply Qltb_ge. Qed.

Lemma Qeqb_eq (x y : Q) : Qeqb x y = true <-> (x == y)%Q.
Proof.
  unfold Qeqb. rewrite Qeq_alt. destruct (x ?= y)%Q; split; congruence.
Qed.

Lemma Qeqb_neq (x y : Q) : Qeqb x y = false <-> ~ (x == y)%Q.
Proof. rewrite <- not_true_iff_false, Qeqb_eq. reflexivity. Qed.

(** A quotient is infinite or [NaN] exactly when the divisor is zero. *)
Lemma num_div_finite (a b : Q) :
  (exists q, num_div a b = Fin q) <-> ~ (b == 0)%Q.
Proof.
  unfold num_div. destruct (Qeqb b 0) eqn:Hb.
  - apply Qeqb_eq in Hb. split; [|contradiction].
    intros [q Hq].
    destruct (Qltb 0 a); [discriminate|].
    destruct (Qltb a 0); discriminate.
  - apply Qeqb_neq in Hb. split; [done|]. intros _. by eexists.
Qed.

(** [Math.max(a, b)] is never less than [b]. *)
Lemma num_max_not_lt_r (a b : number) : num_ltb (num_max a b) b = false.
Proof.
  unfold num_ltb.
  destruct a as [x| | |], b as [y| | |]; simpl; try reflexivity.
  - apply Qgtb_le. apply Q.le_max_r.
  - apply Qgtb_le. apply Qle_refl.
Qed.

(** Two intervals of positive length share an inner point exactly when
    each begins before the other ends. *)
Lemma extents_intersect (l1 r1 l2 r2 : Q) :
  (l1 < r1)%Q -> (l2 < r2)%Q ->
  ((exists x, l1 < x /\ x < r1 /\ l2 < x /\ x < r2)
   <-> (l2 < r1 /\ l1 < r2))%Q.
Proof.
  intros H1 H2. split.
  - intros (x & Ha & Hb & Hc & Hd). split; lra.
  - intros [Ha Hb].
    destruct (Qlt_le_dec l1 l2) as [Hl|Hl];
      destruct (Qlt_le_dec r1 r2) as [Hr|Hr].
    + exists ((1 # 2) * (l2 + r1))%Q. repeat split; lra.
    + exists ((1 # 2) * (l2 + r2))%Q. repeat split; lra.
    + exists ((1 # 2) * (l1 + r1))%Q. repeat split; lra.
    + exists ((1 # 2) * (l1 + r2))%Q. repeat split; lra.
Qed.

(* ================================================================== *)
(** * Properties of the overlap test and of the geometry *)
(* ================================================================== *)

Section GeometryFacts.

Variable newDate : string -> Date.
Variable p : TimelineProps.

Hypothesis ids_distinct : NoDup (item_id <$> items p).

Lemma getItemAges_member (item : TimelineItem) :
  item ∈ items p ->
  getItemAges newDate p item
  = deriveItemAges newDate item (dateOfBirth p) (ageRange p).
Proof.
  intros Hin. unfold getItemAges, itemAges.
  by rewrite (fold_insert_lookup item_id
                (fun i => deriveItemAges newDate i (dateOfBirth p)
                            (ageRange p))).
Qed.

Lemma itemWidths_member (item : TimelineItem) :
  item ∈ items p ->
  itemWidths newDate p !! item_id item = Some (itemWidth newDate p item).
Proof.
  intros Hin. unfold itemWidths.
  by apply (fold_insert_lookup item_id (itemWidth newDate p)).
Qed.

(** The rendered width of a milestone of the item list. *)
Lemma widthOr60_point (item : TimelineItem) :
  item ∈ items p ->
  end_age (deriveItemAges newDate item (dateOfBirth p) (ageRange p)) = None ->
  widthOr60 newDate p (item_id item) = Fin (pointWidth p (item_title item)).
Proof.
  intros Hin Hend. unfold widthOr60.
  rewrite itemWidths_member by done. unfold itemWidth.
  rewrite getItemAges_member by done. rewrite Hend.
  unfold num_or, pointWidth.
  by destruct (Qeqb (calculatePointItemWidth p (item_title item)) 0).
Qed.

(** The width the code computes for a milestone is the width of the
    specification. *)
Lemma calculatePointItemWidth_spec (title : string) :
  (calculatePointItemWidth p title == spec_pointWidth p title)%Q.
Proof.
  unfold calculatePointItemWidth, spec_pointWidth, text_length, Qnat.
  cbv zeta.
  apply Q.max_compat; [reflexivity|]. ring.
Qed.

Lemma pointWidth_spec (title : string) :
  (pointWidth p title == spec_renderedWidth p title)%Q.
Proof.
  unfold pointWidth, spec_renderedWidth. cbv zeta.
  pose proof (calculatePointItemWidth_spec title) as Hw.
  destruct (Qeqb (calculatePointItemWidth p title) 0) eqn:Hc,
           (Qeqb (spec_pointWidth p title) 0) eqn:Hs;
    try reflexivity; try exact Hw.
  - apply Qeqb_eq in Hc. apply Qeqb_neq in Hs. destruct Hs.
    by rewrite <- Hw.
  - apply Qeqb_neq in Hc. apply Qeqb_eq in Hs. destruct Hc.
    by rewrite Hw.
Qed.

(** C5. For two items of the item list, [itemsOverlap] is the test of the
    specification: rendered extents for two milestones, with the width
    that the length of the title and the zoom give, strict comparison
    of time extents otherwise; an item that ends exactly where the other
    starts does not overlap it. *)
Theorem itemsOverlap_spec (item1 item2 : TimelineItem) :
  item1 ∈ items p -> item2 ∈ items p ->
  (itemsOverlap newDate p item1 item2 = true
   <-> spec_overlap newDate p item1 item2)
  /\ (let ages1 :=
        deriveItemAges newDate item1 (dateOfBirth p) (ageRange p) in
      let ages2 :=
        deriveItemAges newDate item2 (dateOfBirth p) (ageRange p) in
      (is_Some (end_age ages1) \/ is_Some (end_age ages2)) ->
      (nullish (end_age ages1) (start_age ages1) == start_age ages2)%Q ->
      itemsOverlap newDate p item1 item2 = false).
Proof.
  intros Hin1 Hin2.
  assert (Htime : forall e1 s1 e2 s2 : Q,
             Qgtb e1 s2 && Qgtb e2 s1 = true
             <-> (s2 < e1 /\ s1 < e2)%Q).
  { intros. rewrite andb_true_iff, !Qgtb_gt. reflexivity. }
  split.
  - unfold itemsOverlap, spec_overlap.
    rewrite !getItemAges_member by done.
    destruct (end_age (deriveItemAges newDate item1 _ _)) as [e1|] eqn:He1,
             (end_age (deriveItemAges newDate item2 _ _)) as [e2|] eqn:He2;
      try apply Htime.
    rewrite !widthOr60_point by done. simpl.
    rewrite andb_true_iff, !Qgtb_gt.
    rewrite !(pointWidth_spec (item_title item1)),
      !(pointWidth_spec (item_title item2)).
    reflexivity.
  - intros ages1 ages2 Hspan Htouch. subst ages1 ages2.
    unfold itemsOverlap. rewrite !getItemAges_member by done.
    destruct (end_age (deriveItemAges newDate item1 _ _)) as [e1|] eqn:He1,
             (end_age (deriveItemAges newDate item2 _ _)) as [e2|] eqn:He2;
      simpl in *.
    + apply andb_false_iff. left. apply Qgtb_le. lra.
    + apply andb_false_iff. left. apply Qgtb_le. lra.
    + apply andb_false_iff. left. apply Qgtb_le. lra.
    + destruct Hspan as [[? H]|[? H]]; discriminate.
Qed.

(** For a positive zoom the rendered width of a milestone is positive,
    and two milestones of the item list overlap exactly when some point
    lies strictly inside both rendered extents. *)
Lemma pointWidth_positive (title : string) :
  (0 < zoom p)%Q -> (0 < pointWidth p title)%Q.
Proof.
  intros Hzoom.
  assert (Hw : (0 < calculatePointItemWidth p title)%Q).
  { unfold calculatePointItemWidth. cbv zeta.
    match goal with
    | |- (0 < Qmax ?a ?b)%Q => pose proof (Q.le_max_l a b)
    end.
    lra. }
  unfold pointWidth. cbv zeta.
  destruct (Qeqb (calculatePointItemWidth p title) 0) eqn:Hz; [|done].
  apply Qeqb_eq in Hz. lra.
Qed.

Lemma milestones_overlap_share_point (item1 item2 : TimelineItem) :
  (0 < zoom p)%Q ->
  item1 ∈ items p -> item2 ∈ items p ->
  let ages1 := deriveItemAges newDate item1 (dateOfBirth p) (ageRange p) in
  let ages2 := deriveItemAges newDate item2 (dateOfBirth p) (ageRange p) in
  let x1 := ageToX newDate p (start_age ages1) in
  let x2 := ageToX newDate p (start_age ages2) in
  let w1 := pointWidth p (item_title item1) in
  let w2 := pointWidth p (item_title item2) in
  end_age ages1 = None -> end_age ages2 = None ->
  (itemsOverlap newDate p item1 item2 = true
   <-> exists x : Q,
         x1 - w1 / 2 < x /\ x < x1 + w1 / 2
         /\ x2 - w2 / 2 < x /\ x < x2 + w2 / 2)%Q.
Proof.
  intros Hzoom Hin1 Hin2 ages1 ages2 x1 x2 w1 w2 He1 He2.
  pose proof (pointWidth_positive (item_title item1) Hzoom) as Hw1.
  pose proof (pointWidth_positive (item_title item2) Hzoom) as Hw2.
  fold w1 in Hw1. fold w2 in Hw2.
  assert (Hh1 : (w1 / 2 == w1 * (1 # 2))%Q) by (unfold Qdiv; reflexivity).
  assert (Hh2 : (w2 / 2 == w2 * (1 # 2))%Q) by (unfold Qdiv; reflexivity).
  rewrite extents_intersect by lra.
  unfold itemsOverlap. rewrite !getItemAges_member by done.
  fold ages1 ages2. rewrite He1, He2.
  rewrite !widthOr60_point by done. fold w1 w2 x1 x2. simpl.
  rewrite andb_true_iff, !Qgtb_gt. reflexivity.
Qed.

(** C7. The width stored for a span of the item list is
    [max(x(end) - x(start), oneYearWidth)] with
    [oneYearWidth = TIMELINE_WIDTH / AGE_RANGE]; it is never less than
    [oneYearWidth], and for a positive timeline width and displayed span
    it is the finite width the item is rendered with. *)
Theorem itemWidths_span (item : TimelineItem) (endAge : Q) :
  item ∈ items p ->
  end_age (deriveItemAges newDate item (dateOfBirth p) (ageRange p))
  = Some endAge ->
  let startAge :=
    start_age (deriveItemAges newDate item (dateOfBirth p) (ageRange p)) in
  let oneYearWidth :=
    num_div (TIMELINE_WIDTH p) (AGE_RANGE newDate p) in
  let spanWidth :=
    num_max (Fin (ageToX newDate p endAge - ageToX newDate p startAge))
      oneYearWidth in
  itemWidths newDate p !! item_id item = Some spanWidth
  /\ num_ltb spanWidth oneYearWidth = false
  /\ ((0 < TIMELINE_WIDTH p)%Q -> (0 < AGE_RANGE newDate p)%Q ->
      exists w : Q,
        spanWidth = Fin w
        /\ w = Qmax (ageToX newDate p endAge - ageToX newDate p startAge)
                    (TIMELINE_WIDTH p / AGE_RANGE newDate p)
        /\ (TIMELINE_WIDTH p / AGE_RANGE newDate p <= w)%Q
        /\ widthOr60 newDate p (item_id item) = Fin w).
Proof.
  intros Hin Hend startAge oneYearWidth spanWidth.
  assert (Hlook : itemWidths newDate p !! item_id item = Some spanWidth).
  { rewrite itemWidths_member by done. unfold itemWidth.
    rewrite getItemAges_member by done. by rewrite Hend. }
  split; [exact Hlook|]. split; [apply num_max_not_lt_r|].
  intros Hw Hr. subst spanWidth oneYearWidth. unfold num_div.
  assert (Hne : Qeqb (AGE_RANGE newDate p) 0 = false).
  { apply Qeqb_neq. lra. }
  eexists. split; [by rewrite Hne|]. split; [reflexivity|].
  split; [apply Q.le_max_r|].
  unfold widthOr60. rewrite Hlook. unfold num_div. rewrite Hne. simpl.
  assert (Hpos : (0 < TIMELINE_WIDTH p / AGE_RANGE newDate p)%Q).
  { apply Qlt_shift_div_l; lra. }
  assert (Hnz : Qeqb (Qmax (ageToX newDate p endAge
                            - ageToX newDate p startAge)
                        (TIMELINE_WIDTH p / AGE_RANGE newDate p)) 0 = false).
  { apply Qeqb_neq.
    pose proof (Q.le_max_r (ageToX newDate p endAge
                            - ageToX newDate p startAge)
                  (TIMELINE_WIDTH p / AGE_RANGE newDate p)).
    lra. }
  by rewrite Hnz.
Qed.

End GeometryFacts.

Section ZeroSpanFacts.

Variable newDate : string -> Date.
Variable p : TimelineProps.

(** C8, as the code has it.  When the displayed span is 0 the
    age-to-pixel mapping returns 0 for every age, whatever the items and
    the categories are.  The layout still draws: in an item list with
    distinct identifiers a milestone of a known category is drawn as a
    box centred at 0, of the finite width its title needs. *)
Theorem zero_span_layout :
  (AGE_RANGE newDate p == 0)%Q ->
  (forall age, ageToX newDate p age = 0%Q)
  /\ (NoDup (item_id <$> items p) ->
      forall item category,
        item ∈ items p ->
        getCategory p item = Some category ->
        end_age (deriveItemAges newDate item (dateOfBirth p) (ageRange p))
        = None ->
        let width := pointWidth p (item_title item) in
        let box := Box (Fin (0 - width / 2)) (Fin width) in
        renderItem newDate p item = Some box
        /\ box ∈ renderedItems newDate p
        /\ ~ renders_nothing newDate p).
Proof.
  intros Hzero.
  assert (Hx : forall age, ageToX newDate p age = 0%Q).
  { intros age. unfold ageToX.
    apply Qeqb_eq in Hzero. by rewrite Hzero. }
  split; [exact Hx|].
  intros Hids item category Hin Hcat Hend width box.
  assert (Hrender : renderItem newDate p item = Some box).
  { unfold renderItem. rewrite Hcat.
    rewrite (getItemAges_member newDate p Hids) by done. rewrite Hend, Hx.
    by rewrite (widthOr60_point newDate p Hids). }
  assert (Hbox : box ∈ renderedItems newDate p).
  { unfold renderedItems. apply list_elem_of_omap. by exists item. }
  split; [exact Hrender|]. split; [exact Hbox|].
  intros Hnothing. specialize (Hnothing box Hbox). discriminate.
Qed.

End ZeroSpanFacts.

(* ================================================================== *)
(** * Properties of the Display-Range Selector *)
(* ================================================================== *)

(** Names every [Qmax] and [Qmin] of the goal, keeps their defining
    cases as hypotheses and leaves linear arithmetic. *)
Ltac name_minmax :=
  repeat match goal with
    | |- context [Qmax ?a ?b] =>
        let H := fresh "Hmax" in
        let m := fresh "m" in
        pose proof (Q.max_spec a b) as H;
        set (m := Qmax a b) in *; clearbody m
    | |- context [Qmin ?a ?b] =>
        let H := fresh "Hmin" in
        let m := fresh "m" in
        pose proof (Q.min_spec a b) as H;
        set (m := Qmin a b) in *; clearbody m
    | _ : context [Qmax ?a ?b] |- _ =>
        let H := fresh "Hmax" in
        let m := fresh "m" in
        pose proof (Q.max_spec a b) as H;
        set (m := Qmax a b) in *; clearbody m
    | _ : context [Qmin ?a ?b] |- _ =>
        let H := fresh "Hmin" in
        let m := fresh "m" in
        pose proof (Q.min_spec a b) as H;
        set (m := Qmin a b) in *; clearbody m
    end.

Ltac split_minmax :=
  repeat match goal with
    | H : (_ /\ _) \/ (_ /\ _) |- _ => destruct H as [[? ?]|[? ?]]
    end.

Section DisplayRangeFacts.

Variable newDate : string -> Date.
Variable p : TimelineProps.

Lemma scanAges_fold (l : list TimelineItem) (acc : option Q * option Q) :
  is_Some (fst acc) -> is_Some (snd acc) ->
  exists mn mx,
    fold_left
      (fun acc item =>
         let ages :=
           deriveItemAges newDate item (dateOfBirth p) (ageRange p) in
         let itemEndAge := nullish (end_age ages) (start_age ages) in
         (scan_min (fst acc) (start_age ages),
          scan_max (snd acc) itemEndAge))
      l acc = (Some mn, Some mx).
Proof.
  revert acc. induction l as [|x l IH]; intros [a b] [mn Ha] [mx Hb]; simpl in *.
  - subst. by exists mn, mx.
  - apply IH; simpl; by eexists.
Qed.

(** After the scan of a non-empty item list both bounds are numbers. *)
Lemma scanAges_nonempty :
  items p ≠ [] -> exists mn mx, scanAges newDate p = (Some mn, Some mx).
Proof.
  intros Hne. unfold scanAges. destruct (items p) as [|x l]; [done|].
  simpl. apply scanAges_fold; simpl; by eexists.
Qed.

(** The cap keeps the window within the age range in the views [all]
    and [future], at the price of the range. *)
Lemma capDisplayRange_within (finalStart finalRange : Q) :
  (0 <= finalStart)%Q ->
  (viewMode p = view_future -> currentAge p <= finalStart)%Q ->
  viewMode p ≠ view_past ->
  let r := capDisplayRange p finalStart finalRange in
  (startAge r + displayRange r <= ageRange p)%Q
  /\ ((finalRange <= displayRange r)%Q
      \/ (startAge r + displayRange r == ageRange p)%Q).
Proof.
  intros Hpos Hfut Hpast r. subst r. unfold capDisplayRange.
  destruct (Qgtb (finalStart + finalRange) (ageRange p)) eqn:Hover.
  - apply Qgtb_gt in Hover.
    destruct (viewMode p) eqn:Hmode; [|done|]; simpl.
    + name_minmax. split_minmax; split; try lra; right; lra.
    + specialize (Hfut eq_refl).
      name_minmax. split_minmax; split; try lra; right; lra.
  - apply Qgtb_le in Hover. simpl. split; [lra|]. left. lra.
Qed.

(** In the view [past] the cap is idle when the current age lies within
    the age range. *)
Lemma capDisplayRange_past (finalStart finalRange : Q) :
  (finalStart + finalRange <= currentAge p)%Q ->
  (currentAge p <= ageRange p)%Q ->
  let r := capDisplayRange p finalStart finalRange in
  (startAge r + displayRange r <= ageRange p)%Q.
Proof.
  intros Hcur Hrange r. subst r. unfold capDisplayRange.
  destruct (Qgtb (finalStart + finalRange) (ageRange p)) eqn:Hover.
  - apply Qgtb_gt in Hover. lra.
  - apply Qgtb_le in Hover. simpl. lra.
Qed.

(** The start the selector hands to the cap is not negative and, in
    the view [future], not before the current age. *)
Lemma finalStart_bounds (calculatedStart : Q) :
  let finalStart :=
    if is_future (viewMode p)
    then Qmax (Qmax 0 calculatedStart) (currentAge p)
    else Qmax 0 calculatedStart in
  (0 <= finalStart)%Q
  /\ (viewMode p = view_future -> currentAge p <= finalStart)%Q.
Proof.
  destruct (viewMode p); cbn [is_future]; split.
  - apply Q.le_max_l.
  - intros Hmode. discriminate Hmode.
  - apply Q.le_max_l.
  - intros Hmode. discriminate Hmode.
  - name_minmax. split_minmax; lra.
  - intros _. apply Q.le_max_r.
Qed.

Lemma fitDisplayRange_within (minAge maxAge : Q) :
  viewMode p ≠ view_past \/ (currentAge p <= ageRange p)%Q ->
  let r := fitDisplayRange p minAge maxAge in
  (startAge r + displayRange r <= ageRange p)%Q.
Proof.
  intros Hcase r. subst r. unfold fitDisplayRange. cbv zeta.
  match goal with
  | |- context [capDisplayRange p ?s ?r] =>
      match s with
      | context [Qmax 0 ?cs] =>
          destruct (finalStart_bounds cs) as [Hpos Hfut];
          set (finalStart := s) in *; set (finalRange := r)
      end
  end.
  destruct (viewMode p) eqn:Hmode.
  - apply capDisplayRange_within; rewrite ?Hmode;
      [done|intros H; discriminate H|done].
  - destruct Hcase as [Hcase|Hcase]; [done|].
    apply capDisplayRange_past; [|done].
    subst finalRange. cbn [is_past andb].
    match goal with
    | |- context [Qgtb ?a ?b] => destruct (Qgtb a b) eqn:Hend
    end.
    + lra.
    + by apply Qgtb_le in Hend.
  - apply capDisplayRange_within; rewrite ?Hmode; [done|exact Hfut|done].
Qed.

Lemma fitDisplayRange_floor (minAge maxAge : Q) :
  viewMode p ≠ view_past ->
  let r := fitDisplayRange p minAge maxAge in
  (20 <= displayRange r)%Q
  \/ (startAge r + displayRange r == ageRange p)%Q.
Proof.
  intros Hpast r. subst r. unfold fitDisplayRange. cbv zeta.
  match goal with
  | |- context [capDisplayRange p ?s ?r] =>
      match s with
      | context [Qmax 0 ?cs] =>
          destruct (finalStart_bounds cs) as [Hpos Hfut];
          set (finalStart := s) in *; set (finalRange := r)
      end
  end.
  destruct (capDisplayRange_within finalStart finalRange Hpos Hfut Hpast)
    as [_ [Hle|Heq]]; [left|by right].
  apply Qle_trans with finalRange; [|exact Hle]. subst finalRange.
  destruct (viewMode p); [|done|]; cbn [is_past andb]; apply Q.le_max_r.
Qed.

(** C4, as the code has it.  With auto-scaling on and items to fit, the
    window ends within the age range in the views [all] and [future]
    (and in the view [past] when the current age does not exceed the age
    range), and its range is at least 20 unless the window was cut at the
    age range; without items the range is at least 20 in the views
    [future] and [past] and the window is [0, min(ageRange, 40)] in the
    view [all]. *)
Theorem calculateDisplayRange_bounds :
  autoScale p = true ->
  let r := calculateDisplayRange newDate p in
  (items p ≠ [] ->
   viewMode p ≠ view_past \/ (currentAge p <= ageRange p)%Q ->
   (startAge r + displayRange r <= ageRange p)%Q)
  /\ (items p ≠ [] -> viewMode p ≠ view_past ->
      (20 <= displayRange r)%Q
      \/ (startAge r + displayRange r == ageRange p)%Q)
  /\ (items p = [] -> viewMode p ≠ view_all -> (20 <= displayRange r)%Q)
  /\ (items p = [] -> viewMode p = view_all ->
      startAge r = 0%Q /\ displayRange r = Qmin (ageRange p) 40
      /\ (startAge r + displayRange r <= ageRange p)%Q).
Proof.
  intros Hauto r. subst r. unfold calculateDisplayRange. rewrite Hauto.
  cbn [negb]. split; [|split; [|split]].
  - intros Hne Hcase. destruct (scanAges_nonempty Hne) as (mn & mx & ->).
    destruct (items p); [done|]. by apply fitDisplayRange_within.
  - intros Hne Hpast. destruct (scanAges_nonempty Hne) as (mn & mx & ->).
    destruct (items p); [done|]. by apply fitDisplayRange_floor.
  - intros -> Hmode. unfold emptyDisplayRange.
    destruct (viewMode p); [done| |]; cbn [displayRange]; apply Q.le_max_r.
  - intros -> Hmode. unfold emptyDisplayRange. rewrite Hmode.
    cbn [startAge displayRange]. split; [done|]. split; [done|].
    pose proof (Q.le_min_l (ageRange p) 40). lra.
Qed.

End DisplayRangeFacts.

(* ================================================================== *)
(** * The examples of the specification, evaluated *)
(* ================================================================== *)

Example isoDate_sample : isoDate "2010-06-15" = YMD 2010 5 15.
Proof. reflexivity. Qed.

(** Example 8: a month span of 1 gives a milestone at age 10. *)
Example shortStay_milestone :
  calculateMonthsDiff isoDate (Some "2010-06-15"%string)
    (Some "2010-08-01"%string) = Some 1
  /\ deriveItemAges isoDate shortStay "2000-01-01" 80
     = {| start_age := inject_Z 10; end_age := None |}.
Proof. split; reflexivity. Qed.

(** Example 7: A and B take lanes 0 and 1; C, which starts where A ends,
    joins A in lane 0. *)
Example example_lanes :
  assignStackPositions isoDate exampleProps exampleItems !! 1 = Some 0%nat
  /\ assignStackPositions isoDate exampleProps exampleItems !! 2 = Some 1%nat
  /\ assignStackPositions isoDate exampleProps exampleItems !! 3 = Some 0%nat
  /\ categoryMaxStacks isoDate exampleProps !! 1 = Some 2%nat.
Proof. repeat split; vm_compute; reflexivity. Qed.

Example example_overlaps :
  itemsOverlap isoDate exampleProps itemA itemB = true
  /\ itemsOverlap isoDate exampleProps itemA itemC = false.
Proof. split; vm_compute; reflexivity. Qed.

(* ================================================================== *)
(** * Instances of the theorems *)
(* ================================================================== *)

(** Spans of 2, 3, 12 and 13 months from 2010-06-15: a milestone, two
    one-year spans, and the age at the end date (11, two years after the
    start age 9, for a birth on 2000-07-01). *)
Lemma deriveItemAges_month_thresholds_witness :
  end_age (deriveItemAges isoDate span2 "2000-01-01" 80) = None
  /\ end_age (deriveItemAges isoDate span3 "2000-01-01" 80)
     = Some (start_age (deriveItemAges isoDate span3 "2000-01-01" 80) + 1)%Q
  /\ end_age (deriveItemAges isoDate span12 "2000-01-01" 80)
     = Some (start_age (deriveItemAges isoDate span12 "2000-01-01" 80) + 1)%Q
  /\ start_age (deriveItemAges isoDate span13 "2000-07-01" 80) = inject_Z 9
  /\ end_age (deriveItemAges isoDate span13 "2000-07-01" 80)
     = Some (inject_Z 11).
Proof.
  split; [|split; [|split; [|split]]].
  - refine (proj1 (proj2 (deriveItemAges_month_thresholds isoDate span2
             "2000-01-01" 80 "2010-06-15" "2010-08-15" 2
             _ _ _ _ _ _ _)) _);
      try reflexivity; try discriminate; lia.
  - refine (proj1 (proj2 (proj2 (deriveItemAges_month_thresholds isoDate span3
             "2000-01-01" 80 "2010-06-15" "2010-09-15" 3
             _ _ _ _ _ _ _))) _);
      try reflexivity; try discriminate; lia.
  - refine (proj1 (proj2 (proj2 (deriveItemAges_month_thresholds isoDate span12
             "2000-01-01" 80 "2010-06-15" "2011-06-15" 12
             _ _ _ _ _ _ _))) _);
      try reflexivity; try discriminate; lia.
  - refine (proj1 (deriveItemAges_month_thresholds isoDate span13
             "2000-07-01" 80 "2010-06-15" "2011-07-15" 13
             _ _ _ _ _ _ _));
      try reflexivity; discriminate.
  - refine (proj2 (proj2 (proj2 (deriveItemAges_month_thresholds isoDate span13
             "2000-07-01" 80 "2010-06-15" "2011-07-15" 13
             _ _ _ _ _ _ _))) _ 11 _);
      try reflexivity; try discriminate; lia.
Defined.

(** The age range drops from 80 to 60: the end follows it. *)
Lemma deriveItemAges_use_max_age_witness :
  end_age (deriveItemAges isoDate untilMax "2000-01-01" 80) = Some 80%Q
  /\ end_age (deriveItemAges isoDate untilMax "2000-01-01" 60) = Some 60%Q.
Proof.
  split.
  - apply (deriveItemAges_use_max_age isoDate untilMax). reflexivity.
  - apply (deriveItemAges_use_max_age isoDate untilMax). reflexivity.
Defined.

Lemma deriveItemAges_date_without_start_witness :
  deriveItemAges isoDate dateless "2000-01-01" 80
  = {| start_age := 12; end_age := Some 14%Q |}.
Proof.
  apply (deriveItemAges_date_without_start isoDate dateless).
  - reflexivity.
  - right. reflexivity.
Defined.

Lemma exampleItems_ids : NoDup (item_id <$> exampleItems).
Proof.
  apply (bool_decide_unpack _). vm_compute. exact I.
Qed.

Lemma itemA_ne_itemC : itemA ≠ itemC.
Proof. intros H. apply (f_equal item_id) in H. discriminate H. Qed.

(** A and C share lane 0 and do not overlap. *)
Lemma assignStackPositions_no_overlap_witness :
  itemsOverlap isoDate exampleProps itemA itemC = false.
Proof.
  apply (assignStackPositions_no_overlap isoDate exampleProps exampleItems
           itemA itemC 0%nat).
  - exact exampleItems_ids.
  - apply list_elem_of_here.
  - do 2 apply list_elem_of_further. apply list_elem_of_here.
  - exact itemA_ne_itemC.
  - vm_compute. reflexivity.
  - vm_compute. reflexivity.
Defined.


Lemma milestoneProps_ids : NoDup (item_id <$> items milestoneProps).
Proof. apply (bool_decide_unpack _). vm_compute. exact I. Qed.

(** The boxes of the milestones B (at 22) and D (at 23), each 76.6 wide,
    intersect; those of B and of the milestone at 75 do not; the span A
    and the milestone B are compared by their time extents. *)
Lemma itemsOverlap_spec_witness :
  (spec_overlap isoDate milestoneProps itemB itemD
   /\ itemsOverlap isoDate milestoneProps itemB itemD = true)
  /\ (~ spec_overlap isoDate milestoneProps itemB lateMilestone
      /\ itemsOverlap isoDate milestoneProps itemB lateMilestone = false)
  /\ (itemsOverlap isoDate exampleProps itemA itemB = true
      <-> spec_overlap isoDate exampleProps itemA itemB).
Proof.
  split; [|split].
  - assert (Hs : spec_overlap isoDate milestoneProps itemB itemD)
      by (vm_compute; split; reflexivity).
    split; [exact Hs|].
    refine (proj2 (proj1 (itemsOverlap_spec isoDate milestoneProps
                            milestoneProps_ids itemB itemD _ _)) Hs).
    + apply list_elem_of_here.
    + apply list_elem_of_further. apply list_elem_of_here.
  - assert (Hn : ~ spec_overlap isoDate milestoneProps itemB lateMilestone).
    { intros H. vm_compute in H. destruct H as [H _]. discriminate H. }
    split; [exact Hn|].
    destruct (itemsOverlap isoDate milestoneProps itemB lateMilestone)
      eqn:Ho; [|reflexivity].
    exfalso. apply Hn.
    refine (proj1 (proj1 (itemsOverlap_spec isoDate milestoneProps
                            milestoneProps_ids itemB lateMilestone _ _)) Ho).
    + apply list_elem_of_here.
    + do 2 apply list_elem_of_further. apply list_elem_of_here.
  - refine (proj1 (itemsOverlap_spec isoDate exampleProps _ itemA itemB _ _)).
    + exact exampleItems_ids.
    + apply list_elem_of_here.
    + apply list_elem_of_further. apply list_elem_of_here.
Defined.

(** The span A, from 20 to 25 of 80 years on 1200 pixels: 75 pixels,
    against 15 for one year. *)
Lemma itemWidths_span_witness :
  itemWidths isoDate exampleProps !! item_id itemA
  = Some (num_max
            (Fin (ageToX isoDate exampleProps 25
                  - ageToX isoDate exampleProps 20))
            (num_div (TIMELINE_WIDTH exampleProps)
               (AGE_RANGE isoDate exampleProps))).
Proof.
  refine (proj1 (itemWidths_span isoDate exampleProps _ itemA 25%Q _ _)).
  - exact exampleItems_ids.
  - apply list_elem_of_here.
  - reflexivity.
Defined.

Example itemA_width :
  widthOr60 isoDate exampleProps 1 = Fin (480000 # 6400)
  /\ (480000 # 6400 == 75)%Q.
Proof. split; [vm_compute; reflexivity|reflexivity]. Qed.

(* ================================================================== *)
(** * Where the code departs from the specification *)
(* ================================================================== *)

(** C4 fails in the future view at age 70 of an age range of 80 with a
    milestone at 75: the window is [70, 80], of range 10. *)
Lemma futureProps_range_below_floor :
  calculateDisplayRange isoDate futureProps
  = {| startAge := 70; displayRange := 10 |}
  /\ ~ ((20 <= displayRange (calculateDisplayRange isoDate futureProps))%Q
        /\ (startAge (calculateDisplayRange isoDate futureProps)
            + displayRange (calculateDisplayRange isoDate futureProps)
            <= ageRange futureProps)%Q).
Proof.
  assert (Hr : calculateDisplayRange isoDate futureProps
               = {| startAge := 70; displayRange := 10 |})
    by (vm_compute; reflexivity).
  split; [exact Hr|]. rewrite Hr. simpl. intros [Hfloor _].
  apply Qle_bool_iff in Hfloor. discriminate Hfloor.
Qed.

(** The same view without items keeps the floor and ends at 90, past
    the age range. *)
Example futureEmptyProps_past_age_range :
  calculateDisplayRange isoDate futureEmptyProps
  = {| startAge := 70; displayRange := 20 |}.
Proof. vm_compute. reflexivity. Qed.

(** With an age range of 10 the whole-life window has range 10. *)
Example shortLifeProps_range :
  calculateDisplayRange isoDate shortLifeProps
  = {| startAge := 0; displayRange := 10 |}.
Proof. vm_compute. reflexivity. Qed.

(** In the past view at an age beyond the age range both bounds fail. *)
Example pastProps_range :
  calculateDisplayRange isoDate pastProps
  = {| startAge := 90; displayRange := 10 |}.
Proof. vm_compute. reflexivity. Qed.

Lemma calculateDisplayRange_bounds_witness :
  (startAge (calculateDisplayRange isoDate futureProps)
   + displayRange (calculateDisplayRange isoDate futureProps)
   <= ageRange futureProps)%Q.
Proof.
  refine (proj1 (calculateDisplayRange_bounds isoDate futureProps _) _ _).
  - reflexivity.
  - discriminate.
  - left. discriminate.
Defined.

(** C8 fails for an age range of 0 with one milestone: the displayed
    span is 0 and the milestone is drawn. *)
Lemma zeroSpanProps_renders :
  (AGE_RANGE isoDate zeroSpanProps == 0)%Q
  /\ ~ renders_nothing isoDate zeroSpanProps.
Proof.
  split; [reflexivity|]. unfold renders_nothing. intros Hnothing.
  destruct (renderedItems isoDate zeroSpanProps) as [|shape rest] eqn:Hdrawn.
  - vm_compute in Hdrawn. discriminate Hdrawn.
  - specialize (Hnothing shape (list_elem_of_here _ _)). subst shape.
    vm_compute in Hdrawn. discriminate Hdrawn.
Qed.

(** For a span the width of one year is the quotient of a division by
    the zero span, and the bar is drawn with an infinite width. *)
Example zeroSpanBarProps_divides_by_zero :
  num_div (TIMELINE_WIDTH zeroSpanBarProps)
    (AGE_RANGE isoDate zeroSpanBarProps) = PosInf
  /\ itemWidths isoDate zeroSpanBarProps !! 42 = Some PosInf
  /\ renderedItems isoDate zeroSpanBarProps = [Bar (Fin 0) PosInf].
Proof. repeat split; vm_compute; reflexivity. Qed.

Lemma zero_span_layout_witness :
  renderItem isoDate zeroSpanProps born
  = Some (Box (Fin (0 - pointWidth zeroSpanProps (item_title born) / 2))
              (Fin (pointWidth zeroSpanProps (item_title born)))).
Proof.
  refine (proj1 (proj2 (zero_span_layout isoDate zeroSpanProps _) _
                   born projects _ _ _)).
  - reflexivity.
  - apply (bool_decide_unpack _). vm_compute. exact I.
  - apply list_elem_of_here.
  - vm_compute. reflexivity.
  - reflexivity.
Defined.

(** C2 fails in a host west of UTC.  The dates 2010-12-01 and
    2011-03-01 are three months apart and, read at UTC, give a one-year
    span.  West of UTC the getters return 30 November and 28 February:
    the count is 2 and the item is a milestone. *)
Theorem three_months_apart_west_of_utc :
  isoDate "2010-12-01" = YMD 2010 11 1
  /\ isoDate "2011-03-01" = YMD 2011 2 1
  /\ calculateMonthsDiff isoDate (Some "2010-12-01"%string)
       (Some "2011-03-01"%string) = Some 3
  /\ end_age (deriveItemAges isoDate winterStay "2000-01-01" 80)
     = Some (start_age (deriveItemAges isoDate winterStay "2000-01-01" 80)
             + 1)%Q
  /\ westDate "2010-12-01" = YMD 2010 10 30
  /\ westDate "2011-03-01" = YMD 2011 1 28
  /\ calculateMonthsDiff westDate (Some "2010-12-01"%string)
       (Some "2011-03-01"%string) = Some 2
  /\ end_age (deriveItemAges westDate winterStay "2000-01-01" 80) = None.
Proof. repeat split; vm_compute; reflexivity. Qed.

(** C6 fails when an existing category is moved to the last position of
    its section: the form accepts the order 2 for a section of two, no
    renumbering takes place, and the section is left with the orders 2
    and 1. *)
Theorem edit_to_last_position_leaves_gap :
  CategoryManager.dense top (CategoryManager.categories managerStart)
  /\ CategoryManager.sectionOrders top
       (CategoryManager.categories managerMovedLast) = [2; 1]
  /\ ~ CategoryManager.dense top
         (CategoryManager.categories managerMovedLast).
Proof.
  split; [|split].
  - unfold CategoryManager.dense. vm_compute. reflexivity.
  - vm_compute. reflexivity.
  - unfold CategoryManager.dense.
    replace (CategoryManager.sectionOrders top
               (CategoryManager.categories managerMovedLast))
      with [2; 1] by (vm_compute; reflexivity).
    replace (map Z.of_nat
               (seq 0 (length (CategoryManager.inSection top
                         (CategoryManager.categories managerMovedLast)))))
      with [0; 1] by (vm_compute; reflexivity).
    intros Hperm.
    assert (Hin : 0 ∈ [2; 1]).
    { rewrite Hperm. apply list_elem_of_here. }
    apply elem_of_cons in Hin as [Hin|Hin]; [discriminate Hin|].
    apply elem_of_cons in Hin as [Hin|Hin]; [discriminate Hin|].
    by apply elem_of_nil in Hin.
Qed.

(** Moving a category to the other section leaves the section it came
    from with the single order 1. *)
Example move_to_other_section_leaves_gap :
  CategoryManager.sectionOrders top
    (CategoryManager.categories managerMovedSection) = [1]
  /\ CategoryManager.sectionOrders bottom
       (CategoryManager.categories managerMovedSection) = [0].
Proof. split; vm_compute; reflexivity. Qed.

(** Adding at the head and deleting renumber the section. *)
Example add_and_delete_renumber :
  CategoryManager.sectionOrders top
    (CategoryManager.categories managerAddedFirst) = [1; 2; 0]
  /\ CategoryManager.sectionOrders top
       (CategoryManager.categories managerDeletedFirst) = [0].
Proof. split; vm_compute; reflexivity. Qed.

(* ================================================================== *)
(** * Further properties of the age calculator *)
(* ================================================================== *)

Section AgeCalculatorFacts.

Variable newDate : string -> Date.

(** X1. The age at an event never decreases when the event moves to a
    later calendar date. *)
Theorem calculateAgeAtDate_monotone
  (ev1 ev2 dob : string) (y1 m1 d1 y2 m2 d2 byr bm bd : Z) :
  ev1 ≠ EmptyString -> ev2 ≠ EmptyString -> dob ≠ EmptyString ->
  newDate ev1 = YMD y1 m1 d1 -> newDate ev2 = YMD y2 m2 d2 ->
  newDate dob = YMD byr bm bd ->
  y1 < y2 \/ (y1 = y2 /\ (m1 < m2 \/ (m1 = m2 /\ d1 <= d2))) ->
  exists a1 a2,
    calculateAgeAtDate newDate (Some ev1) (Some dob) = Some a1
    /\ calculateAgeAtDate newDate (Some ev2) (Some dob) = Some a2
    /\ a1 <= a2.
Proof.
  intros H1 H2 Hd Hn1 Hn2 Hnd Hle.
  rewrite (calculateAgeAtDate_valid newDate ev1 dob _ _ _ _ _ _ H1 Hd Hn1 Hnd).
  rewrite (calculateAgeAtDate_valid newDate ev2 dob _ _ _ _ _ _ H2 Hd Hn2 Hnd).
  eexists _, _. split; [reflexivity|]. split; [reflexivity|].
  destruct (Z.ltb_spec (m1 - bm) 0), (Z.eqb_spec (m1 - bm) 0),
           (Z.ltb_spec d1 bd), (Z.ltb_spec (m2 - bm) 0),
           (Z.eqb_spec (m2 - bm) 0), (Z.ltb_spec d2 bd); simpl; lia.
Qed.

(** X2. For months counted from 0 to 11, the age at an event is the
    number of whole months since the birth date divided by 12. *)
Theorem calculateAgeAtDate_months_div_12
  (ev dob : string) (y m d byr bm bd : Z) :
  ev ≠ EmptyString -> dob ≠ EmptyString ->
  newDate ev = YMD y m d -> newDate dob = YMD byr bm bd ->
  0 <= m <= 11 -> 0 <= bm <= 11 ->
  exists months,
    calculateMonthsDiff newDate (Some dob) (Some ev) = Some months
    /\ calculateAgeAtDate newDate (Some ev) (Some dob) = Some (months / 12).
Proof.
  intros He Hd Hne Hnd Hm Hbm.
  rewrite (calculateMonthsDiff_valid newDate dob ev _ _ _ _ _ _ Hd He Hnd Hne).
  rewrite (calculateAgeAtDate_valid newDate ev dob _ _ _ _ _ _ He Hd Hne Hnd).
  eexists. split; [reflexivity|]. f_equal.
  destruct (Z.ltb_spec (m - bm) 0), (Z.eqb_spec (m - bm) 0),
           (Z.ltb_spec d bd), (Z.ltb_spec (d - bd) 0); simpl;
    try lia; Z.div_mod_to_equations; lia.
Qed.

(** X3. With months counted from 0 to 11, every span that the
    normaliser derives from dates ([use_max_age] unset) ends at least one
    year after it starts, also when the date of birth is missing. *)
Theorem deriveItemAges_date_span_one_year
  (item : TimelineItem) (dob : string) (ageRange endAge : Q) :
  (forall s y m d, newDate s = YMD y m d -> 0 <= m <= 11) ->
  item_input_mode item = Some date_mode ->
  truthy_string (item_start_date item) = true ->
  truthy_bool (item_use_max_age item) = false ->
  end_age (deriveItemAges newDate item dob ageRange) = Some endAge ->
  (start_age (deriveItemAges newDate item dob ageRange) + 1 <= endAge)%Q.
Proof.
  intros Hrange Hmode Hsd Hmax. unfold deriveItemAges.
  rewrite Hmode, Hsd, Hmax. cbn [is_date_mode andb].
  destruct (truthy_string (item_end_date item)) eqn:Hed; cbn [negb];
    [|discriminate].
  destruct (calculateMonthsDiff newDate (item_start_date item)
              (item_end_date item)) as [months|] eqn:Hmo; [|discriminate].
  destruct (Z.ltb_spec months 3) as [Hlt|Hge]; [discriminate|].
  destruct (Z.leb_spec months 12) as [Hle|Hgt].
  { cbn [start_age end_age]. intros [= <-]. apply Qle_refl. }
  cbn [start_age end_age]. intros [= <-].
  unfold calculateMonthsDiff in Hmo. rewrite Hsd, Hed in Hmo.
  cbn [negb orb] in Hmo.
  unfold calculateAgeAtDate. rewrite Hsd, Hed. cbn [negb orb].
  destruct (newDate (nullish (item_start_date item) EmptyString))
    as [|sy sm sday] eqn:Hns; [discriminate|].
  destruct (newDate (nullish (item_end_date item) EmptyString))
    as [|ey em eday] eqn:Hne; [discriminate|].
  pose proof (Hrange _ _ _ _ Hns) as Hsm.
  pose proof (Hrange _ _ _ _ Hne) as Hem.
  destruct (truthy_string (Some dob)); cbn [negb];
    [|cbn; apply Qle_refl].
  cbn [nullish].
  destruct (newDate dob) as [|byr bm bd]; [cbn; apply Qle_refl|].
  assert (Hmonths : months = if eday - sday <? 0
                             then (ey - sy) * 12 + (em - sm) - 1
                             else (ey - sy) * 12 + (em - sm)).
  { destruct (eday - sday <? 0); congruence. }
  clear Hmo.
  destruct ((sm - bm <? 0) || (sm - bm =? 0) && (sday <? bd)) eqn:Hbs,
           ((em - bm <? 0) || (em - bm =? 0) && (eday <? bd)) eqn:Hbe;
    cbn [nullish fmap option_fmap option_map];
    change 1%Q with (inject_Z 1); rewrite <- inject_Z_plus, <- Zle_Qle;
    revert Hbs Hbe Hmonths;
    destruct (Z.ltb_spec (eday - sday) 0),
             (Z.ltb_spec (sm - bm) 0), (Z.eqb_spec (sm - bm) 0),
             (Z.ltb_spec sday bd), (Z.ltb_spec (em - bm) 0),
             (Z.eqb_spec (em - bm) 0), (Z.ltb_spec eday bd);
    simpl; intros; try discriminate; lia.
Qed.

End AgeCalculatorFacts.

(* ================================================================== *)
(** * Further properties of the window and of the pixel mapping *)
(* ================================================================== *)

Section WindowFacts.

Variable newDate : string -> Date.
Variable p : TimelineProps.

(** For a span that is not zero the mapping is affine in the age. *)
Lemma ageToX_affine (age : Q) :
  ~ (AGE_RANGE newDate p == 0)%Q ->
  (ageToX newDate p age
   == (age - START_AGE newDate p)
      * (TIMELINE_WIDTH p / AGE_RANGE newDate p))%Q.
Proof.
  intros Hne. unfold ageToX.
  apply Qeqb_neq in Hne. rewrite Hne. cbv zeta.
  apply Qeqb_neq in Hne. field. exact Hne.
Qed.

(** X4. For a positive displayed span and timeline width the mapping is
    strictly increasing, an age lies in the window exactly when its
    position lies in [[0, TIMELINE_WIDTH]], and consecutive years are one
    year-width apart. *)
Theorem ageToX_window :
  (0 < AGE_RANGE newDate p)%Q -> (0 < TIMELINE_WIDTH p)%Q ->
  (forall a b, (a < b <-> ageToX newDate p a < ageToX newDate p b)%Q)
  /\ (forall a,
        (START_AGE newDate p <= a
         /\ a <= START_AGE newDate p + AGE_RANGE newDate p
         <-> 0 <= ageToX newDate p a
             /\ ageToX newDate p a <= TIMELINE_WIDTH p)%Q)
  /\ (forall a,
        (ageToX newDate p (a + 1) - ageToX newDate p a
         == TIMELINE_WIDTH p / AGE_RANGE newDate p)%Q).
Proof.
  intros Hr Hw.
  assert (Hne : ~ (AGE_RANGE newDate p == 0)%Q) by lra.
  assert (Hk : (0 < TIMELINE_WIDTH p / AGE_RANGE newDate p)%Q).
  { apply Qlt_shift_div_l; lra. }
  assert (Hwk : (TIMELINE_WIDTH p
                 == AGE_RANGE newDate p
                    * (TIMELINE_WIDTH p / AGE_RANGE newDate p))%Q).
  { field. exact Hne. }
  set (k := (TIMELINE_WIDTH p / AGE_RANGE newDate p)%Q) in *.
  split; [|split].
  - intros a b. rewrite !ageToX_affine by exact Hne. fold k.
    rewrite (Qmult_lt_r _ _ k Hk). split; intros; lra.
  - intros a. rewrite !ageToX_affine by exact Hne. fold k.
    pose proof (Qmult_le_r (a - START_AGE newDate p) (AGE_RANGE newDate p)
                  k Hk) as [H1 H2].
    pose proof (Qmult_le_r 0 (a - START_AGE newDate p) k Hk) as [H3 H4].
    split; intros [Ha Hb]; split.
    + assert (0 * k <= (a - START_AGE newDate p) * k)%Q
        by (apply H4; lra). lra.
    + assert ((a - START_AGE newDate p) * k <= AGE_RANGE newDate p * k)%Q
        by (apply H2; lra). lra.
    + assert (0 <= a - START_AGE newDate p)%Q by (apply H3; lra). lra.
    + assert (a - START_AGE newDate p <= AGE_RANGE newDate p)%Q
        by (apply H1; lra). lra.
  - intros a. rewrite !ageToX_affine by exact Hne. fold k. ring.
Qed.

(** The cap, in the views [all] and [future], leaves the start where it
    is and cuts the range at the age range. *)
Lemma capDisplayRange_exact (finalStart finalRange : Q) :
  (0 <= finalStart)%Q ->
  (viewMode p = view_future -> currentAge p <= finalStart)%Q ->
  viewMode p ≠ view_past ->
  let r := capDisplayRange p finalStart finalRange in
  (startAge r == finalStart)%Q
  /\ (displayRange r == Qmin finalRange (ageRange p - finalStart))%Q.
Proof.
  intros Hpos Hfut Hpast r. subst r. unfold capDisplayRange.
  destruct (Qgtb (finalStart + finalRange) (ageRange p)) eqn:Hover.
  - apply Qgtb_gt in Hover.
    destruct (viewMode p) eqn:Hmode; [|done|]; cbn [startAge displayRange].
    + name_minmax. split_minmax; split; lra.
    + specialize (Hfut eq_refl).
      name_minmax. split_minmax; split; lra.
  - apply Qgtb_le in Hover. cbn [startAge displayRange].
    name_minmax. split_minmax; split; lra.
Qed.

(** The start and range handed to the cap by [fitDisplayRange]. *)
Lemma fitDisplayRange_cap (minAge maxAge : Q) :
  exists finalStart finalRange,
    fitDisplayRange p minAge maxAge
    = capDisplayRange p finalStart finalRange
    /\ (0 <= finalStart)%Q
    /\ (viewMode p = view_future -> currentAge p <= finalStart)%Q
    /\ (viewMode p = view_past ->
        finalStart + finalRange <= currentAge p)%Q
    /\ (viewMode p ≠ view_past ->
        inject_Z (Qceiling (maxAge + 5)) <= finalStart + finalRange)%Q
    /\ (0 <= minAge ->
        viewMode p = view_all \/ viewMode p = view_past ->
        finalStart <= minAge)%Q
    /\ (0 <= minAge -> viewMode p = view_future ->
        finalStart <= Qmax minAge (currentAge p))%Q
    /\ (viewMode p = view_past ->
        Qmin (currentAge p) (inject_Z (Qceiling (maxAge + 5)))
        <= finalStart + finalRange)%Q.
Proof.
  unfold fitDisplayRange. cbv zeta.
  match goal with
  | |- context [capDisplayRange p ?s ?r] =>
      match s with
      | context [Qmax 0 ?cs] =>
          destruct (finalStart_bounds p cs) as [Hpos Hfut];
          exists s, r
      end
  end.
  split; [reflexivity|]. split; [exact Hpos|]. split; [exact Hfut|].
  clear Hpos Hfut.
  set (padding := if Qgtb (maxAge - minAge) 0
                  then Qmax ((maxAge - minAge) * (1 # 10)) 5 else 5%Q).
  assert (Hpad : (5 <= padding)%Q).
  { subst padding. destruct (Qgtb (maxAge - minAge) 0);
      [apply Q.le_max_r|apply Qle_refl]. }
  pose proof (Qfloor_le (minAge - padding)) as Hfloor.
  assert (Hceil : (inject_Z (Qceiling (maxAge + 5))
                   <= inject_Z (Qceiling (maxAge + padding)))%Q).
  { rewrite <- Zle_Qle. apply Qceiling_resp_le. lra. }
  set (lo := inject_Z (Qfloor (minAge - padding))) in *.
  set (hi := inject_Z (Qceiling (maxAge + padding))) in *.
  clearbody lo hi padding.
  split; [|split; [|split; [|split]]].
  - intros Hmode. rewrite Hmode. cbn [is_past is_future andb].
    match goal with
    | |- (?s + (if Qgtb (?s + ?r0) ?c then _ else _) <= _)%Q =>
        generalize s r0; intros S R0;
        destruct (Qgtb (S + R0) c) eqn:Hend
    end.
    + lra.
    + by apply Qgtb_le in Hend.
  - intros Hmode.
    destruct (viewMode p); [|done|]; cbn [is_past is_future andb].
    + name_minmax. split_minmax; lra.
    + destruct (Qltb (Qmax 0 lo) (currentAge p)) eqn:Hlt;
        [apply Qltb_lt in Hlt|apply Qltb_ge in Hlt];
        name_minmax; split_minmax; lra.
  - intros Hmin [Hmode|Hmode]; rewrite Hmode; cbn [is_past is_future andb].
    + name_minmax. split_minmax; lra.
    + destruct (Qgtb hi (currentAge p)) eqn:Hhi.
      * destruct (Qltb (currentAge p - Qmax 0 lo) 20) eqn:Hlt;
          [apply Qltb_lt in Hlt|apply Qltb_ge in Hlt];
          name_minmax; split_minmax; lra.
      * name_minmax. split_minmax; lra.
  - intros Hmin Hmode. rewrite Hmode. cbn [is_past is_future andb].
    destruct (Qltb (Qmax 0 lo) (currentAge p)) eqn:Hlt;
      [apply Qltb_lt in Hlt|apply Qltb_ge in Hlt];
      name_minmax; split_minmax; lra.
  - intros Hmode. rewrite Hmode. cbn [is_past is_future andb].
    match goal with
    | |- (_ <= Qmax 0 ?cs + _)%Q => generalize cs; intros start0
    end.
    match goal with
    | |- context [if Qgtb ?a ?b then _ else _] =>
        destruct (Qgtb a b) eqn:Hover
    end; name_minmax; split_minmax; lra.
Qed.

(** In the view [past] the cap is idle when the window ends at or
    before a current age within the age range. *)
Lemma capDisplayRange_past_idle (finalStart finalRange : Q) :
  (finalStart + finalRange <= currentAge p)%Q ->
  (currentAge p <= ageRange p)%Q ->
  capDisplayRange p finalStart finalRange
  = {| startAge := finalStart; displayRange := finalRange |}.
Proof.
  intros Hcur Hrange. unfold capDisplayRange.
  destruct (Qgtb (finalStart + finalRange) (ageRange p)) eqn:Hover; [|done].
  apply Qgtb_gt in Hover. lra.
Qed.

(** In the view [past] the capped window still ends at or before the
    current age. *)
Lemma capDisplayRange_past_end (finalStart finalRange : Q) :
  viewMode p = view_past ->
  (0 <= finalStart)%Q ->
  (finalStart + finalRange <= currentAge p)%Q ->
  let r := capDisplayRange p finalStart finalRange in
  (startAge r + displayRange r <= currentAge p)%Q.
Proof.
  intros Hmode Hpos Hcur r. subst r. unfold capDisplayRange. rewrite Hmode.
  destruct (Qgtb (finalStart + finalRange) (ageRange p)) eqn:Hover;
    cbn [startAge displayRange]; [|done].
  name_minmax. split_minmax; lra.
Qed.

Lemma capDisplayRange_start_nonneg (finalStart finalRange : Q) :
  (0 <= finalStart)%Q -> (0 <= currentAge p)%Q ->
  (0 <= startAge (capDisplayRange p finalStart finalRange))%Q.
Proof.
  intros Hpos Hcur. unfold capDisplayRange.
  destruct (Qgtb (finalStart + finalRange) (ageRange p));
    [|done].
  destruct (viewMode p); cbn [startAge];
    name_minmax; split_minmax; lra.
Qed.

(** The bounds found by the scan of the items: below every start, above
    every end, and the lower one is the start of some item. *)
Lemma scanAges_fold_bounds (l : list TimelineItem)
  (acc : option Q * option Q) (mn mx : Q) :
  fold_left
    (fun acc item =>
       let ages :=
         deriveItemAges newDate item (dateOfBirth p) (ageRange p) in
       let itemEndAge := nullish (end_age ages) (start_age ages) in
       (scan_min (fst acc) (start_age ages),
        scan_max (snd acc) itemEndAge))
    l acc = (Some mn, Some mx) ->
  (forall a0, fst acc = Some a0 -> mn <= a0)%Q
  /\ (forall b0, snd acc = Some b0 -> b0 <= mx)%Q
  /\ (forall item, item ∈ l ->
        let ages :=
          deriveItemAges newDate item (dateOfBirth p) (ageRange p) in
        (mn <= start_age ages
         /\ nullish (end_age ages) (start_age ages) <= mx)%Q)
  /\ ((exists a0, fst acc = Some a0 /\ (mn == a0)%Q)
      \/ exists item, item ∈ l
           /\ (mn == start_age (deriveItemAges newDate item (dateOfBirth p)
                                  (ageRange p)))%Q).
Proof.
  revert acc. induction l as [|x l IH]; intros [a b] Hfold; simpl in Hfold.
  - injection Hfold as -> ->. simpl.
    split; [intros a0 [= <-]; apply Qle_refl|].
    split; [intros b0 [= <-]; apply Qle_refl|].
    split; [intros item Hin; by apply elem_of_nil in Hin|].
    left. exists mn. split; [done|reflexivity].
  - destruct (IH _ Hfold) as (Ha & Hb & Hall & Hmin). clear IH Hfold.
    simpl in Ha, Hb, Hmin.
    set (ages := deriveItemAges newDate x (dateOfBirth p) (ageRange p)) in *.
    specialize (Ha _ eq_refl). specialize (Hb _ eq_refl).
    assert (Hx : (mn <= start_age ages
                  /\ nullish (end_age ages) (start_age ages) <= mx)%Q).
    { destruct a, b; revert Ha Hb; name_minmax; intros;
        split_minmax; split; lra. }
    split; [|split; [|split]].
    + intros a0 Ha0. simpl in Ha0. subst a. revert Ha.
      name_minmax. intros. split_minmax; lra.
    + intros b0 Hb0. simpl in Hb0. subst b. revert Hb.
      name_minmax. intros. split_minmax; lra.
    + intros item Hin. apply elem_of_cons in Hin as [->|Hin];
        [exact Hx|by apply Hall].
    + destruct Hmin as [(a' & Ha' & Heq)|(item & Hin & Heq)].
      * injection Ha' as <-. destruct a as [a0|]; simpl.
        -- destruct (Q.min_spec a0 (start_age ages)) as [[_ Hm]|[_ Hm]].
           ++ left. exists a0. split; [done|]. by rewrite Heq.
           ++ right. exists x. split; [apply list_elem_of_here|].
              by rewrite Heq.
        -- right. exists x. split; [apply list_elem_of_here|exact Heq].
      * right. exists item. split; [by apply list_elem_of_further|exact Heq].
Qed.

Lemma scanAges_bounds (mn mx : Q) :
  scanAges newDate p = (Some mn, Some mx) ->
  (forall item, item ∈ items p ->
     let ages := deriveItemAges newDate item (dateOfBirth p) (ageRange p) in
     (mn <= start_age ages
      /\ nullish (end_age ages) (start_age ages) <= mx)%Q)
  /\ exists item, item ∈ items p
       /\ (mn == start_age (deriveItemAges newDate item (dateOfBirth p)
                              (ageRange p)))%Q.
Proof.
  intros Hscan. unfold scanAges in Hscan.
  destruct (scanAges_fold_bounds _ _ _ _ Hscan) as (_ & _ & Hall & Hmin).
  split; [exact Hall|].
  destruct Hmin as [(a0 & Ha0 & _)|Hmin]; [discriminate Ha0|exact Hmin].
Qed.

(** X5. With auto-scaling on, the window of the future view never
    starts before the current age, and the window of the past view, when
    there are items, never ends after it. *)
Theorem calculateDisplayRange_view_clamps :
  autoScale p = true ->
  let r := calculateDisplayRange newDate p in
  (viewMode p = view_future -> currentAge p <= startAge r)%Q
  /\ (viewMode p = view_past -> items p ≠ [] ->
      startAge r + displayRange r <= currentAge p)%Q.
Proof.
  intros Hauto r. subst r. unfold calculateDisplayRange. rewrite Hauto.
  cbn [negb]. split.
  - intros Hmode.
    destruct (items p) as [|x l].
    { unfold emptyDisplayRange. rewrite Hmode. apply Qle_refl. }
    destruct (scanAges newDate p) as [[mn|] [mx|]];
      try (rewrite Hmode; apply Qle_refl).
    destruct (fitDisplayRange_cap mn mx)
      as (S & R & -> & Hpos & Hfut & _).
    destruct (capDisplayRange_exact S R Hpos Hfut) as [Hs _];
      [by rewrite Hmode|].
    rewrite Hs. by apply Hfut.
  - intros Hmode Hne.
    destruct (scanAges_nonempty newDate p Hne) as (mn & mx & ->).
    destruct (items p) as [|x l]; [done|].
    destruct (fitDisplayRange_cap mn mx)
      as (S & R & -> & Hpos & _ & Hpast & _).
    apply capDisplayRange_past_end; auto.
Qed.

(** X6. For a current age that is not negative the window never starts
    before age 0, with or without auto-scaling. *)
Theorem calculateDisplayRange_start_nonneg :
  (0 <= currentAge p)%Q ->
  (0 <= startAge (calculateDisplayRange newDate p))%Q.
Proof.
  intros Hcur. unfold calculateDisplayRange.
  destruct (autoScale p); cbn [negb]; [|apply Qle_refl].
  destruct (items p) as [|x l].
  { unfold emptyDisplayRange.
    destruct (viewMode p); cbn [startAge]; lra. }
  destruct (scanAges newDate p) as [[mn|] [mx|]];
    try (destruct (viewMode p); cbn [startAge]; lra).
  destruct (fitDisplayRange_cap mn mx) as (S & R & -> & Hpos & _).
  by apply capDisplayRange_start_nonneg.
Qed.

(** X7. With auto-scaling on and every item between age 0 and the age
    range, the window reaches the end of every item in the views [all]
    and [future], starts at or before every item in the view [all] and,
    for a current age within the age range, in the view [past], and in
    the view [future] starts at or before every item that starts at the
    current age or later. *)
Theorem calculateDisplayRange_covers_items (item : TimelineItem) :
  autoScale p = true ->
  (forall i, i ∈ items p ->
     let ages := deriveItemAges newDate i (dateOfBirth p) (ageRange p) in
     (0 <= start_age ages
      /\ nullish (end_age ages) (start_age ages) <= ageRange p)%Q) ->
  item ∈ items p ->
  let ages := deriveItemAges newDate item (dateOfBirth p) (ageRange p) in
  let r := calculateDisplayRange newDate p in
  (viewMode p ≠ view_past ->
   nullish (end_age ages) (start_age ages)
   <= startAge r + displayRange r)%Q
  /\ (viewMode p = view_all -> startAge r <= start_age ages)%Q
  /\ (viewMode p = view_past -> currentAge p <= ageRange p ->
      startAge r <= start_age ages)%Q
  /\ (viewMode p = view_future -> currentAge p <= start_age ages ->
      startAge r <= start_age ages)%Q.
Proof.
  intros Hauto Hitems Hin ages r.
  assert (Hne : items p ≠ []).
  { intros Hnil. rewrite Hnil in Hin. by apply elem_of_nil in Hin. }
  subst r. unfold calculateDisplayRange. rewrite Hauto. cbn [negb].
  destruct (scanAges_nonempty newDate p Hne) as (mn & mx & Hscan).
  rewrite Hscan.
  destruct (scanAges_bounds mn mx Hscan) as (Hall & first & Hfirst & Hmn).
  destruct (Hall item Hin) as [Hlo Hhi]. fold ages in Hlo, Hhi.
  destruct (Hitems item Hin) as [Hpos Hrange]. fold ages in Hpos, Hrange.
  destruct (Hitems first Hfirst) as [Hpos1 _].
  assert (Hmn0 : (0 <= mn)%Q) by (rewrite Hmn; exact Hpos1).
  destruct (items p) as [|x l]; [done|].
  destruct (fitDisplayRange_cap mn mx)
    as (S & R & -> & HS & Hfut & Hpast & Hend & Hstart & Hstartf & _).
  pose proof (Qle_ceiling (mx + 5)) as Hceil.
  split; [|split; [|split]].
  - intros Hmode.
    destruct (capDisplayRange_exact S R HS Hfut Hmode) as [Hs Hr].
    rewrite Hs, Hr. specialize (Hend Hmode).
    revert Hceil Hend. generalize (inject_Z (Qceiling (mx + 5))).
    intros c Hceil Hend. name_minmax. split_minmax; lra.
  - intros Hmode.
    destruct (capDisplayRange_exact S R HS Hfut) as [Hs _];
      [by rewrite Hmode|].
    rewrite Hs. specialize (Hstart Hmn0 (or_introl Hmode)). lra.
  - intros Hmode Hcur.
    rewrite capDisplayRange_past_idle by auto. cbn [startAge].
    specialize (Hstart Hmn0 (or_intror Hmode)). lra.
  - intros Hmode Hcur.
    destruct (capDisplayRange_exact S R HS Hfut) as [Hs _];
      [by rewrite Hmode|].
    rewrite Hs. specialize (Hstartf Hmn0 Hmode). revert Hstartf.
    name_minmax. intros. split_minmax; lra.
Qed.

End WindowFacts.

(* ================================================================== *)
(** * Properties of the view filter of the life map *)
(* ================================================================== *)

Lemma Qleb_le (x y : Q) : Qleb x y = true <-> (x <= y)%Q.
Proof. unfold Qleb. rewrite negb_true_iff. apply Qltb_ge. Qed.

Lemma Qleb_gt (x y : Q) : Qleb x y = false <-> (y < x)%Q.
Proof. unfold Qleb. rewrite negb_false_iff. apply Qltb_lt. Qed.

Lemma elem_of_List_filter {A : Type} (f : A -> bool) (l : list A) (x : A) :
  x ∈ List.filter f l <-> x ∈ l /\ f x = true.
Proof. rewrite !list_elem_of_In. apply filter_In. Qed.

Section ViewFilterFacts.

Variable newDate : string -> Date.

Variables (currentAge0 ageRange0 : Q) (dob : string).

Local Abbreviation visible mode :=
  (LifeMapView.visibleInView newDate mode currentAge0 ageRange0 dob).
Local Abbreviation agesOf item :=
  (deriveItemAges newDate item dob ageRange0).
Local Abbreviation endOrStart item :=
  (nullish (end_age (agesOf item)) (start_age (agesOf item))).

Lemma visible_past_inv (item : TimelineItem) :
  visible view_past item = true ->
  (start_age (agesOf item) < currentAge0 /\ endOrStart item <= ageRange0)%Q.
Proof.
  unfold LifeMapView.visibleInView. cbv zeta.
  destruct (Qltb (start_age (agesOf item)) currentAge0) eqn:Hlt;
    [|discriminate].
  apply Qltb_lt in Hlt.
  destruct (end_age (agesOf item)); cbn [nullish];
    intros Hle%Qleb_le; done.
Qed.

Lemma visible_future_inv (item : TimelineItem) :
  visible view_future item = true ->
  (currentAge0 < endOrStart item /\ endOrStart item <= ageRange0)%Q.
Proof.
  unfold LifeMapView.visibleInView. cbv zeta.
  destruct (end_age (agesOf item)); cbn [nullish];
    intros [Hgt%Qgtb_gt Hle%Qleb_le]%andb_true_iff; done.
Qed.

(** X8. An item is shown in the past view and in the future view
    exactly when it is a span that starts before the current age, ends
    after it and ends within the age range; a milestone is never shown in
    both. *)
Theorem visible_in_both_views (item : TimelineItem) :
  visible view_past item = true /\ visible view_future item = true
  <-> exists e,
        end_age (agesOf item) = Some e
        /\ (start_age (agesOf item) < currentAge0
            /\ currentAge0 < e /\ e <= ageRange0)%Q.
Proof.
  split.
  - intros [Hpast Hfut].
    apply visible_past_inv in Hpast as [Hs _].
    apply visible_future_inv in Hfut as [Hc Hr].
    destruct (end_age (agesOf item)) as [e|] eqn:He; cbn [nullish] in *.
    + exists e. done.
    + lra.
  - intros (e & He & Hs & Hc & Hr).
    unfold LifeMapView.visibleInView. cbv zeta. rewrite He.
    apply Qltb_lt in Hs. rewrite Hs.
    apply Qgtb_gt in Hc. rewrite Hc.
    apply Qleb_le in Hr. rewrite Hr. done.
Qed.

(** X9. A milestone exactly at the current age is shown in neither the
    past nor the future view, and neither is an item whose end (or start,
    for a milestone) lies beyond the age range. *)
Theorem hidden_in_past_and_future (item : TimelineItem) :
  (end_age (agesOf item) = None ->
   (start_age (agesOf item) == currentAge0)%Q ->
   visible view_past item = false /\ visible view_future item = false)
  /\ ((ageRange0 < endOrStart item)%Q ->
      visible view_past item = false /\ visible view_future item = false).
Proof.
  split.
  - intros He Heq. unfold LifeMapView.visibleInView. cbv zeta. rewrite He.
    assert (H1 : Qltb (start_age (agesOf item)) currentAge0 = false)
      by (apply Qltb_ge; lra).
    assert (H2 : Qgtb (start_age (agesOf item)) currentAge0 = false)
      by (apply Qgtb_le; lra).
    by rewrite H1, H2.
  - intros Hbeyond. split.
    + destruct (visible view_past item) eqn:Hv; [|done].
      apply visible_past_inv in Hv as [_ Hle]. lra.
    + destruct (visible view_future item) eqn:Hv; [|done].
      apply visible_future_inv in Hv as [_ Hle]. lra.
Qed.

Variables (allItems : list TimelineItem) (cats : list Category).
Variables (timelineWidth zoom0 : Q).

(** X10. The past view as the life map calls the timeline, for a
    current age within the age range and items that start at age 0 or
    later and do not end before they start: the window lies between age
    0 and the current age, and every item shown starts inside it. *)
Theorem past_view_window (item : TimelineItem) :
  let props :=
    LifeMapView.timelineProps newDate allItems cats currentAge0 ageRange0
      dob view_past timelineWidth zoom0 in
  let r := calculateDisplayRange newDate props in
  (currentAge0 <= ageRange0)%Q ->
  (forall i, i ∈ items props ->
     (0 <= start_age (agesOf i) /\ start_age (agesOf i) <= endOrStart i)%Q) ->
  item ∈ items props ->
  (0 <= startAge r
   /\ startAge r <= start_age (agesOf item)
   /\ start_age (agesOf item) < startAge r + displayRange r
   /\ startAge r + displayRange r <= currentAge0)%Q.
Proof.
  intros props r Hcur Hwf Hin.
  assert (Hvis : visible view_past item = true).
  { apply elem_of_List_filter in Hin as [_ Hv]. exact Hv. }
  apply visible_past_inv in Hvis as [Hbefore _].
  assert (Hne : items props ≠ []).
  { intros Hnil. rewrite Hnil in Hin. by apply elem_of_nil in Hin. }
  destruct (scanAges_nonempty newDate props Hne) as (mn & mx & Hscan).
  destruct (scanAges_bounds newDate props mn mx Hscan)
    as (Hall & first & Hfirst & Hmn).
  destruct (Hall item Hin) as [Hlo Hhi].
  destruct (Hwf item Hin) as [Hpos Hwell].
  destruct (Hwf first Hfirst) as [Hpos1 _].
  change (dateOfBirth props) with dob in *.
  change (ageRange props) with ageRange0 in *.
  assert (Hmn0 : (0 <= mn)%Q) by (rewrite Hmn; exact Hpos1).
  subst r. unfold calculateDisplayRange.
  change (autoScale props) with true. cbn [negb]. rewrite Hscan.
  destruct (items props) as [|x l]; [done|].
  destruct (fitDisplayRange_cap props mn mx)
    as (S & R & -> & HS & _ & Hpast & _ & Hstart & _ & Hend).
  specialize (Hpast eq_refl). specialize (Hend eq_refl).
  specialize (Hstart Hmn0 (or_intror eq_refl)).
  change (currentAge props) with currentAge0 in *.
  rewrite capDisplayRange_past_idle by done. cbn [startAge displayRange].
  pose proof (Qle_ceiling (mx + 5)) as Hceil.
  revert Hceil Hend. generalize (inject_Z (Qceiling (mx + 5))).
  intros c Hceil Hend.
  repeat split; try lra.
  revert Hend. name_minmax. intros. split_minmax; lra.
Qed.

(** X11. The future view as the life map calls the timeline, for items
    that start at age 0 or later and do not end before they start: the
    window starts at the current age or later and ends within the age
    range, and the end of every item shown (the start, for a milestone)
    lies inside it. *)
Theorem future_view_window (item : TimelineItem) :
  let props :=
    LifeMapView.timelineProps newDate allItems cats currentAge0 ageRange0
      dob view_future timelineWidth zoom0 in
  let r := calculateDisplayRange newDate props in
  (forall i, i ∈ items props ->
     (0 <= start_age (agesOf i) /\ start_age (agesOf i) <= endOrStart i)%Q) ->
  item ∈ items props ->
  (currentAge0 <= startAge r
   /\ startAge r <= endOrStart item
   /\ endOrStart item <= startAge r + displayRange r
   /\ startAge r + displayRange r <= ageRange0)%Q.
Proof.
  intros props r Hwf Hin.
  assert (Hvis : visible view_future item = true).
  { apply elem_of_List_filter in Hin as [_ Hv]. exact Hv. }
  apply visible_future_inv in Hvis as [Hafter Hwithin].
  assert (Hne : items props ≠ []).
  { intros Hnil. rewrite Hnil in Hin. by apply elem_of_nil in Hin. }
  destruct (scanAges_nonempty newDate props Hne) as (mn & mx & Hscan).
  destruct (scanAges_bounds newDate props mn mx Hscan)
    as (Hall & first & Hfirst & Hmn).
  destruct (Hall item Hin) as [Hlo Hhi].
  destruct (Hwf item Hin) as [Hpos Hwell].
  destruct (Hwf first Hfirst) as [Hpos1 _].
  change (dateOfBirth props) with dob in *.
  change (ageRange props) with ageRange0 in *.
  assert (Hmn0 : (0 <= mn)%Q) by (rewrite Hmn; exact Hpos1).
  subst r. unfold calculateDisplayRange.
  change (autoScale props) with true. cbn [negb]. rewrite Hscan.
  destruct (items props) as [|x l]; [done|].
  destruct (fitDisplayRange_cap props mn mx)
    as (S & R & -> & HS & Hfut & _ & Hend & _ & Hstartf & _).
  destruct (capDisplayRange_exact props S R HS Hfut) as [Hs Hr]; [done|].
  specialize (Hfut eq_refl). specialize (Hstartf Hmn0 eq_refl).
  assert (Hend' : (inject_Z (Qceiling (mx + 5)) <= S + R)%Q)
    by (by apply Hend).
  change (currentAge props) with currentAge0 in *.
  change (ageRange props) with ageRange0 in *.
  rewrite Hs, Hr.
  pose proof (Qle_ceiling (mx + 5)) as Hceil.
  revert Hceil Hend'. generalize (inject_Z (Qceiling (mx + 5))).
  intros c Hceil Hend'. revert Hstartf.
  name_minmax. intros. split_minmax; repeat split; lra.
Qed.

End ViewFilterFacts.

(* ================================================================== *)
(** * Properties of the recent-files list *)
(* ================================================================== *)

Lemma List_filter_sublist {A : Type} (f : A -> bool) (l : list A) :
  List.filter f l `sublist_of` l.
Proof.
  induction l as [|x l IH]; simpl; [constructor|].
  destruct (f x); by constructor.
Qed.

Lemma List_filter_all {A : Type} (f : A -> bool) (l : list A) :
  (forall x, x ∈ l -> f x = true) -> List.filter f l = l.
Proof.
  induction l as [|x l IH]; intros Hall; simpl; [done|].
  rewrite (Hall x) by apply list_elem_of_here.
  f_equal. apply IH. intros y Hy. apply Hall. by apply list_elem_of_further.
Qed.

Lemma pathDiffers_pathOf (path0 : string) (f : RecentFiles.json) :
  RecentFiles.pathDiffers path0 f = true <-> pathOf f ≠ Some path0.
Proof.
  unfold RecentFiles.pathDiffers, pathOf.
  destruct f as [| | | | |properties]; try (split; [discriminate|done]).
  destruct (RecentFiles.property "path" properties) as [[| | |s| |]|];
    try (split; [discriminate|done]).
  rewrite negb_true_iff, String.eqb_neq. split; congruence.
Qed.

Lemma existsb_isNull (l : list RecentFiles.json) :
  existsb RecentFiles.isNull l = false <-> RecentFiles.JNull ∉ l.
Proof.
  induction l as [|f l IH]; cbn [existsb].
  - split; [intros _; apply not_elem_of_nil|done].
  - rewrite orb_false_iff, IH, not_elem_of_cons.
    destruct f; cbn [RecentFiles.isNull]; split; intros [H1 H2];
      (split; [done || discriminate || congruence|done]).
Qed.

Lemma omap_sublist {A B : Type} (f : A -> option B) (l k : list A) :
  l `sublist_of` k -> omap f l `sublist_of` omap f k.
Proof.
  induction 1 as [|x l k _ IH|x l k _ IH]; cbn [omap list_omap].
  - constructor.
  - destruct (f x); [by constructor|done].
  - destruct (f x); [by constructor|done].
Qed.

(** What [add] stores when nothing is thrown. *)
Lemma add_stored (path0 title0 : string) (now : Z)
  (stored : RecentFiles.Storage) (old : list RecentFiles.json) :
  RecentFiles.get stored = RecentFiles.JArray old ->
  RecentFiles.JNull ∉ old ->
  RecentFiles.add path0 title0 now true stored
  = Some
      (RecentFiles.JArray
         (RecentFiles.entry
            {| RecentFiles.path := path0; RecentFiles.title := title0;
               RecentFiles.lastAccessed := now |}
          :: take 9 (List.filter (RecentFiles.pathDiffers path0) old))).
Proof.
  intros Hget Hnull. unfold RecentFiles.add. cbv zeta. rewrite Hget.
  cbn [RecentFiles.withoutPath].
  apply existsb_isNull in Hnull. by rewrite Hnull.
Qed.

(** X12. [add] leaves the storage as it was when [setItem] throws, when
    the stored value is no array and when the stored array holds a
    [null].  Otherwise the stored array starts with the new entry, has at
    most ten elements, continues with elements of the old array in their
    order, none of them with the added path, and has distinct paths when
    the old array had. *)
Theorem recentFiles_add (path0 title0 : string) (now : Z) (writable : bool)
  (stored : RecentFiles.Storage) :
  let entry :=
    RecentFiles.entry
      {| RecentFiles.path := path0; RecentFiles.title := title0;
         RecentFiles.lastAccessed := now |} in
  let stored' := RecentFiles.add path0 title0 now writable stored in
  (writable = false -> stored' = stored)
  /\ ((forall old, RecentFiles.get stored ≠ RecentFiles.JArray old) ->
      stored' = stored)
  /\ (forall old, RecentFiles.get stored = RecentFiles.JArray old ->
        RecentFiles.JNull ∈ old -> stored' = stored)
  /\ (writable = true ->
      forall old, RecentFiles.get stored = RecentFiles.JArray old ->
        RecentFiles.JNull ∉ old ->
        exists rest,
          stored' = Some (RecentFiles.JArray (entry :: rest))
          /\ pathOf entry = Some path0
          /\ (length (entry :: rest) <= 10)%nat
          /\ rest `sublist_of` old
          /\ (forall f, f ∈ rest -> pathOf f ≠ Some path0)
          /\ (NoDup (paths (RecentFiles.JArray old)) ->
              NoDup (paths (RecentFiles.JArray (entry :: rest))))).
Proof.
  intros entry stored'. split; [|split; [|split]].
  - intros ->. subst stored'. unfold RecentFiles.add. cbv zeta.
    by destruct (RecentFiles.withoutPath path0 (RecentFiles.get stored)).
  - intros Hno. subst stored'. unfold RecentFiles.add. cbv zeta.
    destruct (RecentFiles.get stored) as [| | | |old|] eqn:Hget; try done.
    by destruct (Hno old).
  - intros old Hget Hnull. subst stored'. unfold RecentFiles.add.
    cbv zeta. rewrite Hget. cbn [RecentFiles.withoutPath].
    destruct (existsb RecentFiles.isNull old) eqn:Hex; [done|].
    by apply existsb_isNull in Hex.
  - intros -> old Hget Hnull. subst stored'.
    rewrite (add_stored _ _ _ _ old Hget Hnull).
    set (filtered := List.filter (RecentFiles.pathDiffers path0) old).
    assert (Hsub : take 9 filtered `sublist_of` old).
    { etransitivity; [apply sublist_take|apply List_filter_sublist]. }
    assert (Hrest : forall f, f ∈ take 9 filtered -> pathOf f ≠ Some path0).
    { intros f Hf. apply subseteq_take in Hf.
      apply elem_of_List_filter in Hf as [_ Hne].
      by apply pathDiffers_pathOf. }
    exists (take 9 filtered). split; [done|]. split; [done|]. split.
    { cbn [length]. rewrite length_take. lia. }
    split; [exact Hsub|]. split; [exact Hrest|].
    intros Hnd. cbn [paths omap list_omap].
    change (pathOf entry) with (Some path0).
    apply NoDup_cons. split.
    + intros Hin. apply list_elem_of_omap in Hin as (f & Hf & Hp).
      by apply (Hrest f Hf).
    + eapply sublist_NoDup; [exact Hnd|]. by apply omap_sublist.
Qed.

(** X13. After an [add] that has stored its entry, a second [add] of
    the same path leaves the same paths in the same order, whether it
    stores its own entry or [setItem] throws. *)
Theorem recentFiles_add_twice (path0 title1 title2 : string) (now1 now2 : Z)
  (writable : bool) (stored : RecentFiles.Storage)
  (old : list RecentFiles.json) :
  RecentFiles.get stored = RecentFiles.JArray old ->
  RecentFiles.JNull ∉ old ->
  paths
    (RecentFiles.get
       (RecentFiles.add path0 title2 now2 writable
          (RecentFiles.add path0 title1 now1 true stored)))
  = paths
      (RecentFiles.get (RecentFiles.add path0 title1 now1 true stored)).
Proof.
  intros Hget Hnull.
  rewrite (add_stored _ _ _ _ old Hget Hnull).
  set (filtered := List.filter (RecentFiles.pathDiffers path0) old).
  destruct writable;
    [|unfold RecentFiles.add; cbv zeta;
      by destruct (RecentFiles.withoutPath _ _)].
  erewrite (add_stored path0 title2 now2); [|reflexivity|].
  - cbn [RecentFiles.get paths List.filter].
    assert (Hself : RecentFiles.pathDiffers path0
                      (RecentFiles.entry
                         {| RecentFiles.path := path0;
                            RecentFiles.title := title1;
                            RecentFiles.lastAccessed := now1 |}) = false).
    { cbn. by rewrite String.eqb_refl. }
    rewrite Hself, List_filter_all.
    + by rewrite take_take.
    + intros f Hf. apply subseteq_take in Hf.
      by apply elem_of_List_filter in Hf as [_ Hne].
  - intros Hin. apply elem_of_cons in Hin as [Hin|Hin]; [discriminate|].
    apply subseteq_take in Hin.
    by apply elem_of_List_filter in Hin as [Hin _].
Qed.

(* ================================================================== *)
(** * Clipping of bars at the current-age line *)
(* ================================================================== *)

Section ClippingFacts.

Variable newDate : string -> Date.
Variable p : TimelineProps.

(** X14. A bar that is drawn for a span of the item list is cut at the
    current-age line: in the past view a span that ends after the current
    age is drawn from its start to the line, and in the future view a span
    that starts before the current age is drawn from the line to its
    end. *)
Theorem renderItem_clips_at_current_age
  (item : TimelineItem) (category : Category) (endAge : Q) (x w : number) :
  NoDup (item_id <$> items p) ->
  item ∈ items p ->
  getCategory p item = Some category ->
  end_age (deriveItemAges newDate item (dateOfBirth p) (ageRange p))
  = Some endAge ->
  renderItem newDate p item = Some (Bar x w) ->
  let startX :=
    ageToX newDate p
      (start_age (deriveItemAges newDate item (dateOfBirth p) (ageRange p)))
  in
  let currentAgeX := ageToX newDate p (currentAge p) in
  let endX := ageToX newDate p endAge in
  (viewMode p = view_past -> (currentAge p < endAge)%Q ->
   exists width : Q,
     x = Fin startX /\ w = Fin width
     /\ (0 < width /\ startX + width == currentAgeX)%Q)
  /\ (viewMode p = view_future ->
      (start_age (deriveItemAges newDate item (dateOfBirth p) (ageRange p))
       < currentAge p)%Q ->
      exists width : Q,
        x = Fin currentAgeX /\ w = Fin width
        /\ (0 < width /\ currentAgeX + width == endX)%Q).
Proof.
  intros Hids Hin Hcat Hend Hdraw startX currentAgeX endX.
  unfold renderItem in Hdraw. rewrite Hcat in Hdraw.
  rewrite (getItemAges_member newDate p Hids item Hin) in Hdraw.
  rewrite Hend in Hdraw. cbv zeta in Hdraw.
  fold startX currentAgeX endX in Hdraw.
  split.
  - intros Hmode Hcross. rewrite Hmode in Hdraw.
    apply Qgtb_gt in Hcross. rewrite Hcross in Hdraw.
    cbn [is_past andb fst snd num_max num_gtb] in Hdraw.
    destruct (Qgtb (Qmax 0 (currentAgeX - startX)) 0) eqn:Hpos;
      [|discriminate].
    injection Hdraw as <- <-. apply Qgtb_gt in Hpos.
    eexists. split; [reflexivity|]. split; [reflexivity|].
    split; [exact Hpos|]. revert Hpos.
    name_minmax. intros. split_minmax; lra.
  - intros Hmode Hcross. rewrite Hmode in Hdraw.
    apply Qltb_lt in Hcross. rewrite Hcross in Hdraw.
    cbn [is_past is_future andb fst snd num_max num_gtb] in Hdraw.
    destruct (Qgtb (Qmax 0 (endX - currentAgeX)) 0) eqn:Hpos;
      [|discriminate].
    injection Hdraw as <- <-. apply Qgtb_gt in Hpos.
    eexists. split; [reflexivity|]. split; [reflexivity|].
    split; [exact Hpos|]. revert Hpos.
    name_minmax. intros. split_minmax; lra.
Qed.

End ClippingFacts.

(* ================================================================== *)
(** * Properties of the vertical layout *)
(* ================================================================== *)

Section RowFacts.

Variable categoryMaxStacks : gmap Z nat.
Variable categoryMaxHeights : option (gmap Z Q).

Local Abbreviation heightOf cat :=
  (getCategoryRowHeight (cat_id cat) categoryMaxStacks categoryMaxHeights).

Lemma addRowHeights_S (cats : list Category) (row : nat) (y0 : Q) :
  addRowHeights categoryMaxStacks categoryMaxHeights cats (S row) y0
  = match cats !! row with
    | Some cat =>
        (addRowHeights categoryMaxStacks categoryMaxHeights cats row y0
         + heightOf cat)%Q
    | None => addRowHeights categoryMaxStacks categoryMaxHeights cats row y0
    end.
Proof.
  unfold addRowHeights. rewrite seq_S, fold_left_app. simpl.
  by destruct (cats !! row).
Qed.

(** The loop over the first rows adds up the heights of the categories
    found there. *)
Lemma addRowHeights_take (cats : list Category) (row : nat) (y0 : Q) :
  addRowHeights categoryMaxStacks categoryMaxHeights cats row y0
  = fold_left (fun y cat => (y + heightOf cat)%Q) (take row cats) y0.
Proof.
  induction row as [|row IH]; [by rewrite take_0|].
  rewrite addRowHeights_S, IH.
  destruct (cats !! row) as [cat|] eqn:Hrow.
  - by rewrite (take_S_r _ _ _ Hrow), fold_left_app.
  - apply lookup_ge_None_1 in Hrow. by rewrite !take_ge by lia.
Qed.

(** X15. The bands of the top section lie edge to edge: the band of the
    first row starts at 0, each band starts where the band of the row
    before ends, and the age bar lies [SECTION_SPACING] below the last
    band. *)
Theorem top_section_bands (cats : list Category) (row : nat)
  (cat : Category) :
  cats !! row = Some cat ->
  let y :=
    getTopSectionY row (cat_id cat) categoryMaxStacks categoryMaxHeights
      (Some cats) in
  (row = 0%nat -> y - heightOf cat / 2 == 0)%Q
  /\ (forall next, cats !! S row = Some next ->
        (getTopSectionY (S row) (cat_id next) categoryMaxStacks
           categoryMaxHeights (Some cats)
         - heightOf next / 2
         == y + heightOf cat / 2)%Q)
  /\ (S row = length cats ->
      (getAgeBarY categoryMaxStacks categoryMaxHeights (Some cats)
       == y + heightOf cat / 2 + SECTION_SPACING)%Q).
Proof.
  intros Hrow y. subst y. unfold getTopSectionY, getAgeBarY. cbv zeta.
  split; [|split].
  - intros ->. unfold addRowHeights. simpl. field.
  - intros next Hnext. rewrite addRowHeights_S, Hrow. field.
  - intros Hlast.
    rewrite <- (take_ge cats (S row)) at 1 by lia.
    rewrite <- addRowHeights_take, addRowHeights_S, Hrow. field.
Qed.

(** X16. The bands of the bottom section lie edge to edge below the
    age bar: the band of the first row starts [AGE_MARKER_HEIGHT] and
    [SECTION_SPACING] below [ageBarY], and each band starts where the band
    of the row before ends. *)
Theorem bottom_section_bands (cats : list Category) (row : nat)
  (cat : Category) (ageBarY : Q) :
  cats !! row = Some cat ->
  let y :=
    getBottomSectionY row (cat_id cat) categoryMaxStacks ageBarY
      categoryMaxHeights (Some cats) in
  (row = 0%nat ->
   y - heightOf cat / 2
   == ageBarY + AGE_MARKER_HEIGHT + SECTION_SPACING)%Q
  /\ (forall next, cats !! S row = Some next ->
        (getBottomSectionY (S row) (cat_id next) categoryMaxStacks ageBarY
           categoryMaxHeights (Some cats)
         - heightOf next / 2
         == y + heightOf cat / 2)%Q).
Proof.
  intros Hrow y. subst y. unfold getBottomSectionY. cbv zeta.
  split.
  - intros ->. unfold addRowHeights. simpl. field.
  - intros next Hnext. rewrite addRowHeights_S, Hrow. field.
Qed.

End RowFacts.

(* ================================================================== *)
(** * Sorting by a key, and the rows of the categories *)
(* ================================================================== *)

Section SortByKey.

Context {A : Type} (key : A -> Z).

Local Abbreviation byKey := (fun a b : A => Z.compare (key a) (key b)).
Local Abbreviation keyLe := (fun a b : A => key a <= key b).

Lemma sort_insert_Sorted (x : A) (l : list A) :
  Sorted keyLe l -> Sorted keyLe (sort_insert byKey x l).
Proof.
  induction 1 as [|y l Hsorted IH Hhd]; simpl.
  - repeat constructor.
  - destruct (Z.compare_spec (key x) (key y)) as [Heq|Hlt|Hgt].
    + constructor; [exact IH|].
      destruct Hhd as [|z l Hz]; simpl.
      * constructor. lia.
      * destruct (key x ?= key z); constructor; lia.
    + constructor; [by constructor|]. constructor. lia.
    + constructor; [exact IH|].
      destruct Hhd as [|z l Hz]; simpl.
      * constructor. lia.
      * destruct (key x ?= key z); constructor; lia.
Qed.

Lemma sort_Sorted (l : list A) : Sorted keyLe (sort byKey l).
Proof.
  unfold sort.
  assert (Hgen : forall acc, Sorted keyLe acc ->
             Sorted keyLe
               (fold_left (fun acc x => sort_insert byKey x acc) l acc)).
  { induction l as [|x l IH]; intros acc Hacc; simpl; [done|].
    apply IH. by apply sort_insert_Sorted. }
  apply Hgen. constructor.
Qed.

Lemma Sorted_fmap_key (l : list A) :
  Sorted keyLe l -> Sorted Z.le (key <$> l).
Proof.
  induction 1 as [|y l Hsorted IH Hhd]; simpl; [constructor|].
  constructor; [exact IH|]. destruct Hhd; constructor; done.
Qed.

End SortByKey.

Lemma Sorted_seq_Z (k n : nat) : Sorted Z.le (Z.of_nat <$> seq k n).
Proof.
  revert k. induction n as [|n IH]; intros k; simpl; [constructor|].
  constructor; [apply IH|]. destruct n; simpl; constructor. lia.
Qed.

Lemma rowsOf_fold_other (l : list Category) (m : gmap Z nat) (k : nat)
  (id : Z) :
  id ∉ cat_id <$> l ->
  fst (fold_left
         (fun acc cat => (<[cat_id cat := snd acc]> (fst acc), S (snd acc)))
         l (m, k)) !! id = m !! id.
Proof.
  revert m k. induction l as [|x l IH]; intros m k Hid; simpl; [done|].
  rewrite fmap_cons in Hid. apply not_elem_of_cons in Hid as [Hne Hid].
  rewrite IH by done. simpl. by rewrite lookup_insert_ne.
Qed.

Lemma rowsOf_fold_lookup (l : list Category) (m : gmap Z nat) (k i : nat)
  (c : Category) :
  NoDup (cat_id <$> l) -> l !! i = Some c ->
  fst (fold_left
         (fun acc cat => (<[cat_id cat := snd acc]> (fst acc), S (snd acc)))
         l (m, k)) !! cat_id c = Some (k + i)%nat.
Proof.
  revert m k i. induction l as [|x l IH]; intros m k i Hnd Hi; [done|].
  rewrite fmap_cons in Hnd. apply NoDup_cons in Hnd as [Hx Hnd].
  destruct i as [|i]; simpl in *.
  - injection Hi as ->. rewrite rowsOf_fold_other by done. simpl.
    rewrite lookup_insert_eq. f_equal. lia.
  - rewrite (IH _ _ i) by done. f_equal. lia.
Qed.

(** The row recorded for a category is its index in the sorted
    section. *)
Lemma rowsOf_lookup (l : list Category) (i : nat) (c : Category) :
  NoDup (cat_id <$> l) -> l !! i = Some c ->
  rowsOf l !! cat_id c = Some i.
Proof.
  intros Hnd Hi. unfold rowsOf. by rewrite (rowsOf_fold_lookup l ∅ 0 i c).
Qed.

Lemma sortedSection_perm (s : SectionName) (cats : list Category) :
  sortedSection s cats ≡ₚ CategoryManager.inSection s cats.
Proof. unfold sortedSection. by rewrite sort_perm. Qed.

Lemma inSection_sublist (s : SectionName) (cats : list Category) :
  CategoryManager.inSection s cats `sublist_of` cats.
Proof. apply List_filter_sublist. Qed.

(** In a section whose display orders are dense, sorting puts the
    category of display order [i] at index [i]. *)
Lemma sortedSection_dense (s : SectionName) (cats : list Category) :
  CategoryManager.dense s cats ->
  cat_display_order <$> sortedSection s cats
  = Z.of_nat <$> seq 0 (length (CategoryManager.inSection s cats)).
Proof.
  intros Hdense.
  apply (Sorted_unique_strong Z.le).
  - intros x1 x2 _ _ H1 H2. lia.
  - apply Sorted_fmap_key. unfold sortedSection. apply sort_Sorted.
  - apply Sorted_seq_Z.
  - rewrite sortedSection_perm. exact Hdense.
Qed.

(** X17. When category identifiers are distinct and the display orders
    of a section are dense, the row the timeline gives a category of that
    section is its display order, and the sorted section holds the
    category at that row. *)
Theorem getCategoryRows_dense (cats : list Category) (c : Category) :
  NoDup (cat_id <$> cats) ->
  c ∈ cats ->
  CategoryManager.dense (cat_section c) cats ->
  let rows := getCategoryRows cats in
  let sorted :=
    match cat_section c with
    | top => topCategories rows
    | bottom => bottomCategories rows
    end in
  let rowOf :=
    match cat_section c with
    | top => topRows rows
    | bottom => bottomRows rows
    end in
  exists row : nat,
    rowOf !! cat_id c = Some row
    /\ sorted !! row = Some c
    /\ cat_display_order c = Z.of_nat row.
Proof.
  intros Hnd Hin Hdense rows sorted rowOf.
  assert (Hsorted : sorted = sortedSection (cat_section c) cats)
    by (subst sorted rows; by destruct (cat_section c)).
  assert (HrowOf : rowOf = rowsOf (sortedSection (cat_section c) cats))
    by (subst rowOf rows; by destruct (cat_section c)).
  rewrite Hsorted, HrowOf. clear Hsorted HrowOf sorted rowOf rows.
  set (s := cat_section c) in *.
  assert (Hmem : c ∈ sortedSection s cats).
  { rewrite sortedSection_perm. apply elem_of_List_filter.
    split; [done|]. subst s. by destruct (cat_section c). }
  apply list_elem_of_lookup in Hmem as [row Hrow].
  exists row. split; [|split; [exact Hrow|]].
  - apply rowsOf_lookup; [|exact Hrow].
    rewrite sortedSection_perm.
    eapply sublist_NoDup; [exact Hnd|].
    apply fmap_sublist, inSection_sublist.
  - pose proof (sortedSection_dense s cats Hdense) as Horders.
    assert (Hlook : (cat_display_order <$> sortedSection s cats) !! row
                    = Some (cat_display_order c))
      by (by rewrite list_lookup_fmap, Hrow).
    rewrite Horders in Hlook.
    rewrite list_lookup_fmap in Hlook.
    destruct (seq 0 _ !! row) as [j|] eqn:Hj; [|discriminate].
    apply lookup_seq in Hj as [-> _]. simpl in Hlook. congruence.
Qed.

(* ================================================================== *)
(** * The renumbering loop of the category manager *)
(* ================================================================== *)

Section Renumbering.

Import CategoryManager.

Local Abbreviation ids l := (cat_id <$> l).
Local Abbreviation hasId a := (fun c : Category => Z.eqb (cat_id c) a).

Lemma ids_key_inj (l : list Category) (x y : Category) :
  NoDup (ids l) -> x ∈ l -> y ∈ l -> cat_id x = cat_id y -> x = y.
Proof.
  induction l as [|a l IH]; intros Hnd Hx Hy Hk.
  - by apply elem_of_nil in Hx.
  - rewrite fmap_cons in Hnd. apply NoDup_cons in Hnd as [Ha Hnd].
    apply elem_of_cons in Hx as [->|Hx]; apply elem_of_cons in Hy as [->|Hy].
    + done.
    + exfalso. apply Ha. rewrite Hk. by apply list_elem_of_fmap_2.
    + exfalso. apply Ha. rewrite <- Hk. by apply list_elem_of_fmap_2.
    + by apply IH.
Qed.

Lemma findIndex_None {A : Type} (f : A -> bool) (l : list A) :
  findIndex f l = None <-> forall x, x ∈ l -> f x = false.
Proof.
  induction l as [|y l IH]; simpl.
  - split; [intros _ x Hx; by apply elem_of_nil in Hx|done].
  - destruct (f y) eqn:Hy.
    + split; [discriminate|]. intros Hall.
      rewrite (Hall y) in Hy by apply list_elem_of_here. discriminate.
    + destruct (findIndex f l) as [i|]; simpl.
      * split; [discriminate|]. intros Hall.
        assert (Hnone : Some i = None); [|discriminate Hnone].
        apply IH. intros x Hx. apply Hall. by apply list_elem_of_further.
      * split; [|done]. intros _ x Hx.
        apply elem_of_cons in Hx as [->|Hx]; [done|].
        by apply (proj1 IH).
Qed.

Lemma findIndex_Some {A : Type} (f : A -> bool) (l : list A) (i : nat) :
  findIndex f l = Some i ->
  exists x, l !! i = Some x /\ f x = true.
Proof.
  revert i. induction l as [|y l IH]; intros i; simpl; [discriminate|].
  destruct (f y) eqn:Hy.
  - intros [= <-]. by exists y.
  - destruct (findIndex f l) as [j|]; simpl; [|discriminate].
    intros [= <-]. by apply IH.
Qed.

(** With distinct identifiers the index found for an identifier is the
    place of the category that carries it. *)
Lemma findIndex_id (l : list Category) (i : nat) (c : Category) :
  NoDup (ids l) -> l !! i = Some c ->
  findIndex (hasId (cat_id c)) l = Some i.
Proof.
  revert i. induction l as [|y l IH]; intros i Hnd Hi; [done|].
  rewrite fmap_cons in Hnd. apply NoDup_cons in Hnd as [Hy Hnd].
  destruct i as [|i]; simpl in *.
  - injection Hi as ->. by rewrite Z.eqb_refl.
  - destruct (Z.eqb_spec (cat_id y) (cat_id c)) as [Heq|Hne].
    + exfalso. apply Hy. rewrite Heq. apply list_elem_of_fmap_2.
      by eapply list_elem_of_lookup_2.
    + by rewrite (IH i).
Qed.

(** Writing at the index found for an identifier changes the one
    category that carries it. *)
Lemma alter_at_id (f : Category -> Category) (a : Z) (l : list Category) :
  NoDup (ids l) ->
  match findIndex (hasId a) l with
  | Some i => alter f i l
  | None => l
  end
  = map (fun c => if Z.eqb (cat_id c) a then f c else c) l.
Proof.
  induction l as [|x l IH]; intros Hnd; [done|].
  rewrite fmap_cons in Hnd. apply NoDup_cons in Hnd as [Hx Hnd].
  simpl. destruct (Z.eqb_spec (cat_id x) a) as [Heq|Hne].
  - simpl. f_equal. symmetry.
    transitivity (map (fun c : Category => c) l); [|apply map_id].
    apply map_ext_in. intros c Hc.
    destruct (Z.eqb_spec (cat_id c) a) as [Hca|]; [|done].
    exfalso. apply Hx. rewrite Heq, <- Hca. apply list_elem_of_fmap_2.
    by apply list_elem_of_In.
  - specialize (IH Hnd).
    destruct (findIndex (hasId a) l) as [i|]; simpl; by rewrite <- IH.
Qed.

Lemma withDisplayOrder_id (c : Category) (n : Z) :
  cat_id (withDisplayOrder c n) = cat_id c.
Proof. reflexivity. Qed.

Lemma unordered_withDisplayOrder (c : Category) (n : Z) :
  unordered (withDisplayOrder c n) = unordered c.
Proof. reflexivity. Qed.

Lemma unordered_renumbered (ordered : list Category) (k : Z) (c : Category) :
  unordered (renumbered ordered k c) = unordered c.
Proof.
  unfold renumbered.
  by destruct (findIndex (fun o => Z.eqb (cat_id o) (cat_id c)) ordered).
Qed.

Lemma renumbered_id (ordered : list Category) (k : Z) (c : Category) :
  cat_id (renumbered ordered k c) = cat_id c.
Proof. apply (f_equal cat_id (unordered_renumbered ordered k c)). Qed.

Lemma renumbered_section (ordered : list Category) (k : Z) (c : Category) :
  cat_section (renumbered ordered k c) = cat_section c.
Proof. apply (f_equal cat_section (unordered_renumbered ordered k c)). Qed.

Lemma fmap_map_preserved {B : Type} (proj : Category -> B)
  (g : Category -> Category) (l : list Category) :
  (forall c, proj (g c) = proj c) -> proj <$> map g l = proj <$> l.
Proof.
  intros Hg. induction l as [|x l IH]; [done|].
  cbn [map]. by rewrite !fmap_cons, Hg, IH.
Qed.

(** The loop gives every category of [updatedCategories] the display
    order of its place in [ordered], and leaves the others alone. *)
Lemma reassign_fold (ordered updated : list Category) (k : Z) :
  NoDup (ids updated) -> NoDup (ids ordered) ->
  fst (fold_left
         (fun acc cat =>
            let (updated, index) := acc : list Category * Z in
            (match findIndex (fun c => Z.eqb (cat_id c) (cat_id cat)) updated
             with
             | Some categoryIndex =>
                 alter (fun c => withDisplayOrder c index) categoryIndex
                   updated
             | None => updated
             end, index + 1))
         ordered (updated, k))
  = map (renumbered ordered k) updated.
Proof.
  revert updated k. induction ordered as [|o rest IH]; intros updated k Hu Ho.
  - simpl. symmetry.
    transitivity (map (fun c : Category => c) updated); [|apply map_id].
    apply map_ext. intros c. reflexivity.
  - rewrite fmap_cons in Ho. apply NoDup_cons in Ho as [Hfresh Ho].
    cbn [fold_left].
    rewrite (alter_at_id (fun c => withDisplayOrder c k) (cat_id o) updated Hu).
    rewrite IH; [|rewrite fmap_map_preserved; [done|]|done].
    2: { intros c. by destruct (cat_id c =? cat_id o). }
    rewrite map_map. apply map_ext. intros c.
    unfold renumbered at 2. cbn [findIndex].
    destruct (Z.eqb_spec (cat_id c) (cat_id o)) as [Heq|Hne].
    + rewrite <- Heq, Z.eqb_refl.
      unfold renumbered. rewrite withDisplayOrder_id.
      assert (Hnone : findIndex (fun o0 => Z.eqb (cat_id o0) (cat_id c)) rest
                      = None).
      { apply findIndex_None. intros x Hx.
        apply Z.eqb_neq. intros Hxc. apply Hfresh.
        rewrite <- Heq, <- Hxc. by apply list_elem_of_fmap_2. }
      rewrite Hnone. f_equal. lia.
    + assert (Hoc : Z.eqb (cat_id o) (cat_id c) = false)
        by (apply Z.eqb_neq; congruence).
      rewrite Hoc. unfold renumbered.
      destruct (findIndex (fun o0 => Z.eqb (cat_id o0) (cat_id c)) rest)
        as [i|]; simpl; [|done].
      f_equal. lia.
Qed.

Lemma reassignOrders_map (ordered updated : list Category) :
  NoDup (ids updated) -> NoDup (ids ordered) ->
  reassignOrders ordered updated = map (renumbered ordered 0) updated.
Proof. intros Hu Ho. unfold reassignOrders. by apply reassign_fold. Qed.

Lemma map_fmap {A B : Type} (f : A -> B) (l : list A) : map f l = f <$> l.
Proof. induction l as [|x l IH]; [done|]. cbn [map]. by rewrite fmap_cons, IH. Qed.

Lemma section_eqb_eq (a b : SectionName) : section_eqb a b = true <-> a = b.
Proof. destruct a, b; simpl; split; congruence. Qed.

Lemma elem_of_inSection (s : SectionName) (l : list Category) (c : Category) :
  c ∈ inSection s l <-> c ∈ l /\ cat_section c = s.
Proof.
  unfold inSection. rewrite elem_of_List_filter, section_eqb_eq. done.
Qed.

Lemma List_filter_map_preserved {A : Type} (f : A -> bool) (g : A -> A)
  (l : list A) :
  (forall x, f (g x) = f x) ->
  List.filter f (map g l) = map g (List.filter f l).
Proof.
  intros Hg. induction l as [|x l IH]; [done|].
  cbn [map List.filter]. rewrite Hg, IH. by destruct (f x).
Qed.

Lemma List_filter_filter_implied {A : Type} (f g : A -> bool) (l : list A) :
  (forall x, x ∈ l -> f x = true -> g x = true) ->
  List.filter f (List.filter g l) = List.filter f l.
Proof.
  induction l as [|x l IH]; intros Himp; [done|].
  assert (IH' : List.filter f (List.filter g l) = List.filter f l).
  { apply IH. intros y Hy. apply Himp. by apply list_elem_of_further. }
  cbn [List.filter]. destruct (f x) eqn:Hf.
  - rewrite (Himp x) by (done || apply list_elem_of_here).
    cbn [List.filter]. by rewrite Hf, IH'.
  - destruct (g x); cbn [List.filter]; by rewrite ?Hf, IH'.
Qed.

Lemma find_id (l : list Category) (c : Category) :
  NoDup (ids l) -> c ∈ l -> List.find (hasId (cat_id c)) l = Some c.
Proof.
  induction l as [|x l IH]; intros Hnd Hc; [by apply elem_of_nil in Hc|].
  cbn [List.find].
  destruct (Z.eqb_spec (cat_id x) (cat_id c)) as [Heq|Hne].
  - f_equal. apply (ids_key_inj (x :: l)); try done.
    apply list_elem_of_here.
  - rewrite fmap_cons in Hnd. apply NoDup_cons in Hnd as [_ Hnd].
    apply elem_of_cons in Hc as [->|Hc]; [done|]. by apply IH.
Qed.

(** Taking a category out of a list with distinct identifiers and
    putting it back anywhere gives the same categories. *)
Lemma filter_out_id_perm (l : list Category) (t : Category) :
  NoDup (ids l) -> t ∈ l ->
  t :: List.filter (fun c => negb (Z.eqb (cat_id c) (cat_id t))) l ≡ₚ l.
Proof.
  induction l as [|x l IH]; intros Hnd Ht; [by apply elem_of_nil in Ht|].
  pose proof Hnd as Hnd'.
  rewrite fmap_cons in Hnd. apply NoDup_cons in Hnd as [Hx Hnd].
  cbn [List.filter].
  destruct (Z.eqb_spec (cat_id x) (cat_id t)) as [Heq|Hne]; cbn [negb].
  - assert (x = t) as ->.
    { apply (ids_key_inj (x :: l)); try done. apply list_elem_of_here. }
    rewrite List_filter_all; [done|].
    intros y Hy. apply negb_true_iff, Z.eqb_neq. intros Hyt.
    apply Hx. rewrite <- Hyt. by apply list_elem_of_fmap_2.
  - apply elem_of_cons in Ht as [->|Ht]; [done|].
    rewrite Permutation_swap. by rewrite IH.
Qed.

Lemma splice_in_perm {A : Type} (pos : Z) (x : A) (l : list A) :
  splice_in pos x l ≡ₚ x :: l.
Proof.
  unfold splice_in. rewrite <- Permutation_middle.
  by rewrite take_drop.
Qed.

Lemma ids_NoDup_perm_section (s : SectionName) (ordered l : list Category) :
  NoDup (ids l) -> ordered ≡ₚ inSection s l -> NoDup (ids ordered).
Proof.
  intros Hnd Hperm. rewrite Hperm.
  eapply sublist_NoDup; [exact Hnd|].
  apply fmap_sublist. apply List_filter_sublist.
Qed.

(** Renumbering along a list that holds the categories of one section
    makes that section dense and touches nothing but display orders of
    that section. *)
Lemma renumber_dense (s : SectionName) (ordered updated : list Category) :
  NoDup (ids updated) ->
  ordered ≡ₚ inSection s updated ->
  let result := map (renumbered ordered 0) updated in
  dense s result
  /\ (forall s', s' ≠ s ->
        sectionOrders s' result = sectionOrders s' updated)
  /\ unordered <$> result = unordered <$> updated.
Proof.
  intros Hnd Hperm result.
  pose proof (ids_NoDup_perm_section s ordered updated Hnd Hperm) as Hord.
  assert (Hsec : forall s',
             inSection s' result
             = map (renumbered ordered 0) (inSection s' updated)).
  { intros s'. unfold inSection, result.
    apply List_filter_map_preserved. intros c.
    by rewrite renumbered_section. }
  split; [|split].
  - unfold dense, sectionOrders. rewrite Hsec.
    rewrite length_map, !map_fmap, <- list_fmap_compose.
    assert (Hlen : length (inSection s updated) = length ordered)
      by (symmetry; by apply Permutation_length).
    rewrite Hlen.
    transitivity ((cat_display_order ∘ renumbered ordered 0) <$> ordered).
    { apply fmap_Permutation. by symmetry. }
    match goal with
    | |- ?a ≡ₚ ?b => replace a with b; [done|symmetry]
    end.
    apply list_eq. intros i.
    rewrite !list_lookup_fmap.
    destruct (ordered !! i) as [c|] eqn:Hc; simpl.
    + assert (Hi : seq 0 (length ordered) !! i = Some i).
      { apply lookup_seq. split; [done|]. by eapply lookup_lt_Some. }
      rewrite Hi. simpl. f_equal. unfold renumbered.
      rewrite (findIndex_id ordered i c Hord Hc). simpl. lia.
    + apply lookup_ge_None_1 in Hc.
      assert (Hi : seq 0 (length ordered) !! i = None).
      { apply lookup_ge_None_2. by rewrite length_seq. }
      by rewrite Hi.
  - intros s' Hs'. unfold sectionOrders. rewrite Hsec. f_equal.
    transitivity (map (fun c : Category => c) (inSection s' updated));
      [|apply map_id].
    apply map_ext_in. intros c Hc. apply list_elem_of_In in Hc.
    apply elem_of_inSection in Hc as [Hc Hcs].
    unfold renumbered.
    assert (Hnone : findIndex (fun o => Z.eqb (cat_id o) (cat_id c)) ordered
                    = None); [|by rewrite Hnone].
    apply findIndex_None. intros o Ho. apply Z.eqb_neq. intros Hoc.
    rewrite Hperm in Ho. apply elem_of_inSection in Ho as [Ho Hos].
    assert (o = c) by (by apply (ids_key_inj updated)). congruence.
  - unfold result. apply fmap_map_preserved.
    intros c. apply unordered_renumbered.
Qed.

End Renumbering.

(* ================================================================== *)
(** * Invariants of the category manager *)
(* ================================================================== *)

Section ManagerInvariants.

Import CategoryManager.

Local Abbreviation ids l := (cat_id <$> l).
Local Abbreviation hasId a := (fun c : Category => Z.eqb (cat_id c) a).

(** The renumbering loop changes display orders only. *)
Lemma reassignOrders_unordered (ordered updated : list Category) :
  unordered <$> reassignOrders ordered updated = unordered <$> updated.
Proof.
  unfold reassignOrders. generalize 0 as k. revert updated.
  induction ordered as [|o rest IH]; intros updated k; [done|].
  cbn [fold_left]. rewrite IH.
  destruct (findIndex (fun c => Z.eqb (cat_id c) (cat_id o)) updated)
    as [i|]; [|done].
  rewrite (list_fmap_alter unordered _ (fun c => c)).
  - by apply list_alter_id.
  - apply Forall_forall. intros c _. reflexivity.
Qed.

Lemma unordered_fmap_eq {B : Type} (proj : Category -> B)
  (l l' : list Category) :
  (forall c, proj (unordered c) = proj c) ->
  unordered <$> l = unordered <$> l' -> proj <$> l = proj <$> l'.
Proof.
  intros Hproj Heq.
  assert (Hl : forall k : list Category,
             proj <$> k = proj <$> (unordered <$> k)).
  { intros k. rewrite <- list_fmap_compose. apply list_fmap_ext.
    intros i c _. simpl. by rewrite Hproj. }
  by rewrite (Hl l), (Hl l'), Heq.
Qed.

Lemma unordered_ids (l l' : list Category) :
  unordered <$> l = unordered <$> l' -> ids l = ids l'.
Proof. by apply unordered_fmap_eq. Qed.

(** Density is a property of the display orders of the section. *)
Lemma dense_orders (s : SectionName) (l : list Category) :
  dense s l
  <-> sectionOrders s l
      ≡ₚ map Z.of_nat (seq 0 (length (sectionOrders s l))).
Proof. unfold dense, sectionOrders. by rewrite length_map. Qed.

Lemma dense_orders_eq (s : SectionName) (l l' : list Category) :
  sectionOrders s l = sectionOrders s l' -> dense s l' -> dense s l.
Proof. rewrite !dense_orders. by intros ->. Qed.

Lemma filtered_ids_NoDup (f : Category -> bool) (l : list Category) :
  NoDup (ids l) -> NoDup (ids (List.filter f l)).
Proof.
  intros Hnd. eapply sublist_NoDup; [exact Hnd|].
  apply fmap_sublist, List_filter_sublist.
Qed.

(** X18. For distinct identifiers, deleting a category leaves its
    section dense and the display orders of the other section as they
    were. *)
Theorem handleDelete_keeps_dense (st : State) (c : Category) :
  NoDup (ids (categories st)) ->
  c ∈ categories st ->
  let st' := handleDelete (cat_id c) true st in
  dense (cat_section c) (categories st')
  /\ forall s, s ≠ cat_section c ->
       sectionOrders s (categories st') = sectionOrders s (categories st).
Proof.
  intros Hnd Hc st'. subst st'. unfold handleDelete. cbn [negb].
  rewrite (find_id _ _ Hnd Hc). cbn [categories].
  set (updated := List.filter (fun cat => negb (Z.eqb (cat_id cat) (cat_id c)))
                    (categories st)).
  set (ordered := sort compareOrderThenId
                    (inSection (cat_section c) updated)).
  assert (Hu : NoDup (ids updated)) by by apply filtered_ids_NoDup.
  assert (Hperm : ordered ≡ₚ inSection (cat_section c) updated)
    by apply sort_perm.
  rewrite reassignOrders_map;
    [|done|by apply (ids_NoDup_perm_section (cat_section c) _ updated)].
  destruct (renumber_dense (cat_section c) ordered updated Hu Hperm)
    as (Hdense & Hother & _).
  split; [exact Hdense|].
  intros s Hs. rewrite (Hother s Hs). unfold sectionOrders. f_equal.
  unfold updated, inSection. apply List_filter_filter_implied.
  intros x Hx Hsec. apply section_eqb_eq in Hsec.
  apply negb_true_iff, Z.eqb_neq. intros Hid.
  assert (x = c) by (by apply (ids_key_inj (categories st))). congruence.
Qed.

(** X19. Deleting an identifier that no category carries changes
    nothing; otherwise it removes the categories with that identifier,
    keeps the others in their order, and changes nothing of them but
    display orders. *)
Theorem handleDelete_removes (st : State) (id : Z) :
  let st' := handleDelete id true st in
  (List.find (hasId id) (categories st) = None -> st' = st)
  /\ (is_Some (List.find (hasId id) (categories st)) ->
      unordered <$> categories st'
      = unordered
        <$> List.filter (fun cat => negb (Z.eqb (cat_id cat) id))
              (categories st)
      /\ (id ∉ ids (categories st'))
      /\ nextCategoryId st' = nextCategoryId st).
Proof.
  intros st'. subst st'. unfold handleDelete. cbn [negb]. split.
  - by intros ->.
  - intros [found ->]. cbn [categories nextCategoryId].
    rewrite reassignOrders_unordered. split; [done|]. split; [|done].
    match goal with
    | |- _ ∉ ids ?r =>
        assert (Hids : ids r
                       = ids (List.filter
                                (fun cat => negb (Z.eqb (cat_id cat) id))
                                (categories st)))
          by (apply unordered_ids, reassignOrders_unordered)
    end.
    rewrite Hids. intros Hin.
    apply list_elem_of_fmap in Hin as (x & -> & Hx).
    apply elem_of_List_filter in Hx as [_ Hx].
    apply negb_true_iff, Z.eqb_neq in Hx. done.
Qed.

(** On a safe integer, adding 1 is exact. *)
Lemma succDouble_safe (a : Z) :
  isSafeInteger a = true -> succDouble a = a + 1.
Proof.
  unfold isSafeInteger, succDouble, nearestDouble. cbv zeta.
  change (2 ^ 53) with 9007199254740992. intros Hsafe.
  apply Z.ltb_lt in Hsafe.
  destruct (Z.leb_spec (Z.abs (a + 1)) 9007199254740992); [done|lia].
Qed.

(** At 2^53 adding 1 is lost to rounding. *)
Example succDouble_absorbs : succDouble (2 ^ 53) = 2 ^ 53.
Proof. vm_compute. reflexivity. Qed.

Lemma validateForm_true (st : State) :
  validateForm st = true ->
  let f := formData st in
  blank (form_label f) = false
  /\ blank (form_name f) = false
  /\ valid_name (form_name f) = true
  /\ (forall cat, cat ∈ categories st -> cat_name cat = form_name f ->
        exists e, editingCategory st = Some e /\ cat_id cat = cat_id e)
  /\ 0 <= form_display_order f
     <= Z.of_nat (length (inSection (form_section f) (categories st))).
Proof.
  unfold validateForm. cbv zeta. intros H.
  apply negb_true_iff in H. apply orb_false_iff in H as [H Ho].
  apply orb_false_iff in H as [Hl Hn].
  destruct (blank (form_name (formData st))); [discriminate|].
  destruct (valid_name (form_name (formData st))); [|discriminate].
  cbn [negb] in Hn.
  split; [done|]. split; [done|]. split; [done|]. split.
  - intros cat Hin Hname.
    destruct (editingCategory st) as [e|] eqn:He.
    + exists e. split; [done|].
      destruct (Z.eqb_spec (cat_id cat) (cat_id e)) as [|Hne]; [done|].
      exfalso. apply not_true_iff_false in Hn. apply Hn.
      apply existsb_exists. exists cat. split; [by apply list_elem_of_In|].
      rewrite Hname, String.eqb_refl. cbn [andb].
      by apply negb_true_iff, Z.eqb_neq.
    + exfalso. apply not_true_iff_false in Hn. apply Hn.
      apply existsb_exists. exists cat. split; [by apply list_elem_of_In|].
      by rewrite Hname, String.eqb_refl.
  - apply orb_false_iff in Ho as [H1 H2].
    apply Z.ltb_ge in H1. rewrite Z.gtb_ltb in H2. apply Z.ltb_ge in H2.
    lia.
Qed.

(** What a save that passes validation stores: the updated list, with
    or without a renumbering of it. *)
Lemma handleSave_valid (st : State) :
  validateForm st = true ->
  nextCategoryId (handleSave st)
  = match editingCategory st with
    | Some _ => nextCategoryId st
    | None => succDouble (nextCategoryId st)
    end
  /\ (categories (handleSave st) = updatedCategories st
      \/ exists ordered,
           categories (handleSave st)
           = reassignOrders ordered (updatedCategories st)).
Proof.
  intros Hv. unfold handleSave, updatedCategories. rewrite Hv.
  cbn [negb]. cbv zeta.
  destruct (editingCategory st) as [e|]; cbn [fst snd categories nextCategoryId];
    (split; [done|]).
  - match goal with |- context [if ?b then _ else _] => destruct b end;
      [|by left].
    match goal with |- context [List.find ?f ?l] => destruct (List.find f l) end;
      [right; eauto|by left].
  - match goal with |- context [if ?b then _ else _] => destruct b end;
      [right; eauto|by left].
Qed.

Lemma handleSave_unordered (st : State) :
  validateForm st = true ->
  unordered <$> categories (handleSave st)
  = unordered <$> updatedCategories st.
Proof.
  intros Hv. destruct (handleSave_valid st Hv) as [_ [-> | [ordered ->]]];
    [done|apply reassignOrders_unordered].
Qed.

Lemma updatedCategories_ids (st : State) :
  ids (updatedCategories st)
  = match editingCategory st with
    | Some _ => ids (categories st)
    | None => ids (categories st) ++ [nextCategoryId st]
    end.
Proof.
  unfold updatedCategories. cbv zeta.
  destruct (editingCategory st) as [e|].
  - apply fmap_map_preserved. intros c.
    by destruct (Z.eqb (cat_id c) (cat_id e)).
  - by rewrite fmap_app.
Qed.

Lemma updatedCategories_NoDup (st : State) :
  ids_fresh st -> NoDup (ids (updatedCategories st)).
Proof.
  intros [Hnd Hlt]. rewrite updatedCategories_ids.
  destruct (editingCategory st); [done|].
  apply NoDup_app. split; [done|]. split; [|apply NoDup_singleton].
  intros x Hx Hx'. apply list_elem_of_singleton in Hx'. subst x.
  apply list_elem_of_fmap in Hx as (c & Hc & Hin).
  specialize (Hlt c Hin). lia.
Qed.

(** The renumbering of [handleSave], for a target that is in the
    section of the form. *)
Lemma reorder_dense (fs : SectionName) (d : Z) (target : Category)
  (updated : list Category) :
  NoDup (ids updated) -> target ∈ updated -> cat_section target = fs ->
  let ordered :=
    splice_in d target
      (sort compareOrderThenId
         (List.filter (fun c => negb (Z.eqb (cat_id c) (cat_id target)))
            (inSection fs updated))) in
  dense fs (reassignOrders ordered updated)
  /\ forall s, s ≠ fs ->
       sectionOrders s (reassignOrders ordered updated)
       = sectionOrders s updated.
Proof.
  intros Hnd Hin Hsec ordered.
  assert (Hperm : ordered ≡ₚ inSection fs updated).
  { unfold ordered. rewrite splice_in_perm, sort_perm.
    apply filter_out_id_perm; [by apply filtered_ids_NoDup|].
    by apply elem_of_inSection. }
  rewrite reassignOrders_map;
    [|done|by apply (ids_NoDup_perm_section fs _ updated)].
  destruct (renumber_dense fs ordered updated Hnd Hperm) as (H1 & H2 & _).
  by split.
Qed.

Lemma find_some_id (a : Z) (l : list Category) :
  a ∈ ids l ->
  exists t, List.find (hasId a) l = Some t /\ t ∈ l /\ cat_id t = a.
Proof.
  intros Hin. apply list_elem_of_fmap in Hin as (c & -> & Hc).
  destruct (List.find (hasId (cat_id c)) l) as [t|] eqn:Hfind.
  - apply find_some in Hfind as [Ht Hid]. exists t.
    split; [done|]. split; [by apply list_elem_of_In|].
    by apply Z.eqb_eq in Hid.
  - exfalso. apply list_elem_of_In in Hc.
    pose proof (find_none _ _ Hfind c Hc) as Hn. cbn beta in Hn.
    by rewrite Z.eqb_refl in Hn.
Qed.

Lemma sectionOrders_app (s : SectionName) (l : list Category) (c : Category) :
  sectionOrders s (l ++ [c])
  = sectionOrders s l
    ++ (if section_eqb (cat_section c) s then [cat_display_order c] else []).
Proof.
  unfold sectionOrders, inSection. rewrite List.filter_app, map_app. cbn [List.filter].
  by destruct (section_eqb (cat_section c) s).
Qed.

(** X20. Creating a category through a form that passes validation
    keeps every dense section dense. *)
Theorem handleSave_create_keeps_dense (st : State) (s : SectionName) :
  validateForm st = true ->
  editingCategory st = None ->
  ids_fresh st ->
  dense s (categories st) ->
  dense s (categories (handleSave st)).
Proof.
  intros Hv He Hfresh Hdense.
  pose proof (updatedCategories_NoDup st Hfresh) as Hnd.
  destruct (validateForm_true st Hv) as (_ & _ & _ & _ & Hd).
  cbv zeta in Hd. revert Hnd.
  unfold handleSave, updatedCategories. rewrite Hv, He.
  cbn [negb]. cbv zeta. cbn [fst snd categories].
  set (newCategory := {| cat_id := nextCategoryId st |}).
  set (updated := categories st ++ [newCategory]).
  set (fs := form_section (formData st)) in *.
  intros Hnd.
  assert (Hother : section_eqb fs s = false ->
            sectionOrders s updated = sectionOrders s (categories st)).
  { intros Hs. unfold updated. rewrite sectionOrders_app.
    change (cat_section newCategory) with fs. rewrite Hs. apply app_nil_r. }
  match goal with |- context [if ?b then _ else _] => destruct b eqn:Hcond end.
  - destruct (reorder_dense fs (form_display_order (formData st))
                newCategory updated Hnd) as [Hfs Hrest].
    { unfold updated. apply elem_of_app. right. apply list_elem_of_here. }
    { reflexivity. }
    destruct (section_eqb fs s) eqn:Hs.
    + apply section_eqb_eq in Hs. by rewrite <- Hs.
    + eapply dense_orders_eq; [|exact Hdense].
      rewrite Hrest; [by apply Hother|].
      intros ->. assert (section_eqb fs fs = true) by by apply section_eqb_eq.
      congruence.
  - apply orb_false_iff in Hcond as [Hmid _]. apply Z.ltb_ge in Hmid.
    destruct (section_eqb fs s) eqn:Hs.
    + apply dense_orders. unfold updated. rewrite sectionOrders_app.
      change (cat_section newCategory) with fs. rewrite Hs.
      rewrite length_app. cbn [length]. rewrite Nat.add_1_r, seq_S, map_app.
      apply dense_orders in Hdense.
      apply Permutation_app; [exact Hdense|].
      cbn [map Nat.add]. apply section_eqb_eq in Hs.
      unfold sectionOrders. rewrite length_map, <- Hs.
      change (cat_display_order newCategory)
        with (form_display_order (formData st)).
      replace (form_display_order (formData st))
        with (Z.of_nat (length (inSection fs (categories st)))) by lia.
      done.
    + eapply dense_orders_eq; [|exact Hdense]. by apply Hother.
Qed.

(** X21. Saving an edit whose display order is below the number of
    categories of the chosen section leaves that section dense. *)
Theorem handleSave_edit_renumbers (st : State) (e : Category) :
  validateForm st = true ->
  editingCategory st = Some e ->
  NoDup (ids (categories st)) ->
  cat_id e ∈ ids (categories st) ->
  form_display_order (formData st)
  < Z.of_nat
      (length (inSection (form_section (formData st)) (categories st))) ->
  dense (form_section (formData st)) (categories (handleSave st)).
Proof.
  intros Hv He Hnd Hin Hlt.
  assert (Hids : ids (updatedCategories st) = ids (categories st))
    by (by rewrite updatedCategories_ids, He).
  revert Hids.
  unfold handleSave, updatedCategories. rewrite Hv, He.
  cbn [negb]. cbv zeta. cbn [fst snd categories].
  set (updated := map _ (categories st)).
  set (fs := form_section (formData st)) in *.
  intros Hids.
  apply Z.ltb_lt in Hlt. rewrite Hlt. cbn [orb].
  rewrite <- Hids in Hin, Hnd.
  destruct (find_some_id _ _ Hin) as (t & -> & Ht & Hid).
  apply reorder_dense; [done|done|].
  unfold updated in Ht. rewrite map_fmap in Ht.
  apply list_elem_of_fmap in Ht as (c0 & -> & _).
  destruct (Z.eqb_spec (cat_id c0) (cat_id e)) as [|Hne]; [done|].
  by destruct Hne.
Qed.

(** X22. While the next identifier is a safe integer (below 2^53 in
    size, so that adding 1 to it is exact), distinct identifiers below
    the next identifier are an invariant of saving and of deleting. *)
Theorem ids_fresh_preserved (st : State) :
  ids_fresh st ->
  isSafeInteger (nextCategoryId st) = true ->
  ids_fresh (handleSave st)
  /\ forall id confirmed, ids_fresh (handleDelete id confirmed st).
Proof.
  intros Hfresh Hsafe. apply succDouble_safe in Hsafe. split.
  - destruct (validateForm st) eqn:Hv;
      [|by unfold handleSave; rewrite Hv].
    pose proof (updatedCategories_NoDup st Hfresh) as Hnd.
    pose proof (unordered_ids _ _ (handleSave_unordered st Hv)) as Hids.
    destruct (handleSave_valid st Hv) as [Hnext _].
    destruct Hfresh as [_ Hbelow].
    split; [by rewrite Hids|].
    intros c Hc.
    assert (Hc' : cat_id c ∈ ids (categories (handleSave st)))
      by (apply list_elem_of_fmap; eauto).
    rewrite Hids, updatedCategories_ids in Hc'. rewrite Hnext.
    rewrite Hsafe.
    destruct (editingCategory st).
    + apply list_elem_of_fmap in Hc' as (c' & -> & Hc'). by apply Hbelow.
    + apply elem_of_app in Hc' as [Hc'|Hc'].
      * apply list_elem_of_fmap in Hc' as (c' & -> & Hc').
        specialize (Hbelow c' Hc'). lia.
      * apply list_elem_of_singleton in Hc'. lia.
  - intros id confirmed. unfold handleDelete.
    destruct confirmed; cbn [negb]; [|done].
    destruct (List.find _ (categories st)) as [found|]; [|done].
    destruct Hfresh as [Hnd Hbelow].
    match goal with
    | |- ids_fresh {| categories := reassignOrders ?o ?u |} =>
        pose proof (unordered_ids _ _ (reassignOrders_unordered o u)) as Hids
    end.
    split; cbn [categories nextCategoryId].
    + rewrite Hids. by apply filtered_ids_NoDup.
    + intros c Hc.
      assert (Hc' : cat_id c ∈ ids (List.filter
                      (fun cat => negb (Z.eqb (cat_id cat) id))
                      (categories st))).
      { rewrite <- Hids. apply list_elem_of_fmap. eauto. }
      apply list_elem_of_fmap in Hc' as (c' & -> & Hc').
      apply elem_of_List_filter in Hc' as [Hc' _]. by apply Hbelow.
Qed.

Lemma renamed_NoDup (n : string) (a : Z) (g : Category -> Category)
  (l : list Category) :
  (forall c, cat_id c = a -> cat_name (g c) = n) ->
  (forall c, cat_id c ≠ a -> cat_name (g c) = cat_name c) ->
  (forall c, c ∈ l -> cat_name c = n -> cat_id c = a) ->
  NoDup (ids l) -> NoDup (cat_name <$> l) ->
  NoDup (cat_name <$> map g l).
Proof.
  intros Hhit Hmiss.
  induction l as [|x l IH]; intros Hn Hids Hnames; [constructor|].
  cbn [map]. rewrite !fmap_cons in *.
  apply NoDup_cons in Hids as [Hx Hids].
  apply NoDup_cons in Hnames as [Hxn Hnames].
  assert (IH' : NoDup (cat_name <$> map g l)).
  { apply IH; [|done|done]. intros c Hc. apply Hn. by apply list_elem_of_further. }
  apply NoDup_cons. split; [|done].
  intros Hin. change (map g l) with (g <$> l) in Hin.
  apply list_elem_of_fmap in Hin as (y' & Hy' & Hin).
  apply list_elem_of_fmap in Hin as (y & -> & Hy).
  assert (Hxy : cat_id y ≠ cat_id x).
  { intros Heq. apply Hx. rewrite <- Heq. apply list_elem_of_fmap. eauto. }
  assert (Hname : cat_name y ≠ cat_name x).
  { intros Heq. apply Hxn. rewrite <- Heq. apply list_elem_of_fmap. eauto. }
  destruct (Z.eq_dec (cat_id x) a) as [Hxa|Hxa].
  - rewrite (Hhit x Hxa) in Hy'.
    rewrite (Hmiss y) in Hy' by congruence.
    symmetry in Hy'.
    apply (Hn y) in Hy'; [congruence|by apply list_elem_of_further].
  - rewrite (Hmiss x Hxa) in Hy'.
    destruct (Z.eq_dec (cat_id y) a) as [Hya|Hya].
    + rewrite (Hhit y Hya) in Hy'.
      apply (Hn x) in Hy'; [congruence|apply list_elem_of_here].
    + rewrite (Hmiss y Hya) in Hy'. congruence.
Qed.

(** X23. Saving keeps the names of the categories distinct. *)
Theorem handleSave_keeps_names_distinct (st : State) :
  NoDup (ids (categories st)) ->
  NoDup (cat_name <$> categories st) ->
  NoDup (cat_name <$> categories (handleSave st)).
Proof.
  intros Hids Hnames.
  destruct (validateForm st) eqn:Hv; [|by unfold handleSave; rewrite Hv].
  rewrite (unordered_fmap_eq cat_name _ (updatedCategories st));
    [|done|by apply handleSave_unordered].
  destruct (validateForm_true st Hv) as (_ & _ & _ & Huniq & _).
  cbv zeta in Huniq. unfold updatedCategories. cbv zeta.
  destruct (editingCategory st) as [e|] eqn:He.
  - apply (renamed_NoDup (form_name (formData st)) (cat_id e));
      [| | |done|done].
    + intros c Hc. apply Z.eqb_eq in Hc. by rewrite Hc.
    + intros c Hc. apply Z.eqb_neq in Hc. by rewrite Hc.
    + intros c Hc Hname.
      destruct (Huniq c Hc Hname) as (e' & He' & Hid). congruence.
  - rewrite fmap_app. apply NoDup_app. split; [done|].
    split; [|apply NoDup_singleton].
    intros n Hn Hn'. apply list_elem_of_singleton in Hn'. cbn in Hn'.
    subst n. apply list_elem_of_fmap in Hn as (c & Hname & Hc).
    destruct (Huniq c Hc (eq_sym Hname)) as (e' & He' & _). discriminate.
Qed.

End ManagerInvariants.

(** X30. Opening the form for a new category, choosing a section and
    typing a display order each leave an order that validation accepts;
    whether the form passes validation does not depend on the order
    that was typed. *)
Theorem form_order_in_range (st : CategoryManager.State) (value : Z)
  (s : SectionName) :
  order_in_range (CategoryManager.handleCreate st)
  /\ order_in_range (CategoryManager.changeSection s st)
  /\ order_in_range (CategoryManager.changeDisplayOrder value st)
  /\ CategoryManager.validateForm
       (CategoryManager.changeDisplayOrder value st)
     = CategoryManager.validateForm
         (CategoryManager.changeDisplayOrder 0 st).
Proof.
  unfold order_in_range, CategoryManager.handleCreate,
    CategoryManager.changeSection, CategoryManager.changeDisplayOrder,
    CategoryManager.setFormData, CategoryManager.validateForm.
  cbv zeta.
  cbn [CategoryManager.formData CategoryManager.categories
       CategoryManager.form_display_order CategoryManager.form_section
       CategoryManager.form_name CategoryManager.form_label
       CategoryManager.editingCategory].
  set (count :=
         Z.of_nat
           (length
              (CategoryManager.inSection
                 (CategoryManager.form_section (CategoryManager.formData st))
                 (CategoryManager.categories st)))).
  assert (Hcount : 0 <= count) by (unfold count; lia).
  split; [lia|]. split; [lia|]. split; [lia|].
  assert (Hok : forall v,
            ((Z.max 0 (Z.min count v) <? 0)
             || (Z.max 0 (Z.min count v) >? count))%bool = false).
  { intros v. apply orb_false_iff. split.
    - apply Z.ltb_ge. lia.
    - rewrite Z.gtb_ltb. apply Z.ltb_ge. lia. }
  by rewrite !Hok.
Qed.

(* ================================================================== *)
(** * Deleting a category that still has items *)
(* ================================================================== *)

Section OrphanedItems.

Variable newDate : string -> Date.

Lemma find_absent_id (a : Z) (l : list Category) :
  a ∉ cat_id <$> l -> List.find (fun c => Z.eqb (cat_id c) a) l = None.
Proof.
  intros Ha. destruct (List.find _ l) as [t|] eqn:Hfind; [|done].
  apply find_some in Hfind as [Ht Hid]. apply Z.eqb_eq in Hid.
  exfalso. apply Ha. apply list_elem_of_fmap. exists t.
  split; [done|by apply list_elem_of_In].
Qed.

Lemma handleDelete_id_gone (st : CategoryManager.State) (c : Category) :
  c ∈ CategoryManager.categories st ->
  cat_id c
  ∉ cat_id
    <$> CategoryManager.categories
          (CategoryManager.handleDelete (cat_id c) true st).
Proof.
  intros Hc. unfold CategoryManager.handleDelete. cbn [negb].
  destruct (List.find _ (CategoryManager.categories st)) as [found|] eqn:Hfind.
  - cbn [CategoryManager.categories].
    rewrite (unordered_ids _ _ (reassignOrders_unordered _ _)).
    intros Hin. apply list_elem_of_fmap in Hin as (x & Hid & Hx).
    apply elem_of_List_filter in Hx as [_ Hx].
    apply negb_true_iff, Z.eqb_neq in Hx. congruence.
  - apply list_elem_of_In in Hc.
    pose proof (find_none _ _ Hfind c Hc) as Hn. cbn beta in Hn.
    by rewrite Z.eqb_refl in Hn.
Qed.

(** X24. Deleting a category does not fail when items use it: after
    the view has taken over the new categories, the items of the
    deleted category are still in the list, and the timeline draws none
    of them. *)
Theorem deleted_category_hides_items (st : CategoryManager.State)
  (c : Category) (its : list TimelineItem) (p : TimelineProps) :
  c ∈ CategoryManager.categories st ->
  let remaining :=
    CategoryManager.categories
      (CategoryManager.handleDelete (cat_id c) true st) in
  let its' := LifeMapView.handleCategoriesChange remaining its in
  categories p = remaining ->
  item_id <$> its' = item_id <$> its
  /\ forall item, item ∈ its' -> item_category_id item = cat_id c ->
       renderItem newDate p item = None.
Proof.
  intros Hc remaining its' Hcats.
  pose proof (handleDelete_id_gone st c Hc) as Hgone.
  fold remaining in Hgone. split.
  - unfold its', LifeMapView.handleCategoriesChange.
    induction its as [|i l IH]; [done|].
    cbn [map]. by rewrite !fmap_cons, IH.
  - intros item Hitem Hid. unfold renderItem, getCategory.
    unfold its', LifeMapView.handleCategoriesChange in Hitem.
    match type of Hitem with
    | _ ∈ map ?g its => change (map g its) with (g <$> its) in Hitem
    end.
    apply list_elem_of_fmap in Hitem as (i0 & -> & _).
    cbn [item_category item_category_id LifeMapView.withCategory] in *.
    rewrite Hid, (find_absent_id _ _ Hgone).
    unfold categoryMap. rewrite Hcats.
    rewrite (fold_insert_other cat_id (fun cat => cat)) by done.
    done.
Qed.

End OrphanedItems.

(* ================================================================== *)
(** * Items entered through the form *)
(* ================================================================== *)

Section ItemFormFacts.

Variable Number : string -> number.
Variable newDate : string -> Date.
Variable dateBefore : string -> string -> bool.
Variable maxAge : Q.

Local Abbreviation submit :=
  (ItemForm.handleSubmit Number newDate dateBefore maxAge).

Lemma validateAge_Some (value : string) (q : Q) :
  ItemForm.validateAge Number maxAge value = Some q ->
  Number value = Fin q /\ (0 <= q)%Q /\ (q <= maxAge)%Q.
Proof.
  unfold ItemForm.validateAge.
  destruct (CategoryManager.blank value); [discriminate|].
  destruct (Number value) as [num| | |]; try discriminate.
  destruct (Qltb num 0) eqn:H0; [discriminate|].
  destruct (Qgtb num maxAge) eqn:Hmax; [discriminate|].
  cbn [orb]. intros [= ->].
  apply Qltb_ge in H0. apply Qgtb_le in Hmax. done.
Qed.

(** What a submission in age mode hands to [onSave]. *)
Lemma submit_age (category : Category) (f : ItemForm.Fields)
  (d : ItemForm.ItemData) :
  submit category f = Some d ->
  ItemForm.inputMode f = age_mode ->
  ItemForm.data_input_mode d = age_mode
  /\ exists s,
       ItemForm.data_start_age d = Some s
       /\ (0 <= s)%Q /\ (s <= maxAge)%Q
       /\ (forall e, ItemForm.data_end_age d = Some e ->
             (s <= e)%Q /\ (e <= maxAge)%Q)
       /\ (ItemForm.data_use_max_age d = true ->
             ItemForm.data_end_age d = None)
       /\ ItemForm.data_start_date d = None
       /\ ItemForm.data_end_date d = None.
Proof.
  unfold ItemForm.handleSubmit, ItemForm.hasErrors, ItemForm.validationErrors.
  intros Hsub Hmode. rewrite Hmode in Hsub. cbv zeta in Hsub.
  cbn [ItemForm.err_title ItemForm.err_startAge ItemForm.err_endAge
       ItemForm.err_startDate ItemForm.err_endDate] in Hsub.
  match type of Hsub with
  | (if ?b then _ else _) = _ => destruct b eqn:Herr; [discriminate|]
  end.
  injection Hsub as <-.
  cbn [ItemForm.data_input_mode ItemForm.data_start_age
       ItemForm.data_end_age ItemForm.data_use_max_age
       ItemForm.data_start_date ItemForm.data_end_date].
  split; [done|].
  repeat (apply orb_false_iff in Herr as [Herr ?]).
  destruct (CategoryManager.blank (ItemForm.startAge f)); [discriminate|].
  destruct (ItemForm.validateAge Number maxAge (ItemForm.startAge f))
    as [s|] eqn:Hs; [|discriminate].
  destruct (validateAge_Some _ _ Hs) as (Hns & Hs0 & Hsmax).
  exists s. rewrite Hns. cbn [ItemForm.stored].
  split; [done|]. split; [done|]. split; [done|].
  split; [|split; [|done]].
  - intros e. destruct (ItemForm.isMaxChecked f); [discriminate|].
    destruct (CategoryManager.blank (ItemForm.endAge f)); [discriminate|].
    cbn [negb] in *.
    destruct (ItemForm.validateAge Number maxAge (ItemForm.endAge f))
      as [e'|] eqn:He; [|discriminate].
    destruct (validateAge_Some _ _ He) as (Hne & He0 & Hemax).
    rewrite Hne. cbn [ItemForm.stored]. intros [= <-].
    match goal with H : Qltb _ _ = false |- _ => apply Qltb_ge in H end.
    done.
  - by intros ->.
Qed.

(** X25. An item submitted in age mode starts between 0 and the
    maximum age and, when it has an end, ends between its start and
    the maximum age; it carries no dates. *)
Theorem handleSubmit_age_bounds (category : Category)
  (f : ItemForm.Fields) (d : ItemForm.ItemData) :
  submit category f = Some d ->
  ItemForm.inputMode f = age_mode ->
  exists s,
    ItemForm.data_start_age d = Some s
    /\ (0 <= s)%Q /\ (s <= maxAge)%Q
    /\ (forall e, ItemForm.data_end_age d = Some e ->
          (s <= e)%Q /\ (e <= maxAge)%Q)
    /\ (ItemForm.data_use_max_age d = true ->
          ItemForm.data_end_age d = None)
    /\ ItemForm.data_start_date d = None
    /\ ItemForm.data_end_date d = None.
Proof. intros Hsub Hmode. by destruct (submit_age category f d Hsub Hmode). Qed.

(** An item of the list after a save is an item of the list before it,
    or carries the submitted data. *)
Lemma handleSaveItem_items (cats : list Category) (d : ItemForm.ItemData)
  (st : LifeMapView.ItemsState) (item : TimelineItem) :
  item ∈ LifeMapView.stateItems (LifeMapView.handleSaveItem cats d st) ->
  item ∈ LifeMapView.stateItems st
  \/ exists id categoryId category,
       item = LifeMapView.itemOfData d id categoryId category.
Proof.
  unfold LifeMapView.handleSaveItem.
  destruct (negb (LifeMapView.lifeMapLoaded st)); [by left|].
  destruct (CategoryManager.blank (ItemForm.data_title d)); [by left|].
  match goal with
  | |- context [if ?b then st else _] => destruct b; [by left|]
  end.
  destruct (LifeMapView.editingItem st) as [editing|].
  - cbv zeta. cbn [LifeMapView.stateItems]. intros Hin.
    match type of Hin with
    | _ ∈ map ?g ?l => change (map g l) with (g <$> l) in Hin
    end.
    apply list_elem_of_fmap in Hin as (i0 & -> & Hi0).
    destruct (Z.eqb (item_id i0) (item_id editing)); [right; eauto|by left].
  - destruct (LifeMapView.selectedCategory st) as [selected|]; [|by left].
    cbv zeta. cbn [LifeMapView.stateItems]. intros Hin.
    apply elem_of_app in Hin as [Hin|Hin]; [by left|].
    apply list_elem_of_singleton in Hin. right. eauto.
Qed.

(** X26. Whatever a save of an age-mode submission adds to the items
    or changes in them is placed by the normalizer between 0 and the
    maximum age, its end not before its start. *)
Theorem saved_item_within_age_range (category : Category)
  (f : ItemForm.Fields) (d : ItemForm.ItemData) (cats : list Category)
  (st : LifeMapView.ItemsState) (dob : string) (item : TimelineItem) :
  submit category f = Some d ->
  ItemForm.inputMode f = age_mode ->
  item ∈ LifeMapView.stateItems (LifeMapView.handleSaveItem cats d st) ->
  item ∉ LifeMapView.stateItems st ->
  let ages := deriveItemAges newDate item dob maxAge in
  (0 <= start_age ages)%Q /\ (start_age ages <= maxAge)%Q
  /\ forall e, end_age ages = Some e ->
       (start_age ages <= e)%Q /\ (e <= maxAge)%Q.
Proof.
  intros Hsub Hmode Hin Hnew.
  destruct (handleSaveItem_items cats d st item Hin)
    as [Hold | (id & cid & cat & ->)]; [done|].
  destruct (submit_age category f d Hsub Hmode)
    as (Hm & s & Hs & Hs0 & Hsmax & Hend & Hmaxed & _).
  unfold deriveItemAges, LifeMapView.itemOfData.
  cbn [item_input_mode item_start_date item_use_max_age item_start_age
       item_end_age].
  rewrite Hm, Hs. cbn [is_date_mode andb nullish start_age end_age truthy_bool].
  split; [done|]. split; [done|].
  intros e. destruct (ItemForm.data_use_max_age d).
  - intros [= <-]. split; [done|apply Qle_refl].
  - apply Hend.
Qed.

(** X27. While the next item identifier is a safe integer (below 2^53
    in size, so that adding 1 to it is exact), distinct item identifiers
    below the next identifier are an invariant of saving an item and of
    deleting one. *)
Theorem itemIds_fresh_preserved (cats : list Category)
  (d : ItemForm.ItemData) (st : LifeMapView.ItemsState) :
  itemIds_fresh st ->
  isSafeInteger (LifeMapView.nextItemId st) = true ->
  itemIds_fresh (LifeMapView.handleSaveItem cats d st)
  /\ forall itemId confirmed,
       let kept :=
         LifeMapView.handleDeleteItem itemId confirmed
           (LifeMapView.stateItems st) in
       NoDup (item_id <$> kept)
       /\ forall item, item ∈ kept ->
            item_id item < LifeMapView.nextItemId st.
Proof.
  intros [Hnd Hbelow] Hsafe. apply succDouble_safe in Hsafe. split.
  - unfold LifeMapView.handleSaveItem.
    destruct (negb (LifeMapView.lifeMapLoaded st)); [done|].
    destruct (CategoryManager.blank (ItemForm.data_title d)); [done|].
    match goal with
    | |- context [if ?b then st else _] => destruct b; [done|]
    end.
    destruct (LifeMapView.editingItem st) as [editing|].
    + cbv zeta.
      match goal with
      | |- itemIds_fresh {| LifeMapView.stateItems := map ?g ?l |} =>
          assert (Hids : item_id <$> map g l = item_id <$> l)
      end.
      { clear Hnd Hbelow.
        induction (LifeMapView.stateItems st) as [|i l IH]; [done|].
        cbn [map]. rewrite !fmap_cons, IH. f_equal.
        destruct (Z.eqb_spec (item_id i) (item_id editing)); [|done].
        by cbn [LifeMapView.itemOfData item_id]. }
      split; cbn [LifeMapView.stateItems LifeMapView.nextItemId].
      * by rewrite Hids.
      * intros item Hitem.
        assert (Hid : item_id item ∈ item_id <$> LifeMapView.stateItems st).
        { rewrite <- Hids. apply list_elem_of_fmap. eauto. }
        apply list_elem_of_fmap in Hid as (i0 & -> & Hi0). by apply Hbelow.
    + destruct (LifeMapView.selectedCategory st) as [selected|]; [|done].
      cbv zeta. rewrite Hsafe.
      split; cbn [LifeMapView.stateItems LifeMapView.nextItemId].
      * rewrite fmap_app. apply NoDup_app. split; [done|].
        split; [|apply NoDup_singleton].
        intros x Hx Hx'. apply list_elem_of_singleton in Hx'.
        cbn [LifeMapView.itemOfData item_id] in Hx'. subst x.
        apply list_elem_of_fmap in Hx as (i0 & Hid & Hi0).
        specialize (Hbelow i0 Hi0). lia.
      * intros item Hitem. apply elem_of_app in Hitem as [Hitem|Hitem].
        -- specialize (Hbelow item Hitem). lia.
        -- apply list_elem_of_singleton in Hitem. subst item.
           cbn [LifeMapView.itemOfData item_id]. lia.
  - intros itemId confirmed kept. subst kept.
    unfold LifeMapView.handleDeleteItem.
    destruct (negb confirmed); [done|]. split.
    + eapply sublist_NoDup; [exact Hnd|].
      apply fmap_sublist, List_filter_sublist.
    + intros item Hitem. apply elem_of_List_filter in Hitem as [Hitem _].
      by apply Hbelow.
Qed.

End ItemFormFacts.

(** X28. For loaded identifiers below 2^53, the next identifier that
    [initializeLifeMap] computes is positive, at most 2^53 and above
    every loaded identifier; for the loaded identifier 2^53 it is 2^53
    again, as the sum is rounded to a double. *)
Theorem nextIdAfter_above (loaded : list Z) :
  (forall id, id ∈ loaded -> id < 2 ^ 53) ->
  0 < LifeMapView.nextIdAfter loaded <= 2 ^ 53
  /\ (forall id, id ∈ loaded -> id < LifeMapView.nextIdAfter loaded)
  /\ LifeMapView.nextIdAfter [2 ^ 53] = 2 ^ 53.
Proof.
  intros Hbound.
  assert (Hmax : 0 <= fold_right Z.max 0 loaded < 2 ^ 53
                 /\ forall id, id ∈ loaded -> id <= fold_right Z.max 0 loaded).
  { induction loaded as [|x l IH]; cbn [fold_right].
    - split; [done|]. intros id Hid. by apply elem_of_nil in Hid.
    - destruct IH as [IH0 IH].
      { intros id Hid. apply Hbound. by apply list_elem_of_further. }
      specialize (Hbound x (list_elem_of_here _ _)).
      split; [lia|]. intros id Hid. apply elem_of_cons in Hid as [->|Hid].
      + lia.
      + specialize (IH id Hid). lia. }
  destruct Hmax as [Hrange Hmax].
  unfold LifeMapView.nextIdAfter. rewrite succDouble_safe.
  - split; [lia|]. split; [|by vm_compute].
    intros id Hid. specialize (Hmax id Hid). lia.
  - unfold isSafeInteger. apply Z.ltb_lt. lia.
Qed.

(* ================================================================== *)
(** * The year boxes of the age bar *)
(* ================================================================== *)

Section AgeBarFacts.

Variable newDate : string -> Date.
Variable p : TimelineProps.

Local Abbreviation lastAge := (START_AGE newDate p + AGE_RANGE newDate p)%Q.

Lemma Qnat_S (k : nat) : (Qnat (S k) == Qnat k + 1)%Q.
Proof.
  unfold Qnat. rewrite Nat2Z.inj_succ, <- Z.add_1_r, inject_Z_plus.
  reflexivity.
Qed.

Lemma markerLoop_lookup (fuel : nat) (age : Q) (k : nat) (a : Q) :
  markerLoop newDate p fuel age !! k = Some a ->
  (a == age + Qnat k)%Q /\ (a <= lastAge)%Q.
Proof.
  revert age k. induction fuel as [|fuel IH]; intros age k; [done|].
  cbn [markerLoop]. destruct (Qleb age lastAge) eqn:Hle; [|done].
  apply Qleb_le in Hle. destruct k as [|k]; cbn [lookup list_lookup].
  - intros [= <-]. split; [|done]. change (Qnat 0) with 0%Q. lra.
  - intros Ha. destruct (IH _ _ Ha) as [Heq Hlast]. split; [|done].
    rewrite Heq, Qnat_S. lra.
Qed.

(** With more tests allowed than boxes are due, the loop stops by its
    condition. *)
Lemma markerLoop_stops (n fuel : nat) (age : Q) :
  (n < fuel)%nat ->
  (forall j, (j < n)%nat -> age + Qnat j <= lastAge)%Q ->
  (lastAge < age + Qnat n)%Q ->
  length (markerLoop newDate p fuel age) = n
  /\ forall extra,
       markerLoop newDate p (fuel + extra) age
       = markerLoop newDate p fuel age.
Proof.
  revert fuel age. induction n as [|n IH]; intros fuel age Hfuel Hin Hout.
  - destruct fuel as [|fuel]; [lia|]. cbn [markerLoop Nat.add].
    assert (Hgt : Qleb age lastAge = false).
    { apply Qleb_gt. change (Qnat 0) with 0%Q in Hout. lra. }
    rewrite Hgt. done.
  - destruct fuel as [|fuel]; [lia|]. cbn [markerLoop Nat.add].
    assert (Hle : Qleb age lastAge = true).
    { apply Qleb_le. specialize (Hin 0%nat ltac:(lia)).
      change (Qnat 0) with 0%Q in Hin. lra. }
    rewrite Hle.
    destruct (IH fuel (age + 1)%Q) as [Hlen Hextra].
    + lia.
    + intros j Hj. specialize (Hin (S j) ltac:(lia)).
      rewrite Qnat_S in Hin. lra.
    + rewrite Qnat_S in Hout. lra.
    + split; [cbn [length]; by rewrite Hlen|].
      intros extra. by rewrite Hextra.
Qed.

(** X29. For a displayed span above 0, the loop of the age markers
    stops by its condition, draws one box for each whole year of the
    span, the first at the first displayed age, and each box begins
    where the box before it ends. *)
Theorem age_markers_tile :
  (0 < AGE_RANGE newDate p)%Q ->
  (forall extra,
     markerLoop newDate p
       (S (S (Z.to_nat (Qfloor (AGE_RANGE newDate p)))) + extra)
       (START_AGE newDate p)
     = markerAges newDate p)
  /\ length (renderAgeMarkers newDate p)
     = S (Z.to_nat (Qfloor (AGE_RANGE newDate p)))
  /\ (forall k a, markerAges newDate p !! k = Some a ->
        (a == START_AGE newDate p + Qnat k)%Q)
  /\ forall k a b,
       markerAges newDate p !! k = Some a ->
       markerAges newDate p !! S k = Some b ->
       exists left_a left_b boxWidth,
         markerBox newDate p a = (Fin left_a, Fin boxWidth)
         /\ markerBox newDate p b = (Fin left_b, Fin boxWidth)
         /\ (left_a + boxWidth == left_b)%Q.
Proof.
  intros Hpos.
  set (n := S (Z.to_nat (Qfloor (AGE_RANGE newDate p)))).
  assert (Hfloor : 0 <= Qfloor (AGE_RANGE newDate p)).
  { change 0 with (Qfloor 0). apply Qfloor_resp_le. lra. }
  assert (Hn : (Qnat n == inject_Z (Qfloor (AGE_RANGE newDate p)) + 1)%Q).
  { unfold n. rewrite Qnat_S. unfold Qnat. by rewrite Z2Nat.id. }
  destruct (markerLoop_stops n (S n) (START_AGE newDate p)) as [Hlen Hstop].
  - lia.
  - intros j Hj.
    assert (Hjn : (Qnat j <= inject_Z (Qfloor (AGE_RANGE newDate p)))%Q).
    { unfold Qnat. rewrite <- Zle_Qle. unfold n in Hj. lia. }
    pose proof (Qfloor_le (AGE_RANGE newDate p)). lra.
  - pose proof (Qlt_floor (AGE_RANGE newDate p)) as Hlt.
    rewrite inject_Z_plus in Hlt. change (inject_Z 1) with 1%Q in Hlt.
    rewrite Hn. lra.
  - split; [exact Hstop|]. split.
    { unfold renderAgeMarkers. rewrite length_map. exact Hlen. }
    split.
    { intros k a Ha. by destruct (markerLoop_lookup _ _ _ _ Ha). }
    intros k a b Ha Hb.
    destruct (markerLoop_lookup _ _ _ _ Ha) as [Hak _].
    destruct (markerLoop_lookup _ _ _ _ Hb) as [Hbk _].
    rewrite Qnat_S in Hbk.
    assert (Hne : ~ (AGE_RANGE newDate p == 0)%Q) by lra.
    unfold markerBox, num_div. cbv zeta.
    apply Qeqb_neq in Hne as Hneb. rewrite Hneb.
    cbn [num_half num_sub num_neg num_add].
    eexists _, _, _. split; [reflexivity|]. split; [reflexivity|].
    rewrite !(ageToX_affine newDate p) by done.
    rewrite Hak, Hbk.
    set (w := (TIMELINE_WIDTH p / AGE_RANGE newDate p)%Q).
    field.
Qed.

End AgeBarFacts.

(* ================================================================== *)
(** * Instances of the further properties *)
(* ================================================================== *)

Ltac compare_numbers :=
  vm_compute; first [reflexivity | let H := fresh in intros H; discriminate H].

Ltac decide_it := apply (bool_decide_unpack _); vm_compute; exact I.

Ltac each_member H :=
  repeat (apply elem_of_cons in H as [->|H]); [..|by apply elem_of_nil in H].

Lemma isoDate_month_range (s : string) (y m d : Z) :
  isoDate s = YMD y m d -> 0 <= m <= 11.
Proof.
  unfold isoDate.
  destruct (list_ascii_of_string s)
    as [|y1 [|y2 [|y3 [|y4 [|s1 [|m1 [|m2 [|s2 [|d1 [|d2 [|extra l]]]]]]]]]]];
    try discriminate.
  destruct (is_dash s1 && is_dash s2); [|discriminate].
  destruct (digitOf y1), (digitOf y2), (digitOf y3), (digitOf y4),
    (digitOf m1) as [e|], (digitOf m2) as [f|], (digitOf d1), (digitOf d2);
    try discriminate.
  cbv zeta.
  destruct ((1 <=? 10 * e + f) && (10 * e + f <=? 12)) eqn:Hmonth;
    cbn [andb]; [|discriminate].
  match goal with
  | |- (if ?b then _ else _) = _ -> _ => destruct b; [|discriminate]
  end.
  intros [= _ <- _]. apply andb_true_iff in Hmonth as [H1 H2].
  apply Z.leb_le in H1, H2. lia.
Qed.

Lemma categories_ids :
  NoDup (cat_id <$> CategoryManager.categories managerStart).
Proof. decide_it. Qed.

Lemma calculateAgeAtDate_monotone_witness :
  exists a1 a2,
    calculateAgeAtDate isoDate (Some "2010-06-15"%string)
      (Some "2000-07-01"%string) = Some a1
    /\ calculateAgeAtDate isoDate (Some "2011-07-15"%string)
         (Some "2000-07-01"%string) = Some a2
    /\ a1 <= a2.
Proof.
  apply (calculateAgeAtDate_monotone isoDate "2010-06-15" "2011-07-15"
           "2000-07-01" 2010 5 15 2011 6 15 2000 6 1);
    try discriminate; try reflexivity.
  left. lia.
Defined.

Lemma calculateAgeAtDate_months_div_12_witness :
  exists months,
    calculateMonthsDiff isoDate (Some "2000-07-01"%string)
      (Some "2011-07-15"%string) = Some months
    /\ calculateAgeAtDate isoDate (Some "2011-07-15"%string)
         (Some "2000-07-01"%string) = Some (months / 12).
Proof.
  apply (calculateAgeAtDate_months_div_12 isoDate "2011-07-15" "2000-07-01"
           2011 6 15 2000 6 1);
    try discriminate; try reflexivity; lia.
Defined.

(** The span of thirteen months starts at age 9 and ends at age 11. *)
Lemma deriveItemAges_date_span_one_year_witness :
  (start_age (deriveItemAges isoDate span13 "2000-07-01" 80) + 1
   <= inject_Z 11)%Q.
Proof.
  apply (deriveItemAges_date_span_one_year isoDate span13 "2000-07-01" 80
           (inject_Z 11)).
  - exact isoDate_month_range.
  - reflexivity.
  - reflexivity.
  - reflexivity.
  - vm_compute. reflexivity.
Defined.

Lemma ageToX_window_witness :
  (forall a b,
     (a < b <-> ageToX isoDate exampleProps a < ageToX isoDate exampleProps b)%Q)
  /\ (forall a,
        (START_AGE isoDate exampleProps <= a
         /\ a <= START_AGE isoDate exampleProps
                 + AGE_RANGE isoDate exampleProps
         <-> 0 <= ageToX isoDate exampleProps a
             /\ ageToX isoDate exampleProps a
                <= TIMELINE_WIDTH exampleProps)%Q)
  /\ (forall a,
        (ageToX isoDate exampleProps (a + 1) - ageToX isoDate exampleProps a
         == TIMELINE_WIDTH exampleProps / AGE_RANGE isoDate exampleProps)%Q).
Proof.
  apply (ageToX_window isoDate exampleProps); compare_numbers.
Defined.

(** The future view at age 70 starts at 70. *)
Lemma calculateDisplayRange_view_clamps_witness :
  (currentAge futureProps
   <= startAge (calculateDisplayRange isoDate futureProps))%Q.
Proof.
  refine (proj1 (calculateDisplayRange_view_clamps isoDate futureProps _) _);
    reflexivity.
Defined.

Lemma calculateDisplayRange_start_nonneg_witness :
  (0 <= startAge (calculateDisplayRange isoDate exampleProps))%Q.
Proof.
  apply (calculateDisplayRange_start_nonneg isoDate exampleProps).
  compare_numbers.
Defined.

(** The milestone at 75 of the future view at age 70 is inside the
    window. *)
Lemma calculateDisplayRange_covers_items_witness :
  (nullish
     (end_age (deriveItemAges isoDate lateMilestone "2000-01-01" 80))
     (start_age (deriveItemAges isoDate lateMilestone "2000-01-01" 80))
   <= startAge (calculateDisplayRange isoDate futureProps)
      + displayRange (calculateDisplayRange isoDate futureProps))%Q
  /\ (startAge (calculateDisplayRange isoDate futureProps)
      <= start_age (deriveItemAges isoDate lateMilestone "2000-01-01" 80))%Q.
Proof.
  pose proof (calculateDisplayRange_covers_items isoDate futureProps
                lateMilestone) as H.
  destruct H as (Hend & _ & _ & Hstart).
  - reflexivity.
  - intros i Hi. change (items futureProps) with [lateMilestone] in Hi.
    each_member Hi. split; compare_numbers.
  - apply list_elem_of_here.
  - split.
    + apply Hend. discriminate.
    + apply Hstart; [reflexivity|compare_numbers].
Defined.

Lemma pastViewProps_items : items pastViewProps = [itemA; itemB; itemC].
Proof. vm_compute. reflexivity. Qed.

Lemma futureViewProps_items : items futureViewProps = [itemC].
Proof. vm_compute. reflexivity. Qed.

(** The span A in the past view at age 26. *)
Lemma past_view_window_witness :
  (0 <= startAge (calculateDisplayRange isoDate pastViewProps)
   /\ startAge (calculateDisplayRange isoDate pastViewProps)
      <= start_age (deriveItemAges isoDate itemA "2000-01-01" 80)
   /\ start_age (deriveItemAges isoDate itemA "2000-01-01" 80)
      < startAge (calculateDisplayRange isoDate pastViewProps)
        + displayRange (calculateDisplayRange isoDate pastViewProps)
   /\ startAge (calculateDisplayRange isoDate pastViewProps)
      + displayRange (calculateDisplayRange isoDate pastViewProps)
      <= 26)%Q.
Proof.
  apply (past_view_window isoDate 26 80 "2000-01-01" exampleItems [projects]
           1200 1 itemA).
  - compare_numbers.
  - intros i Hi.
    change (LifeMapView.timelineProps isoDate exampleItems [projects] 26 80
              "2000-01-01" view_past 1200 1) with pastViewProps in Hi.
    rewrite pastViewProps_items in Hi.
    each_member Hi; split; compare_numbers.
  - change (LifeMapView.timelineProps isoDate exampleItems [projects] 26 80
              "2000-01-01" view_past 1200 1) with pastViewProps.
    rewrite pastViewProps_items. apply list_elem_of_here.
Defined.

(** The span C in the future view at age 26. *)
Lemma future_view_window_witness :
  (26 <= startAge (calculateDisplayRange isoDate futureViewProps)
   /\ startAge (calculateDisplayRange isoDate futureViewProps)
      <= nullish (end_age (deriveItemAges isoDate itemC "2000-01-01" 80))
           (start_age (deriveItemAges isoDate itemC "2000-01-01" 80))
   /\ nullish (end_age (deriveItemAges isoDate itemC "2000-01-01" 80))
        (start_age (deriveItemAges isoDate itemC "2000-01-01" 80))
      <= startAge (calculateDisplayRange isoDate futureViewProps)
         + displayRange (calculateDisplayRange isoDate futureViewProps)
   /\ startAge (calculateDisplayRange isoDate futureViewProps)
      + displayRange (calculateDisplayRange isoDate futureViewProps)
      <= 80)%Q.
Proof.
  apply (future_view_window isoDate 26 80 "2000-01-01" exampleItems
           [projects] 1200 1 itemC).
  - intros i Hi.
    change (LifeMapView.timelineProps isoDate exampleItems [projects] 26 80
              "2000-01-01" view_future 1200 1) with futureViewProps in Hi.
    rewrite futureViewProps_items in Hi.
    each_member Hi; split; compare_numbers.
  - change (LifeMapView.timelineProps isoDate exampleItems [projects] 26 80
              "2000-01-01" view_future 1200 1) with futureViewProps.
    rewrite futureViewProps_items. apply list_elem_of_here.
Defined.

(** The span C, from 25 to 30, in the past view at age 26: the bar
    starts at 1140 and its 60 pixels end at the current-age line. *)
Lemma renderItem_clips_at_current_age_witness :
  exists width : Q,
    Fin (22800 # 20) = Fin (ageToX isoDate clippedProps 25)
    /\ Fin (24000 # 400) = Fin width
    /\ (0 < width
        /\ ageToX isoDate clippedProps 25 + width
           == ageToX isoDate clippedProps 26)%Q.
Proof.
  refine (proj1 (renderItem_clips_at_current_age isoDate clippedProps itemC
                   projects 30 (Fin (22800 # 20)) (Fin (24000 # 400))
                   _ _ _ _ _) _ _).
  - decide_it.
  - apply list_elem_of_here.
  - vm_compute. reflexivity.
  - vm_compute. reflexivity.
  - vm_compute. reflexivity.
  - reflexivity.
  - compare_numbers.
Defined.

(** Two categories in the top section, with rows of the default
    height. *)
Lemma top_section_bands_witness :
  (getTopSectionY 1 2 ∅ None (Some [projects; hobbies])
   - getCategoryRowHeight 2 ∅ None / 2
   == getTopSectionY 0 1 ∅ None (Some [projects; hobbies])
      + getCategoryRowHeight 1 ∅ None / 2)%Q.
Proof.
  exact (proj1 (proj2 (top_section_bands ∅ None [projects; hobbies] 0
                         projects eq_refl))
           hobbies eq_refl).
Defined.

Lemma bottom_section_bands_witness :
  (getBottomSectionY 1 2 ∅ 100 None (Some [projects; hobbies])
   - getCategoryRowHeight 2 ∅ None / 2
   == getBottomSectionY 0 1 ∅ 100 None (Some [projects; hobbies])
      + getCategoryRowHeight 1 ∅ None / 2)%Q.
Proof.
  exact (proj2 (bottom_section_bands ∅ None [projects; hobbies] 0
                  projects 100 eq_refl)
           hobbies eq_refl).
Defined.

Lemma getCategoryRows_dense_witness :
  exists row : nat,
    topRows (getCategoryRows [projects; hobbies]) !! 2 = Some row
    /\ topCategories (getCategoryRows [projects; hobbies]) !! row
       = Some hobbies
    /\ cat_display_order hobbies = Z.of_nat row.
Proof.
  refine (getCategoryRows_dense [projects; hobbies] hobbies _ _ _).
  - exact categories_ids.
  - apply list_elem_of_further, list_elem_of_here.
  - unfold CategoryManager.dense. vm_compute. reflexivity.
Defined.

Lemma handleDelete_keeps_dense_witness :
  CategoryManager.dense top (CategoryManager.categories managerDeletedFirst).
Proof.
  refine (proj1 (handleDelete_keeps_dense managerStart projects _ _)).
  - exact categories_ids.
  - apply list_elem_of_here.
Defined.

Lemma managerCreating_fresh : ids_fresh managerCreating.
Proof.
  split; [exact categories_ids|].
  intros c Hc.
  change (CategoryManager.categories managerCreating)
    with [projects; hobbies] in Hc.
  each_member Hc; reflexivity.
Qed.

Lemma handleSave_create_keeps_dense_witness :
  CategoryManager.dense top (CategoryManager.categories managerAddedFirst).
Proof.
  apply (handleSave_create_keeps_dense managerCreating top).
  - vm_compute. reflexivity.
  - reflexivity.
  - exact managerCreating_fresh.
  - unfold CategoryManager.dense. vm_compute. reflexivity.
Defined.

Lemma handleSave_edit_renumbers_witness :
  CategoryManager.dense top
    (CategoryManager.categories
       (CategoryManager.handleSave managerEditingFirst)).
Proof.
  apply (handleSave_edit_renumbers managerEditingFirst hobbies).
  - vm_compute. reflexivity.
  - reflexivity.
  - exact categories_ids.
  - decide_it.
  - vm_compute. reflexivity.
Defined.

Lemma ids_fresh_preserved_witness :
  ids_fresh (CategoryManager.handleSave managerCreating)
  /\ ids_fresh (CategoryManager.handleDelete 1 true managerCreating).
Proof.
  destruct (ids_fresh_preserved managerCreating managerCreating_fresh
              eq_refl)
    as [Hsave Hdelete].
  split; [exact Hsave|exact (Hdelete 1 true)].
Defined.

Lemma handleSave_keeps_names_distinct_witness :
  NoDup
    (cat_name
     <$> CategoryManager.categories
           (CategoryManager.handleSave managerCreating)).
Proof.
  apply (handleSave_keeps_names_distinct managerCreating).
  - exact categories_ids.
  - decide_it.
Defined.

Lemma deleted_category_hides_items_witness :
  item_id <$> items orphanProps = item_id <$> exampleItems
  /\ forall item, item ∈ items orphanProps -> item_category_id item = 1 ->
       renderItem isoDate orphanProps item = None.
Proof.
  refine (deleted_category_hides_items isoDate managerStart projects
            exampleItems orphanProps _ _).
  - apply list_elem_of_here.
  - reflexivity.
Defined.

Lemma handleSubmit_age_bounds_witness :
  exists s,
    ItemForm.data_start_age submittedA = Some s
    /\ (0 <= s)%Q /\ (s <= 80)%Q
    /\ (forall e, ItemForm.data_end_age submittedA = Some e ->
          (s <= e)%Q /\ (e <= 80)%Q)
    /\ (ItemForm.data_use_max_age submittedA = true ->
          ItemForm.data_end_age submittedA = None)
    /\ ItemForm.data_start_date submittedA = None
    /\ ItemForm.data_end_date submittedA = None.
Proof.
  apply (handleSubmit_age_bounds decimalNumber isoDate neverBefore 80
           projects formA submittedA).
  - vm_compute. reflexivity.
  - reflexivity.
Defined.

Lemma savedA_new : savedA ∉ LifeMapView.stateItems viewState.
Proof.
  intros Hin. apply (list_elem_of_fmap_2 item_id) in Hin. revert Hin.
  decide_it.
Qed.

Lemma saved_item_within_age_range_witness :
  (0 <= start_age (deriveItemAges isoDate savedA "2000-01-01" 80))%Q
  /\ (start_age (deriveItemAges isoDate savedA "2000-01-01" 80) <= 80)%Q
  /\ forall e,
       end_age (deriveItemAges isoDate savedA "2000-01-01" 80) = Some e ->
       (start_age (deriveItemAges isoDate savedA "2000-01-01" 80) <= e)%Q
       /\ (e <= 80)%Q.
Proof.
  apply (saved_item_within_age_range decimalNumber isoDate neverBefore 80
           projects formA submittedA [projects] viewState "2000-01-01"
           savedA).
  - vm_compute. reflexivity.
  - reflexivity.
  - change (savedA ∈ exampleItems ++ [savedA]).
    apply elem_of_app. right. apply list_elem_of_here.
  - exact savedA_new.
Defined.

Lemma viewState_fresh : itemIds_fresh viewState.
Proof.
  split; [exact exampleItems_ids|].
  intros item Hitem.
  change (LifeMapView.stateItems viewState) with [itemA; itemB; itemC]
    in Hitem.
  each_member Hitem; reflexivity.
Qed.

Lemma itemIds_fresh_preserved_witness :
  itemIds_fresh (LifeMapView.handleSaveItem [projects] submittedA viewState).
Proof.
  exact (proj1 (itemIds_fresh_preserved [projects] submittedA viewState
                  viewState_fresh eq_refl)).
Defined.

(** After the identifiers 1, 2 and 3 the next identifier is 4. *)
Lemma nextIdAfter_above_witness :
  0 < LifeMapView.nextIdAfter (item_id <$> exampleItems) <= 2 ^ 53
  /\ forall id, id ∈ item_id <$> exampleItems ->
       id < LifeMapView.nextIdAfter (item_id <$> exampleItems).
Proof.
  destruct (nextIdAfter_above (item_id <$> exampleItems)) as (H1 & H2 & _).
  - intros id Hid. change (item_id <$> exampleItems) with [1; 2; 3] in Hid.
    each_member Hid; reflexivity.
  - split; [exact H1|exact H2].
Defined.

(** The whole life of 80 years has 81 year boxes. *)
Lemma age_markers_tile_witness :
  length (renderAgeMarkers isoDate exampleProps) = 81%nat.
Proof.
  refine (proj1 (proj2 (age_markers_tile isoDate exampleProps _))).
  compare_numbers.
Defined.

(** Opening the first of two recent files twice. *)
Lemma recentFiles_add_twice_witness :
  paths
    (RecentFiles.get
       (RecentFiles.add "/maps/a.lifemap" "A" 30 true
          (RecentFiles.add "/maps/a.lifemap" "A" 20 true storedFiles)))
  = paths
      (RecentFiles.get
         (RecentFiles.add "/maps/a.lifemap" "A" 20 true storedFiles)).
Proof.
  eapply (recentFiles_add_twice "/maps/a.lifemap" "A" "A" 20 30 true
            storedFiles).
  - reflexivity.
  - apply existsb_isNull. reflexivity.
Defined.
